(** * Linear Search Visualizer: the animation sequencer of [app.py]

    A shallow embedding of [progress_html], [format_steps] and the generator
    [linear_search_animated], with the properties of the sequencing engine;
    and of [pick_random_from_list] and of what [draw_frame] decides for each
    bar: its colour, whether it glows, the alpha and the width of each glow
    layer.

    Modelling choices.
    - Python [int] is [Z]; Python [float] is a rational number ([Q]) that
      is the value of a finite binary64 number.  Every float operation of
      the source is the exact operation on [Q] followed by a rounding
      [rnd : Q -> Q].  The program is written once, over an arbitrary
      [rnd] (Section [Program]), and read at two roundings: [b64], IEEE-754
      round-to-nearest-even to 53 bits, which is what CPython does, and
      [exact], the identity, which is real arithmetic.  The exponent range
      of binary64 is represented at the subnormal end only: no value of the
      program comes near 2^1024 unless [speed] is astronomically large.
    - The generator is the list of the tuples it yields, in order, when the
      consumer pulls it to the end; [time.sleep] pacing is not represented.
      The generator is also given as an object that is resumed [yield] by
      [yield], with its set [checked] on a heap that all generator
      objects share ([resume], [run_schedule]); the two are related in
      the part on generator objects.
    - [draw_frame] is called before each yield and rasterises its arguments
      at once, so the image of a frame is the tuple of arguments the call
      received: [current_index], [found_index], a snapshot of [checked] and
      [glow_strength] (the array is the same for the whole run).
    - [random.randrange] is a function [randrange] handed to
      [pick_random_from_list]; that it returns a number below its argument
      is a hypothesis where that is needed.
    - Not represented: [generate_list], which is [random.sample] and a
      format string; the matplotlib calls of [draw_frame]; the Gradio
      layout and wiring. *)

From Stdlib Require Import ZArith QArith Qround Qabs Qpower Lia Lqa.
From Stdlib Require Import Floats Uint63.
From stdpp Require Import base gmap sets list sorting strings pretty.

Local Open Scope Z_scope.

(** ** Binary64 rounding on rationals *)

Module Binary64.

(** [ilog2 q], for [q > 0], is the [e] with [2^e <= q < 2^(e+1)]. *)
Definition ilog2 (q : Q) : Z :=
  if Qle_bool 1 q then Z.log2 (Qfloor q)
  else - Z.log2_up (Qceiling (/ q)).

(** Nearest integer, ties to the even one. *)
Definition rne (q : Q) : Z :=
  let f := Qfloor q in
  match Qcompare (q - inject_Z f) (1 # 2) with
  | Lt => f
  | Gt => f + 1
  | Eq => if Z.even f then f else f + 1
  end.

Definition pow2 (e : Z) : Q := Qpower 2 e.

(** Exponent of the unit in the last place: 53 significant bits, and the
    subnormal floor at 2^-1074. *)
Definition ulp_exp (q : Q) : Z := Z.max (ilog2 (Qabs q) - 52) (-1074).

Definition round_at (e : Z) (q : Q) : Q :=
  Qred (inject_Z (rne (q / pow2 e)) * pow2 e).

Definition b64 (q : Q) : Q :=
  let r := Qred q in
  match Qnum r with
  | 0 => 0%Q
  | _ => round_at (ulp_exp r) r
  end.

(** The value [b64] computes, before it is put in lowest terms. *)
Definition rounded (r : Q) : Q :=
  (inject_Z (rne (r / pow2 (ulp_exp r))) * pow2 (ulp_exp r))%Q.

(** Real arithmetic: nothing is rounded. *)
Definition exact (q : Q) : Q := q.

(** *** The same operations on Rocq's primitive binary64 floats, to compare
    [b64] with on the operands the program uses. *)

Definition SF2Q (x : spec_float) : option Q :=
  match x with
  | S754_zero _ => Some 0%Q
  | S754_finite s m e =>
      Some (Qred (inject_Z (if s then Z.neg m else Z.pos m) * pow2 e))
  | _ => None
  end.

Definition float_value (x : float) : option Q := SF2Q (Prim2SF x).

Definition float_of_Z (z : Z) : float :=
  if z <? 0 then PrimFloat.opp (PrimFloat.of_uint63 (Uint63.of_Z (- z)))
  else PrimFloat.of_uint63 (Uint63.of_Z z).

End Binary64.

Import Binary64.

(** ** The values the generator yields *)

(** [format_steps(active_step)]: the template has one slot per line of the
    "Current Step" panel, filled with "active" for the line whose number is
    [active_step] and with the empty string otherwise. *)
Record Steps := { s1 : bool; s2 : bool; s3 : bool; s4 : bool; s5 : bool }.

Definition format_steps (active_step : Z) : Steps :=
  {| s1 := bool_decide (active_step = 1);
     s2 := bool_decide (active_step = 2);
     s3 := bool_decide (active_step = 3);
     s4 := bool_decide (active_step = 4);
     s5 := bool_decide (active_step = 5) |}.

(** The three numbers that [progress_html] prints into its snippet. *)
Record Progress := { p_pct : Z; p_done : Z; p_total : Z }.

(** The arguments of one [draw_frame] call; [-1] is "none" for an index. *)
Record Image := {
  current_index : Z;
  found_index : Z;
  checked_indices : gset Z;
  glow_strength : Q
}.

Definition draw_frame (current_index found_index : Z)
    (checked_indices : gset Z) (glow_strength : Q) : Image :=
  {| current_index := current_index; found_index := found_index;
     checked_indices := checked_indices; glow_strength := glow_strength |}.

(** One yielded tuple [(status_text, image, step_html, progress_html)]. *)
Record Frame := {
  status : string;
  image : option Image;
  steps : Steps;
  progress : Progress
}.

(** The [arr] argument: a list, or the text of the list box together with
    what [eval] makes of it ([None] when [eval] raises). *)
Inductive arr_arg :=
  | Arr (l : list Z)
  | Str (evaluated : option (list Z)).

Definition arr_value (a : arr_arg) : option (list Z) :=
  match a with
  | Arr l => Some l
  | Str ev => ev
  end.

(** [int(x)] on a float: truncation towards zero. *)
Definition int_of_float (x : Q) : Z :=
  if Qle_bool 0 x then Qfloor x else Qceiling x.

Section Program.

Variable rnd : Q -> Q.

(** *** Float arithmetic *)

Definition of_int (z : Z) : Q := rnd (inject_Z z).
Definition lit (q : Q) : Q := rnd q.
Definition fadd (x y : Q) : Q := rnd (x + y).
Definition fsub (x y : Q) : Q := rnd (x - y).
Definition fmul (x y : Q) : Q := rnd (x * y).
(** [a / b] on two ints: the quotient, rounded once. *)
Definition true_div (a b : Z) : Q := rnd (inject_Z a / inject_Z b).

(** *** [progress_html] *)

Definition progress_pct (done total : Z) : Z :=
  int_of_float (fmul (true_div done (Z.max 1 total)) (of_int 100)).

Definition progress_html (done total : Z) : Progress :=
  {| p_pct := progress_pct done total; p_done := done; p_total := total |}.

(** *** [linear_search_animated] *)

(** Lines 258 and 259.  When the speed is so large that its conversion to
    a float or the product with 1.1 leaves the range of binary64 (beyond
    about 1.6e308 in magnitude) the source raises [OverflowError]; this
    is not represented, and the properties below that range over all
    speeds say where they need the speed bounded. *)
Definition frames_per_step (speed : Z) : Z :=
  Z.max 1
    (int_of_float (fsub (of_int 12) (fmul (of_int (speed - 1)) (lit (11 # 10))))).

Definition ease (t : Q) : Q :=
  fmul (fmul t t) (fsub (of_int 3) (fmul (of_int 2) t)).

Definition pulse (p : Z) : Q :=
  fadd (lit (6 # 10))
    (fmul (lit (9 # 10))
       (fsub (of_int 1)
          (fmul (Qabs (fsub (true_div p 5) (lit (1 # 2)))) (of_int 2)))).

Definition start_frame (n : Z) (checked : gset Z) : Frame :=
  {| status := "Starting search…";
     image := Some (draw_frame (-1) (-1) checked 0);
     steps := format_steps 1;
     progress := progress_html 0 n |}.

Definition approach_frame (n fps i : Z) (checked : gset Z) (f : Z) : Frame :=
  let t := true_div (f + 1) fps in
  let glow := fmul (lit (1 # 2)) (ease t) in
  {| status := "Checking index " +:+ pretty i +:+ "…";
     image := Some (draw_frame i (-1) checked glow);
     steps := format_steps 2;
     progress := progress_html i n |}.

Definition compare_frame (target n i val : Z) (checked : gset Z) : Frame :=
  {| status := "Comparing " +:+ pretty val +:+ " with " +:+ pretty target +:+ "…";
     image := Some (draw_frame i (-1) checked (lit (8 # 10)));
     steps := format_steps 2;
     progress := progress_html (i + 1) n |}.

Definition found_frame (target n i : Z) (checked : gset Z) (p : Z) : Frame :=
  {| status := "FOUND " +:+ pretty target +:+ " at index " +:+ pretty i +:+ "!,";
     image := Some (draw_frame i i checked (pulse p));
     steps := format_steps 3;
     progress := progress_html n n |}.

Definition advance_frame (n i : Z) (checked : gset Z) : Frame :=
  {| status := "No match, moving to index " +:+ pretty (i + 1);
     image := Some (draw_frame i (-1) checked (lit (2 # 10)));
     steps := format_steps 4;
     progress := progress_html (i + 1) n |}.

Definition end_frame (n : Z) (checked : gset Z) : Frame :=
  {| status := "End of search.";
     image := Some (draw_frame (-1) (-1) checked 0);
     steps := format_steps 5;
     progress := progress_html n n |}.

(** The [for i, val in enumerate(arr)] loop and the code after it: [rest]
    is what is left of the array, [i] the index of its head, [checked] the
    set as it stands when the iteration starts. *)
Fixpoint search_loop (target n fps : Z) (checked : gset Z) (i : Z)
    (rest : list Z) : list Frame :=
  match rest with
  | [] => [end_frame n checked]
  | val :: rest' =>
      (approach_frame n fps i checked <$> seqZ 0 fps)
      ++ compare_frame target n i val checked
      :: (let checked := {[ i ]} ∪ checked in
          if bool_decide (val = target)
          then found_frame target n i checked <$> seqZ 0 6
          else advance_frame n i checked
               :: search_loop target n fps checked (i + 1) rest')
  end.

Definition linear_search_animated (arr : arr_arg) (target : option Z)
    (speed : Z) : list Frame :=
  match arr_value arr with
  | None =>
      [ {| status := "Invalid list!"; image := None;
           steps := format_steps 0; progress := progress_html 0 1 |} ]
  | Some arr =>
      match target with
      | None =>
          [ {| status := "Pick a target number."; image := None;
               steps := format_steps 0;
               progress := progress_html 0 (Z.of_nat (length arr)) |} ]
      | Some target =>
          if bool_decide (target ∈ arr) then
            let n := Z.of_nat (length arr) in
            let checked : gset Z := ∅ in
            let fps := frames_per_step speed in
            start_frame n checked :: search_loop target n fps checked 0 arr
          else
            [ {| status := pretty target +:+ " is NOT in the list.";
                 image := None; steps := format_steps 0;
                 progress := progress_html 0 (Z.of_nat (length arr)) |} ]
      end
  end.

End Program.

Global Instance Q_eq_dec : EqDecision Q.
Proof. solve_decision. Defined.

(** ** Vocabulary of the properties *)

Global Instance Steps_eq_dec : EqDecision Steps.
Proof. solve_decision. Defined.

(** The frame was yielded with [format_steps(k)]. *)
Definition at_step (k : Z) (f : Frame) : Prop := steps f = format_steps k.

Global Instance at_step_dec k f : Decision (at_step k f).
Proof. unfold at_step. apply _. Defined.

(** An approach sub-frame of index [j]: step 2, progress computed from [j]
    (the comparison frame of [j] is computed from [j + 1]). *)
Definition is_approach (j : Z) (f : Frame) : Prop :=
  at_step 2 f /\ p_done (progress f) = j /\ current_index <$> image f = Some j.

Global Instance is_approach_dec j f : Decision (is_approach j f).
Proof. unfold is_approach. apply _. Defined.

(** [g] may come after [f] in a run: nothing leaves the checked set, and
    the index under inspection does not go back. *)
Definition frame_le (f g : Frame) : Prop :=
  forall a b, image f = Some a -> image g = Some b ->
    checked_indices a ⊆ checked_indices b /\
    (0 <= current_index b -> current_index a <= current_index b).

(** [len(arr)], and 0 when the text of the list did not evaluate. *)
Definition arr_length (a : arr_arg) : nat := from_option length 0%nat (arr_value a).

(** The frame count of C2 in the spec's words: [max(1, round(12 - (speed -
    1) * 1.1))] with [round] the arithmetic rounding to the nearest
    integer, in real arithmetic. *)
Definition round_nearest (q : Q) : Z := Qfloor (q + (1 # 2)).

Definition frames_per_step_rounded (speed : Z) : Z :=
  Z.max 1 (round_nearest (12 - (inject_Z speed - 1) * (11 # 10))).

(** The same with the fraction dropped instead, as [int(...)] does. *)
Definition frames_per_step_truncated (speed : Z) : Z :=
  Z.max 1 (int_of_float (12 - (inject_Z speed - 1) * (11 # 10))).

(** The percentage of C5 in the spec's words: [floor(100 * done / max(1,
    total))]. *)
Definition progress_floor (done total : Z) : Z := (100 * done) / Z.max 1 total.

(** The approach sub-frames of one index evaluate [ease] at [(f + 1) / fps]
    for [f] in [range(fps)].  [ease_grid_ok rnd fps] checks that all these
    arguments and all the values of [ease] lie in [0, 1] and that the
    values do not decrease along the grid. *)
Definition ease_grid_ok (rnd : Q -> Q) (fps : Z) : bool :=
  forallb
    (fun f =>
       let t := true_div rnd (f + 1) fps in
       let t' := true_div rnd (f + 2) fps in
       Qle_bool 0 t && Qle_bool t 1
       && Qle_bool 0 (ease rnd t) && Qle_bool (ease rnd t) 1
       && (bool_decide (f + 1 = fps) || Qle_bool (ease rnd t) (ease rnd t')))
    (seqZ 0 fps).

(** ** The float expressions of the source on primitive floats *)

(** A decimal literal is the binary64 number nearest to it, which is also
    the correctly rounded quotient of its numerator and denominator: 1.1 is
    [true_div 11 10]. *)

Module Primitive.

Definition int_of_float (x : float) : option Z :=
  int_of_float <$> float_value x.

Definition true_div (a b : Z) : float := PrimFloat.div (float_of_Z a) (float_of_Z b).

Definition progress_pct (done total : Z) : option Z :=
  int_of_float (PrimFloat.mul (true_div done (Z.max 1 total)) (float_of_Z 100)).

Definition frames_per_step (speed : Z) : option Z :=
  Z.max 1 <$>
    int_of_float
      (PrimFloat.sub (float_of_Z 12)
         (PrimFloat.mul (float_of_Z (speed - 1)) (true_div 11 10))).

Definition ease (t : float) : float :=
  PrimFloat.mul (PrimFloat.mul t t)
    (PrimFloat.sub (float_of_Z 3) (PrimFloat.mul (float_of_Z 2) t)).

Definition glow (f fps : Z) : float :=
  PrimFloat.mul (true_div 1 2) (ease (true_div (f + 1) fps)).

Definition pulse (p : Z) : float :=
  PrimFloat.add (true_div 6 10)
    (PrimFloat.mul (true_div 9 10)
       (PrimFloat.sub (float_of_Z 1)
          (PrimFloat.mul
             (PrimFloat.abs (PrimFloat.sub (true_div p 5) (true_div 1 2)))
             (float_of_Z 2)))).

End Primitive.

(** ** The rest of [app.py] *)

(** *** [draw_frame]: what is decided for each bar *)

(** The four bar colours, by the names of the constants. *)
Inductive Colour := UNCHECKED | CHECKED | CURRENT | FOUND.

Definition colour_code (c : Colour) : string :=
  match c with
  | UNCHECKED => "#177bd8"
  | CHECKED => "#6b7280"
  | CURRENT => "#f5c542"
  | FOUND => "#42f57b"
  end.

(** The [if i == found_index ... elif ... else] chain that picks [base]
    for bar [i]. *)
Definition base (im : Image) (i : Z) : Colour :=
  if bool_decide (i = found_index im) then FOUND
  else if bool_decide (i = current_index im) then CURRENT
  else if bool_decide (i ∈ checked_indices im) then CHECKED
  else UNCHECKED.

(** [if i == current_index or i == found_index]: the bar gets glow layers. *)
Definition has_glow (im : Image) (i : Z) : bool :=
  bool_decide (i = current_index im) || bool_decide (i = found_index im).

Definition glow_layers : Z := 5.

Section Glow.

Variable rnd : Q -> Q.

(** [alpha] and [expand] of glow layer [g], for [g] in [range(glow_layers)]. *)
Definition glow_alpha (glow_strength : Q) (g : Z) : Q :=
  fmul rnd
    (fmul rnd (lit rnd (5 # 100)) (fsub rnd (of_int rnd 1) (true_div rnd g glow_layers)))
    (fadd rnd (fmul rnd (lit rnd (9 # 10)) glow_strength) (lit rnd (1 # 10))).

Definition glow_expand (glow_strength : Q) (g : Z) : Q :=
  fadd rnd
    (fadd rnd (lit rnd (1 # 100)) (fmul rnd (of_int rnd g) (lit rnd (2 # 100))))
    (fmul rnd glow_strength (lit rnd (5 # 100))).

End Glow.

(** *** [pick_random_from_list] *)

(** What the function returns: one of its two messages or an element of
    the list; [PickIndexError] stands for the exception of [arr[k]] when
    [k] is not an index of [arr]. *)
Inductive pick_result :=
  | PickText (s : string)
  | PickValue (v : Z)
  | PickIndexError.

(** [randrange n] is the number that [random.randrange(n)] returns. *)
Definition pick_random_from_list (randrange : nat -> nat) (arr : arr_arg) : pick_result :=
  match arr_value arr with
  | None => PickText "Invalid list!"
  | Some arr =>
      match arr with
      | [] => PickText "List empty!"
      | _ =>
          match arr !! randrange (length arr) with
          | Some v => PickValue v
          | None => PickIndexError
          end
      end
  end.

(** ** Vocabulary of the further properties *)

(** The set [{0, ..., i - 1}]: the indices before [i]. *)
Definition checked_below (i : Z) : gset Z := list_to_set (seqZ 0 i).

(** The frames of an index [i] whose value [val] is not the target, and of
    an index that holds the target, when the indices before [i] are the
    checked ones. *)
Definition miss_frames (rnd : Q -> Q) (target n fps i val : Z) : list Frame :=
  (approach_frame rnd n fps i (checked_below i) <$> seqZ 0 fps)
  ++ [compare_frame rnd target n i val (checked_below i);
      advance_frame rnd n i (checked_below (i + 1))].

Definition hit_frames (rnd : Q -> Q) (target n fps i : Z) : list Frame :=
  (approach_frame rnd n fps i (checked_below i) <$> seqZ 0 fps)
  ++ compare_frame rnd target n i target (checked_below i)
  :: (found_frame rnd target n i (checked_below (i + 1)) <$> seqZ 0 6).

(** The five kinds of frame of a run that passes the validation. *)
Inductive frame_kind (rnd : Q -> Q) (arr : list Z) (target speed : Z) : Frame -> Prop :=
  | kind_start :
      frame_kind rnd arr target speed (start_frame rnd (Z.of_nat (length arr)) ∅)
  | kind_approach (i : nat) (k : Z) :
      (i < length arr)%nat -> 0 <= k < frames_per_step rnd speed ->
      frame_kind rnd arr target speed
        (approach_frame rnd (Z.of_nat (length arr)) (frames_per_step rnd speed)
           (Z.of_nat i) (checked_below (Z.of_nat i)) k)
  | kind_compare (i : nat) (val : Z) :
      arr !! i = Some val ->
      frame_kind rnd arr target speed
        (compare_frame rnd target (Z.of_nat (length arr)) (Z.of_nat i) val
           (checked_below (Z.of_nat i)))
  | kind_advance (i : nat) (val : Z) :
      arr !! i = Some val -> val <> target ->
      frame_kind rnd arr target speed
        (advance_frame rnd (Z.of_nat (length arr)) (Z.of_nat i)
           (checked_below (Z.of_nat i + 1)))
  | kind_found (i : nat) (p : Z) :
      arr !! i = Some target -> 0 <= p < 6 ->
      frame_kind rnd arr target speed
        (found_frame rnd target (Z.of_nat (length arr)) (Z.of_nat i)
           (checked_below (Z.of_nat i + 1)) p).

(** The panel of a frame shows [done] of [n] and the percentage
    [progress_html] computes from them. *)
Definition progress_ok (rnd : Q -> Q) (n : Z) (f : Frame) : Prop :=
  progress f = progress_html rnd (p_done (progress f)) n /\ 0 <= p_done (progress f) <= n.

Definition progress_le (f g : Frame) : Prop :=
  p_done (progress f) <= p_done (progress g).

(** The largest relative error of one rounding: 2^-53. *)
Definition half_ulp : Q := 1 # (2 ^ 53).

(** An approach sub-frame, of whatever index: step 2 with the progress
    computed from the index that is drawn as current. *)
Definition approach_like (f : Frame) : Prop :=
  at_step 2 f /\ current_index <$> image f = Some (p_done (progress f)).

Global Instance approach_like_dec f : Decision (approach_like f).
Proof. unfold approach_like. apply _. Defined.

(** The number of highlighted lines of the "Current Step" panel. *)
Definition highlighted (s : Steps) : nat :=
  (Nat.b2n (s1 s) + Nat.b2n (s2 s) + Nat.b2n (s3 s) + Nat.b2n (s4 s) + Nat.b2n (s5 s))%nat.

(** The steps that may follow each other in a run: 1 to 2; 2 to 2, 3 or 4;
    3 to 3; 4 to 2. *)
Definition step_follows (f g : Frame) : Prop :=
  (at_step 1 f /\ at_step 2 g) \/
  (at_step 2 f /\ (at_step 2 g \/ at_step 3 g \/ at_step 4 g)) \/
  (at_step 3 f /\ at_step 3 g) \/
  (at_step 4 f /\ at_step 2 g).

(** [R] holds between every two neighbours of the list. *)
Definition Adjacent {A} (R : A -> A -> Prop) (l : list A) : Prop :=
  forall (j : nat) x y, l !! j = Some x -> l !! S j = Some y -> R x y.

(** After an Advance frame comes a frame of the next index, the one the
    Advance frame names. *)
Definition advance_leads_to (f g : Frame) : Prop :=
  at_step 4 f ->
  exists imf img,
    image f = Some imf /\ image g = Some img /\
    current_index img = current_index imf + 1 /\
    status f = "No match, moving to index " +:+ pretty (current_index img).

(** ** The generator as an object: what one [next()] runs *)

(** Calling [linear_search_animated] makes a generator object and runs
    nothing; each [next()] on the object runs the body from where it is
    suspended to the following [yield], or to the end.  The sets that
    [set()] makes live on a heap that all generator objects share, and a
    generator holds a reference to its set, so that what one call does to
    the heap is there for every other call to see. *)

Abbreviation loc := positive (only parsing).

Abbreviation heap := (gmap loc (gset Z)) (only parsing).

(** The set a reference points to. *)
Definition deref (h : heap) (l : loc) : gset Z := default ∅ (h !! l).

(** The local variables of a call that passed the validation: [arr],
    [target], [n], [checked] and [frames_per_step]. *)
Record locals := {
  l_arr : list Z;
  l_target : Z;
  l_n : Z;
  l_checked : loc;
  l_fps : Z
}.

(** The [yield] at which the body is suspended, with the loop variables
    that are live there: [i] of the outer loop ([val] is [arr[i]]), [f] of
    the approach loop, [p] of the Found loop. *)
Inductive point :=
  | AtStart
  | AtApproach (i : nat) (f : Z)
  | AtCompare (i : nat)
  | AtFound (i : nat) (p : Z)
  | AtAdvance (i : nat)
  | AtEnd.

(** A generator object: made by the call and not yet started; suspended at
    one of the three [yield]s of the validation, each followed by
    [return]; suspended at a later [yield]; or finished. *)
Inductive gen :=
  | Created (arr : arr_arg) (target : option Z) (speed : Z)
  | Returning
  | Suspended (l : locals) (p : point)
  | Finished.

(** What a [next()] leaves and returns: the heap, the generator, and the
    yielded tuple, or [None] for [StopIteration]. *)
Definition outcome : Type := heap * gen * option Frame.

(** The approach loop [for f in range(frames_per_step)] from [f] on, and
    the Compare [yield] that follows it. *)
Definition approach_from (h : heap) (l : locals) (i : nat) (val f : Z) : outcome :=
  if bool_decide (f < l_fps l) then
    (h, Suspended l (AtApproach i f),
     Some (approach_frame b64 (l_n l) (l_fps l) (Z.of_nat i) (deref h (l_checked l)) f))
  else
    (h, Suspended l (AtCompare i),
     Some (compare_frame b64 (l_target l) (l_n l) (Z.of_nat i) val (deref h (l_checked l)))).

(** The loop [for i, val in enumerate(arr)] from [i] on, and the End
    [yield] after it. *)
Definition iterate_from (h : heap) (l : locals) (i : nat) : outcome :=
  match l_arr l !! i with
  | Some val => approach_from h l i val 0
  | None => (h, Suspended l AtEnd, Some (end_frame b64 (l_n l) (deref h (l_checked l))))
  end.

(** The loop [for p in range(6)] from [p] on, and the [return] after it. *)
Definition found_from (h : heap) (l : locals) (i : nat) (p : Z) : outcome :=
  if bool_decide (p < 6) then
    (h, Suspended l (AtFound i p),
     Some (found_frame b64 (l_target l) (l_n l) (Z.of_nat i) (deref h (l_checked l)) p))
  else (h, Finished, None).

(** One [next()].  [draw_frame] reads the set through the reference when
    it is called; [set()] takes a reference that is not in use;
    [checked.add(i)] writes through the reference. *)
Definition resume (h : heap) (g : gen) : outcome :=
  match g with
  | Created a target speed =>
      match arr_value a with
      | None =>
          (h, Returning,
           Some {| status := "Invalid list!"; image := None;
                   steps := format_steps 0; progress := progress_html b64 0 1 |})
      | Some arr =>
          match target with
          | None =>
              (h, Returning,
               Some {| status := "Pick a target number."; image := None;
                       steps := format_steps 0;
                       progress := progress_html b64 0 (Z.of_nat (length arr)) |})
          | Some target =>
              if bool_decide (target ∈ arr) then
                let n := Z.of_nat (length arr) in
                let checked := fresh (dom h) in
                let h := <[checked := ∅]> h in
                let l := {| l_arr := arr; l_target := target; l_n := n;
                            l_checked := checked;
                            l_fps := frames_per_step b64 speed |} in
                (h, Suspended l AtStart, Some (start_frame b64 n (deref h checked)))
              else
                (h, Returning,
                 Some {| status := pretty target +:+ " is NOT in the list.";
                         image := None; steps := format_steps 0;
                         progress := progress_html b64 0 (Z.of_nat (length arr)) |})
          end
      end
  | Returning => (h, Finished, None)
  | Suspended l p =>
      match p with
      | AtStart => iterate_from h l 0
      | AtApproach i f =>
          match l_arr l !! i with
          | Some val => approach_from h l i val (f + 1)
          | None => (h, Finished, None)
          end
      | AtCompare i =>
          match l_arr l !! i with
          | Some val =>
              let h := <[l_checked l := {[ Z.of_nat i ]} ∪ deref h (l_checked l)]> h in
              if bool_decide (val = l_target l) then found_from h l i 0
              else
                (h, Suspended l (AtAdvance i),
                 Some (advance_frame b64 (l_n l) (Z.of_nat i) (deref h (l_checked l))))
          | None => (h, Finished, None)
          end
      | AtFound i p => found_from h l i (p + 1)
      | AtAdvance i => iterate_from h l (S i)
      | AtEnd => (h, Finished, None)
      end
  | Finished => (h, Finished, None)
  end.

(** Several generator objects on one heap. *)
Record world := { w_heap : heap; w_gens : list gen }.

(** The world after the calls [cs]: a generator per call, none started.
    A call runs nothing of the body, so when it is made does not matter,
    and the calls come first; runs one after the other are the schedules
    that pull one generator to the end before they pull the next. *)
Definition calls (cs : list (arr_arg * option Z * Z)) : world :=
  {| w_heap := ∅; w_gens := (fun c => Created c.1.1 c.1.2 c.2) <$> cs |}.

(** The consumers pull in the order [sched]: each element is the number of
    the generator that gets the next [next()].  The result lists, per
    pull, the generator and what the pull returned. *)
Fixpoint run_schedule (w : world) (sched : list nat) : list (nat * option Frame) :=
  match sched with
  | [] => []
  | g :: sched =>
      match w_gens w !! g with
      | None => run_schedule w sched
      | Some st =>
          let '(h, st', o) := resume (w_heap w) st in
          (g, o) :: run_schedule {| w_heap := h; w_gens := <[g := st']> (w_gens w) |} sched
      end
  end.

(** What the consumer of generator [g] got, pull by pull, and the tuples
    among it. *)
Definition results (g : nat) (tr : list (nat * option Frame)) : list (option Frame) :=
  snd <$> filter (fun e => e.1 = g) tr.

Definition yields (g : nat) (tr : list (nat * option Frame)) : list Frame :=
  omap id (results g tr).

(** *** What a suspended generator still has to yield *)

(** The reference a generator holds. *)
Definition owned (g : gen) : option loc :=
  match g with
  | Suspended l _ => Some (l_checked l)
  | _ => None
  end.

(** No two generators hold the same reference, and no reference dangles. *)
Definition separated (w : world) : Prop :=
  forall g st l,
    w_gens w !! g = Some st -> owned st = Some l ->
    is_Some (w_heap w !! l) /\
    forall g' st', g' <> g -> w_gens w !! g' = Some st' -> owned st' <> Some l.

(** The frames of iteration [i] after its Compare frame, and of the
    iterations after it, when the set is [c] before [checked.add(i)]. *)
Definition after_compare (l : locals) (c : gset Z) (i : nat) (val : Z) : list Frame :=
  let c := {[ Z.of_nat i ]} ∪ c in
  if bool_decide (val = l_target l)
  then found_frame b64 (l_target l) (l_n l) (Z.of_nat i) c <$> seqZ 0 6
  else advance_frame b64 (l_n l) (Z.of_nat i) c
       :: search_loop b64 (l_target l) (l_n l) (l_fps l) c (Z.of_nat i + 1)
            (drop (S i) (l_arr l)).

(** The part of the sequence of [linear_search_animated] that lies after
    the point where the generator is suspended. *)
Definition remaining (h : heap) (g : gen) : list Frame :=
  match g with
  | Created a target speed => linear_search_animated b64 a target speed
  | Returning => []
  | Suspended l p =>
      let c := deref h (l_checked l) in
      match p with
      | AtStart => search_loop b64 (l_target l) (l_n l) (l_fps l) c 0 (l_arr l)
      | AtApproach i f =>
          match l_arr l !! i with
          | Some val =>
              (approach_frame b64 (l_n l) (l_fps l) (Z.of_nat i) c
                 <$> seqZ (f + 1) (l_fps l - (f + 1)))
              ++ compare_frame b64 (l_target l) (l_n l) (Z.of_nat i) val c
              :: after_compare l c i val
          | None => []
          end
      | AtCompare i =>
          match l_arr l !! i with
          | Some val => after_compare l c i val
          | None => []
          end
      | AtFound i p =>
          found_frame b64 (l_target l) (l_n l) (Z.of_nat i) c <$> seqZ (p + 1) (6 - (p + 1))
      | AtAdvance i =>
          search_loop b64 (l_target l) (l_n l) (l_fps l) c (Z.of_nat i + 1)
            (drop (S i) (l_arr l))
      | AtEnd => []
      end
  | Finished => []
  end.

(** The first [k] results of pulling a generator that has [rest] to yield:
    the tuples of [rest], then [StopIteration]. *)
Definition pulled (k : nat) (rest : list Frame) : list (option Frame) :=
  (Some <$> take k rest) ++ replicate (k - length rest) None.

(** * Properties *)

(** ** Facts about the rounding *)

Lemma b64_ext (q r : Q) : (q == r)%Q -> b64 q = b64 r.
Proof.
  intros H. unfold b64. by rewrite (Qred_complete q r H).
Qed.

Lemma b64_0 : b64 0 = 0%Q.
Proof. reflexivity. Qed.

Lemma b64_1 : b64 1 = 1%Q.
Proof. vm_compute. reflexivity. Qed.

Lemma b64_100 : b64 100 = 100%Q.
Proof. vm_compute. reflexivity. Qed.

(** *** Round-half-even on the integers *)

Lemma rne_floor_or_succ (x : Q) : rne x = Qfloor x \/ rne x = Qfloor x + 1.
Proof.
  unfold rne. destruct (Qcompare _ _); [destruct (Z.even _)|..]; auto.
Qed.

Lemma rne_Z (z : Z) : rne (inject_Z z) = z.
Proof.
  unfold rne. rewrite Qfloor_Z.
  destruct (Qcompare_spec (inject_Z z - inject_Z z) (1 # 2)); [exfalso; lra | done | exfalso; lra].
Qed.

Lemma rne_mono (x y : Q) : (x <= y)%Q -> rne x <= rne y.
Proof.
  intros Hxy. pose proof (Qfloor_resp_le x y Hxy) as Hf.
  destruct (Z.eq_dec (Qfloor x) (Qfloor y)) as [E|NE].
  - unfold rne. rewrite <- E.
    destruct (Qcompare_spec (x - inject_Z (Qfloor x)) (1 # 2));
      destruct (Qcompare_spec (y - inject_Z (Qfloor x)) (1 # 2));
      try (destruct (Z.even (Qfloor x))); try lia; exfalso; lra.
  - destruct (rne_floor_or_succ x) as [-> | ->], (rne_floor_or_succ y) as [-> | ->]; lia.
Qed.

Lemma rne_opp (x : Q) : rne (- x) = - rne x.
Proof.
  pose proof (Qfloor_le x) as L1. pose proof (Qlt_floor x) as L2.
  pose proof (Qfloor_le (- x)) as L3. pose proof (Qlt_floor (- x)) as L4.
  rewrite inject_Z_plus in L2, L4. change (inject_Z 1) with 1%Q in *.
  destruct (Qeq_dec x (inject_Z (Qfloor x))) as [E|NE].
  - assert (rne x = Qfloor x) as ->.
    { unfold rne.
      destruct (Qcompare_spec (x - inject_Z (Qfloor x)) (1 # 2)); [exfalso; lra | done | exfalso; lra]. }
    assert (- x == inject_Z (- Qfloor x))%Q as E' by (rewrite inject_Z_opp; lra).
    unfold rne. rewrite (Qfloor_comp _ _ E'), Qfloor_Z.
    destruct (Qcompare_spec (- x - inject_Z (- Qfloor x)) (1 # 2)); [exfalso; lra | done | exfalso; lra].
  - assert (Qfloor (- x) = - Qfloor x - 1) as Ef.
    { assert (Qfloor (- x) < - Qfloor x) as A.
      { rewrite Zlt_Qlt, inject_Z_opp. apply Qle_lteq in L1 as [?|?]; [lra|]. destruct NE. lra. }
      assert (- Qfloor x + (-2) < Qfloor (- x)) as B.
      { rewrite Zlt_Qlt, inject_Z_plus, inject_Z_opp. change (inject_Z (-2)) with (-2 # 1)%Q. lra. }
      lia. }
    unfold rne. rewrite Ef.
    assert (Z.even (- Qfloor x - 1) = negb (Z.even (Qfloor x))) as Ev.
    { replace (- Qfloor x - 1) with (- (Z.succ (Qfloor x))) by lia.
      by rewrite Z.even_opp, Z.even_succ, <- Z.negb_even. }
    rewrite Ev.
    assert (inject_Z (- Qfloor x - 1) == - inject_Z (Qfloor x) - 1)%Q as Ei.
    { unfold Z.sub. rewrite inject_Z_plus, inject_Z_opp. reflexivity. }
    destruct (Qcompare_spec (x - inject_Z (Qfloor x)) (1 # 2));
      destruct (Qcompare_spec (- x - inject_Z (- Qfloor x - 1)) (1 # 2));
      try (destruct (Z.even (Qfloor x)); simpl); try lia; exfalso;
      rewrite Ei in *; lra.
Qed.

Lemma pow2_pos (e : Z) : (0 < pow2 e)%Q.
Proof. by apply Qpower_0_lt. Qed.

Lemma pow2_add (a b : Z) : (pow2 (a + b) == pow2 a * pow2 b)%Q.
Proof. by apply Qpower_plus. Qed.

Lemma pow2_opp (a : Z) : (pow2 (- a) == / pow2 a)%Q.
Proof. apply Qpower_opp. Qed.

Lemma pow2_Z (n : Z) : 0 <= n -> (pow2 n == inject_Z (2 ^ n))%Q.
Proof. intros H. by rewrite Zpower_Qpower. Qed.

Lemma pow2_le (a b : Z) : a <= b -> (pow2 a <= pow2 b)%Q.
Proof. intros H. by apply Qpower_le_compat_l. Qed.

Lemma pow2_lt_inv (a b : Z) : (pow2 a < pow2 b)%Q -> a < b.
Proof. intros H. by apply (Qpower_lt_compat_l_inv 2). Qed.

Lemma ilog2_spec (q : Q) :
  (0 < q)%Q -> (pow2 (ilog2 q) <= q)%Q /\ (q < pow2 (ilog2 q + 1))%Q.
Proof.
  intros Hq. unfold ilog2. destruct (Qle_bool 1 q) eqn:H1.
  - apply Qle_bool_iff in H1.
    assert (1 <= Qfloor q) as Hf.
    { change 1 with (Qfloor 1). by apply Qfloor_resp_le. }
    destruct (Z.log2_spec (Qfloor q)) as [Hlo Hhi]; [lia|].
    pose proof (Z.log2_nonneg (Qfloor q)) as Hnn.
    pose proof (Qfloor_le q) as L1. pose proof (Qlt_floor q) as L2.
    rewrite !pow2_Z by lia. split.
    + rewrite Zle_Qle in Hlo. lra.
    + assert (Qfloor q + 1 <= 2 ^ (Z.log2 (Qfloor q) + 1)) as Hhi' by (unfold Z.succ in Hhi; lia).
      rewrite Zle_Qle in Hhi'. lra.
  - assert (q < 1)%Q as Hlt.
    { apply Qnot_le_lt. intros H%Qle_bool_iff. congruence. }
    assert (0 < / q)%Q as Hinv by by apply Qinv_lt_0_compat.
    assert (1 < / q)%Q as Hinv1.
    { apply Qlt_shift_inv_l; [done | lra]. }
    pose proof (Qle_ceiling (/ q)) as L1. pose proof (Qceiling_lt (/ q)) as L2.
    assert (1 < Qceiling (/ q)) as Hc.
    { rewrite Zlt_Qlt. change (inject_Z 1) with 1%Q. lra. }
    destruct (Z.log2_up_spec (Qceiling (/ q)) Hc) as [Hlo Hhi].
    pose proof (Z.log2_up_pos (Qceiling (/ q)) Hc) as Hpos.
    set (U := Z.log2_up (Qceiling (/ q))) in *.
    split.
    + rewrite pow2_opp. apply Qle_shift_inv_r; [apply pow2_pos|].
      rewrite pow2_Z by lia. rewrite Zle_Qle in Hhi.
      assert (q * / q == 1)%Q as E by (field; lra).
      assert (q * / q <= q * inject_Z (2 ^ U))%Q; [|lra].
      apply Qmult_le_l; lra.
    + replace (- U + 1) with (- (U - 1)) by lia.
      rewrite pow2_opp, pow2_Z by lia.
      assert (2 ^ Z.pred U <= Qceiling (/ q) - 1) as Hlo' by lia.
      replace (Z.pred U) with (U - 1) in Hlo' by lia.
      rewrite Zle_Qle in Hlo'.
      assert (0 < inject_Z (2 ^ (U - 1)))%Q as Hp.
      { rewrite <- pow2_Z by lia. apply pow2_pos. }
      apply Qlt_shift_inv_l; [done|].
      assert (q * / q == 1)%Q as E by (field; lra).
      assert (q * inject_Z (2 ^ (U - 1)) < q * / q)%Q; [|lra].
      apply Qmult_lt_l; lra.
Qed.

Lemma ilog2_mono (x y : Q) : (0 < x)%Q -> (x <= y)%Q -> ilog2 x <= ilog2 y.
Proof.
  intros Hx Hxy.
  destruct (ilog2_spec x Hx) as [Lx _].
  destruct (ilog2_spec y) as [_ Uy]; [lra|].
  assert (ilog2 x < ilog2 y + 1); [|lia].
  apply pow2_lt_inv. lra.
Qed.

Lemma rne_ext (x y : Q) : (x == y)%Q -> rne x = rne y.
Proof.
  intros E. unfold rne. rewrite (Qfloor_comp _ _ E).
  assert (Qcompare (x - inject_Z (Qfloor y)) (1 # 2)
          = Qcompare (y - inject_Z (Qfloor y)) (1 # 2)) as ->; [|done].
  apply Qcompare_comp; [by rewrite E | done].
Qed.

Lemma Qabs_nonneg_eq (x : Q) : (0 <= x)%Q -> Qabs x = x.
Proof.
  destruct x as [n d]. unfold Qle; simpl. intros H.
  unfold Qabs. f_equal. apply Z.abs_eq. lia.
Qed.

Lemma Qabs_opp_eq (x : Q) : Qabs (- x) = Qabs x.
Proof. destruct x as [n d]. unfold Qabs, Qopp; simpl. f_equal. apply Z.abs_opp. Qed.

Lemma b64_rounded (q : Q) : (b64 q == rounded (Qred q))%Q.
Proof.
  unfold b64, rounded. destruct (Qnum (Qred q)) eqn:E.
  - assert (Qred q == 0)%Q as E0 by (unfold Qeq; rewrite E; reflexivity).
    rewrite (rne_ext _ (inject_Z 0)).
    + rewrite (rne_Z 0). ring.
    + change (inject_Z 0) with 0%Q. unfold Qdiv.
      transitivity (0 * / pow2 (ulp_exp (Qred q)))%Q; [|ring].
      apply Qmult_comp; [exact E0 | reflexivity].
  - unfold round_at. apply Qred_correct.
  - unfold round_at. apply Qred_correct.
Qed.

Lemma rounded_opp (x : Q) : (rounded (- x) == - rounded x)%Q.
Proof.
  unfold rounded, ulp_exp. rewrite Qabs_opp_eq.
  set (e := Z.max _ _).
  rewrite (rne_ext (- x / pow2 e) (- (x / pow2 e))).
  - rewrite rne_opp, inject_Z_opp. ring.
  - unfold Qdiv. ring.
Qed.

Lemma rounded_nonneg (x : Q) : (0 <= x)%Q -> (0 <= rounded x)%Q.
Proof.
  intros H. unfold rounded. set (e := ulp_exp x).
  pose proof (pow2_pos e) as Hp.
  apply Qmult_le_0_compat; [|lra].
  change 0%Q with (inject_Z 0). rewrite <- Zle_Qle.
  rewrite <- (rne_Z 0). apply rne_mono. change (inject_Z 0) with 0%Q.
  apply Qle_shift_div_l; [done | lra].
Qed.

Lemma rounded_pos_mono (x y : Q) : (0 < x)%Q -> (x <= y)%Q -> (rounded x <= rounded y)%Q.
Proof.
  intros Hx Hxy. assert (0 < y)%Q as Hy by lra.
  unfold rounded, ulp_exp.
  rewrite !Qabs_nonneg_eq by lra.
  pose proof (ilog2_mono x y Hx Hxy) as Hlog.
  destruct (ilog2_spec x Hx) as [_ Ux]. destruct (ilog2_spec y Hy) as [Ly _].
  set (ex := Z.max (ilog2 x - 52) (-1074)). set (ey := Z.max (ilog2 y - 52) (-1074)).
  pose proof (pow2_pos ex) as Pex. pose proof (pow2_pos ey) as Pey.
  destruct (Z.eq_dec ex ey) as [E|NE].
  - rewrite <- E. apply Qmult_le_compat_r; [|lra].
    rewrite <- Zle_Qle. apply rne_mono.
    unfold Qdiv. apply Qmult_le_compat_r; [done|].
    apply Qlt_le_weak, Qinv_lt_0_compat, Pex.
  - assert (ex < ey) as Hlt by lia.
    assert (ey = ilog2 y - 52) as Ey by lia.
    assert (ilog2 x + 1 <= ex + 53) as Hx53 by lia.
    apply Qle_trans with (pow2 (ey + 52)).
    + apply Qle_trans with (inject_Z (2 ^ 53) * pow2 ex)%Q.
      * apply Qmult_le_compat_r; [|lra].
        rewrite <- Zle_Qle. rewrite <- (rne_Z (2 ^ 53)). apply rne_mono.
        apply Qle_shift_div_r; [done|].
        rewrite <- pow2_Z by lia. rewrite <- pow2_add.
        pose proof (pow2_le _ _ Hx53). replace (53 + ex) with (ex + 53) by lia. lra.
      * rewrite <- pow2_Z by lia. rewrite <- pow2_add. apply pow2_le. lia.
    + apply Qle_trans with (inject_Z (2 ^ 52) * pow2 ey)%Q.
      * rewrite <- pow2_Z by lia. rewrite <- pow2_add.
        replace (52 + ey) with (ey + 52) by lia. lra.
      * apply Qmult_le_compat_r; [|lra].
        rewrite <- Zle_Qle. rewrite <- (rne_Z (2 ^ 52)). apply rne_mono.
        apply Qle_shift_div_l; [done|].
        rewrite <- pow2_Z by lia. rewrite <- pow2_add.
        replace (52 + ey) with (ilog2 y) by lia. done.
Qed.

Lemma rounded_mono (x y : Q) : (x <= y)%Q -> (rounded x <= rounded y)%Q.
Proof.
  intros Hxy.
  destruct (Qlt_le_dec 0 x) as [Hx|Hx]; [by apply rounded_pos_mono|].
  destruct (Qlt_le_dec y 0) as [Hy|Hy].
  - pose proof (rounded_pos_mono (- y) (- x) ltac:(lra) ltac:(lra)) as H.
    rewrite !rounded_opp in H. lra.
  - pose proof (rounded_nonneg y Hy) as Hry.
    pose proof (rounded_nonneg (- x) ltac:(lra)) as Hrx. rewrite rounded_opp in Hrx. lra.
Qed.

Lemma b64_mono (x y : Q) : (x <= y)%Q -> (b64 x <= b64 y)%Q.
Proof.
  intros H. rewrite !b64_rounded. apply rounded_mono. by rewrite !Qred_correct.
Qed.

Lemma int_of_float_mono (x y : Q) : (x <= y)%Q -> int_of_float x <= int_of_float y.
Proof.
  intros H. unfold int_of_float.
  destruct (Qle_bool 0 x) eqn:Hx, (Qle_bool 0 y) eqn:Hy.
  - by apply Qfloor_resp_le.
  - apply Qle_bool_iff in Hx. assert (~ (0 <= y)%Q) by (rewrite <- Qle_bool_iff; congruence). lra.
  - assert (~ (0 <= x)%Q) as Hn by (rewrite <- Qle_bool_iff; congruence).
    apply Qle_bool_iff in Hy.
    apply Z.le_trans with 0.
    + change 0 with (Qceiling 0). apply Qceiling_resp_le. lra.
    + change 0 with (Qfloor 0). by apply Qfloor_resp_le.
  - by apply Qceiling_resp_le.
Qed.

(** *** The error of one rounding *)

Lemma rne_error (x : Q) :
  (inject_Z (rne x) - x <= 1 # 2)%Q /\ (x - inject_Z (rne x) <= 1 # 2)%Q.
Proof.
  pose proof (Qfloor_le x) as L1. pose proof (Qlt_floor x) as L2.
  rewrite inject_Z_plus in L2. change (inject_Z 1) with 1%Q in L2.
  unfold rne.
  destruct (Qcompare_spec (x - inject_Z (Qfloor x)) (1 # 2)) as [E|E|E];
    [destruct (Z.even (Qfloor x))|..];
    rewrite ?inject_Z_plus; change (inject_Z 1) with 1%Q; split; lra.
Qed.

Lemma ilog2_lower (q : Q) (a : Z) : (0 < q)%Q -> (pow2 a <= q)%Q -> a <= ilog2 q.
Proof.
  intros Hq Ha. destruct (ilog2_spec q Hq) as [_ Hu].
  assert (a < ilog2 q + 1); [|lia]. apply pow2_lt_inv. lra.
Qed.

Lemma rounded_rel_error (q : Q) :
  (pow2 (-1022) <= q)%Q ->
  (q * (1 - half_ulp) <= rounded q)%Q /\ (rounded q <= q * (1 + half_ulp))%Q.
Proof.
  intros Hn. pose proof (pow2_pos (-1022)) as Hp. assert (0 < q)%Q as Hq by lra.
  pose proof (ilog2_lower q (-1022) Hq Hn) as Hlog.
  destruct (ilog2_spec q Hq) as [Hlo _].
  unfold rounded, ulp_exp. rewrite Qabs_nonneg_eq by lra.
  rewrite Z.max_l by lia. set (e := ilog2 q - 52).
  pose proof (pow2_pos e) as Pe.
  assert (pow2 e * inject_Z (2 ^ 52) <= q)%Q as Hulp.
  { rewrite <- pow2_Z by lia. rewrite <- pow2_add. by replace (e + 52) with (ilog2 q) by lia. }
  destruct (rne_error (q / pow2 e)) as [E1 E2].
  set (r := inject_Z (rne (q / pow2 e))) in *.
  assert (q / pow2 e * pow2 e == q)%Q as Eq by (field; lra).
  apply (Qmult_le_compat_r _ _ (pow2 e)) in E1; [|lra].
  apply (Qmult_le_compat_r _ _ (pow2 e)) in E2; [|lra].
  assert ((r - q / pow2 e) * pow2 e == r * pow2 e - q)%Q as R1 by (rewrite <- Eq at 2; ring).
  assert ((q / pow2 e - r) * pow2 e == q - r * pow2 e)%Q as R2 by (rewrite <- Eq at 2; ring).
  rewrite R1 in E1. rewrite R2 in E2.
  change (inject_Z (2 ^ 52)) with (4503599627370496 # 1)%Q in Hulp.
  unfold half_ulp. change (1 # 2 ^ 53)%Q with (1 # 9007199254740992)%Q.
  split; lra.
Qed.

Lemma b64_rel_error (q : Q) :
  (pow2 (-1022) <= q)%Q ->
  (q * (1 - half_ulp) <= b64 q)%Q /\ (b64 q <= q * (1 + half_ulp))%Q.
Proof.
  intros Hn. rewrite b64_rounded.
  pose proof (Qred_correct q) as E.
  destruct (rounded_rel_error (Qred q)) as [H1 H2]; [lra|].
  unfold half_ulp in *. change (1 # 2 ^ 53)%Q with (1 # 9007199254740992)%Q in *.
  split; lra.
Qed.

Lemma b64_nonneg (q : Q) : (0 <= q)%Q -> (0 <= b64 q)%Q.
Proof. intros H. rewrite <- b64_0. by apply b64_mono. Qed.

Lemma fmul_b64_mono (a a' b b' : Q) :
  (0 <= a <= a')%Q -> (0 <= b <= b')%Q -> (0 <= fmul b64 a b <= fmul b64 a' b')%Q.
Proof.
  intros Ha Hb. unfold fmul. split.
  - apply b64_nonneg, Qmult_le_0_compat; lra.
  - by apply b64_mono, Qmult_le_compat_nonneg.
Qed.

Lemma fadd_b64_mono (a a' b b' : Q) :
  (a <= a')%Q -> (b <= b')%Q -> (fadd b64 a b <= fadd b64 a' b')%Q.
Proof. intros Ha Hb. unfold fadd. apply b64_mono. lra. Qed.

Lemma fsub_b64_mono (a a' b b' : Q) :
  (a <= a')%Q -> (b' <= b)%Q -> (fsub b64 a b <= fsub b64 a' b')%Q.
Proof. intros Ha Hb. unfold fsub. apply b64_mono. lra. Qed.

(** *** Binades, absolute error and the numbers that round to themselves *)

Lemma ilog2_unique (q : Q) (a : Z) :
  (pow2 a <= q)%Q -> (q < pow2 (a + 1))%Q -> ilog2 q = a.
Proof.
  intros Hlo Hhi. pose proof (pow2_pos a) as Hp.
  assert (0 < q)%Q as Hq by lra.
  pose proof (ilog2_lower q a Hq Hlo).
  destruct (ilog2_spec q Hq) as [Hl _].
  assert (ilog2 q < a + 1); [|lia]. apply pow2_lt_inv. lra.
Qed.

Lemma ulp_exp_binade (q : Q) (a : Z) :
  -1022 <= a -> (pow2 a <= q)%Q -> (q < pow2 (a + 1))%Q -> ulp_exp q = a - 52.
Proof.
  intros Ha Hlo Hhi. pose proof (pow2_pos a) as Hp. unfold ulp_exp.
  rewrite Qabs_nonneg_eq by lra. rewrite (ilog2_unique q a Hlo Hhi). lia.
Qed.

(** Below 2^k the spacing of the binary64 numbers is at most 2^(k-53), so
    a rounding moves a number of [0, 2^k) by at most 2^(k-54). *)
Lemma rounded_abs_error (q : Q) (k : Z) :
  -1021 <= k -> (0 < q)%Q -> (q < pow2 k)%Q ->
  (q - pow2 (k - 54) <= rounded q)%Q /\ (rounded q <= q + pow2 (k - 54))%Q.
Proof.
  intros Hk Hq H1. destruct (ilog2_spec q Hq) as [Hlo _].
  assert (ilog2 q < k) as Hlog by (apply pow2_lt_inv; lra).
  unfold rounded. set (e := ulp_exp q).
  assert (e <= k - 53) as He.
  { unfold e, ulp_exp. rewrite Qabs_nonneg_eq by lra. lia. }
  pose proof (pow2_pos e) as Pe. pose proof (pow2_le e (k - 53) He) as Ple.
  assert (pow2 (k - 53) == 2 * pow2 (k - 54))%Q as Ehalf.
  { change 2%Q with (pow2 1). rewrite <- pow2_add. by replace (1 + (k - 54)) with (k - 53) by lia. }
  destruct (rne_error (q / pow2 e)) as [E1 E2].
  set (r := inject_Z (rne (q / pow2 e))) in *.
  assert (q / pow2 e * pow2 e == q)%Q as Eq by (field; lra).
  apply (Qmult_le_compat_r _ _ (pow2 e)) in E1; [|lra].
  apply (Qmult_le_compat_r _ _ (pow2 e)) in E2; [|lra].
  assert ((r - q / pow2 e) * pow2 e == r * pow2 e - q)%Q as R1 by (rewrite <- Eq at 2; ring).
  assert ((q / pow2 e - r) * pow2 e == q - r * pow2 e)%Q as R2 by (rewrite <- Eq at 2; ring).
  rewrite R1 in E1. rewrite R2 in E2.
  set (P := pow2 e) in *. set (U := pow2 (k - 53)) in *. set (V := pow2 (k - 54)) in *.
  clearbody e r P U V. split; lra.
Qed.

Lemma b64_abs_error (q : Q) (k : Z) :
  -1021 <= k -> (0 <= q)%Q -> (q < pow2 k)%Q ->
  (q - pow2 (k - 54) <= b64 q)%Q /\ (b64 q <= q + pow2 (k - 54))%Q.
Proof.
  intros Hk H0 H1. pose proof (pow2_pos (k - 54)) as Pk.
  destruct (Qlt_le_dec 0 q) as [Hpos|Hz].
  - rewrite b64_rounded. pose proof (Qred_correct q) as E.
    destruct (rounded_abs_error (Qred q) k Hk) as [L U]; [lra | lra |].
    split; lra.
  - assert (q == 0)%Q as E by lra. rewrite (b64_ext q 0 E), b64_0. split; lra.
Qed.

Lemma b64_abs_error_unit (q : Q) :
  (0 <= q <= 1)%Q ->
  (q - (1 # 2 ^ 54) <= b64 q)%Q /\ (b64 q <= q + (1 # 2 ^ 54))%Q.
Proof.
  intros [H0 H1]. change (1 # 2 ^ 54)%Q with (pow2 (0 - 54)).
  destruct (Qlt_le_dec q 1) as [Hlt|Hge].
  - by apply b64_abs_error.
  - assert (q == 1)%Q as E by lra. rewrite (b64_ext q 1 E), b64_1.
    change (pow2 (0 - 54)) with (1 # 18014398509481984)%Q. split; lra.
Qed.

(** A multiple of the unit in its own last place is not moved. *)
Lemma rounded_on_grid (q : Q) (z e : Z) :
  ulp_exp q <= e -> (q == inject_Z z * pow2 e)%Q -> (rounded q == q)%Q.
Proof.
  intros He Hq. unfold rounded. set (u := ulp_exp q) in *.
  pose proof (pow2_pos u) as Pu.
  assert (pow2 e == inject_Z (2 ^ (e - u)) * pow2 u)%Q as Epow.
  { rewrite <- pow2_Z by lia. rewrite <- pow2_add. by replace (e - u + u) with e by lia. }
  assert (q / pow2 u == inject_Z (z * 2 ^ (e - u)))%Q as Ediv.
  { rewrite inject_Z_mult, Hq, Epow. field. lra. }
  rewrite (rne_ext _ _ Ediv), rne_Z, inject_Z_mult, Hq, Epow. ring.
Qed.

Lemma b64_on_grid (q : Q) (z a : Z) :
  -1022 <= a -> (pow2 a <= q)%Q -> (q < pow2 (a + 1))%Q ->
  (q == inject_Z z * pow2 (a - 52))%Q -> (b64 q == q)%Q.
Proof.
  intros Ha Hlo Hhi Hq. rewrite b64_rounded.
  pose proof (Qred_correct q) as E.
  rewrite (rounded_on_grid (Qred q) z (a - 52)); [done| |by rewrite E].
  rewrite (ulp_exp_binade (Qred q) a); [lia|done|lra|lra].
Qed.

(** A binary64 number of the binade [2^a, 2^(a+1)) is a multiple of
    2^(a-52). *)
Lemma b64_fixed_grid (t : Q) (a : Z) :
  -1022 <= a -> b64 t = t -> (pow2 a <= t)%Q -> (t < pow2 (a + 1))%Q ->
  exists z, (t == inject_Z z * pow2 (a - 52))%Q.
Proof.
  intros Ha Hfix Hlo Hhi. pose proof (Qred_correct t) as E.
  exists (rne (Qred t / pow2 (a - 52))).
  rewrite <- Hfix at 1. rewrite b64_rounded. unfold rounded.
  rewrite (ulp_exp_binade (Qred t) a); [done|done|lra|lra].
Qed.

(** ** Checking a range of integers by evaluation *)

Lemma forallb_seqZ (P : Z -> bool) (lo n : Z) :
  forallb P (seqZ lo n) = true -> forall z, lo <= z < lo + n -> P z = true.
Proof.
  intros H z Hz. rewrite forallb_forall in H. apply H.
  apply list_elem_of_In, elem_of_seqZ. lia.
Qed.

Lemma decide_seqZ (P : Z -> Prop) `{!forall z, Decision (P z)} (lo n : Z) :
  forallb (fun z => bool_decide (P z)) (seqZ lo n) = true ->
  forall z, lo <= z < lo + n -> P z.
Proof.
  intros Hall z Hz. eapply bool_decide_eq_true_1, (forallb_seqZ _ lo n Hall z Hz).
Qed.

(** ** [b64] against the primitive floats *)

(** On the operands of the program, [b64] and the primitive binary64
    operations give the same numbers. *)

Lemma progress_pct_b64_primitive (done total : Z) :
  0 <= done <= total -> total <= 100 ->
  Primitive.progress_pct done total = Some (progress_pct b64 done total).
Proof.
  intros Hd Ht.
  refine (decide_seqZ
            (fun d => Primitive.progress_pct d total = Some (progress_pct b64 d total))
            0 (total + 1) _ done _); [|lia].
  refine (decide_seqZ
            (fun t => forallb
               (fun d => bool_decide
                  (Primitive.progress_pct d t = Some (progress_pct b64 d t)))
               (seqZ 0 (t + 1)) = true) 0 101 _ total _); [|lia].
  by vm_compute.
Qed.

Lemma frames_per_step_b64_primitive (speed : Z) :
  -50 <= speed <= 50 ->
  Primitive.frames_per_step speed = Some (frames_per_step b64 speed).
Proof.
  intros Hs.
  refine (decide_seqZ
            (fun s => Primitive.frames_per_step s = Some (frames_per_step b64 s))
            (-50) 101 _ speed _); [|lia].
  by vm_compute.
Qed.

Lemma glow_b64_primitive (fps f : Z) :
  1 <= fps <= 16 -> 0 <= f < fps ->
  float_value (Primitive.glow f fps)
  = Some (fmul b64 (lit b64 (1 # 2)) (ease b64 (true_div b64 (f + 1) fps))).
Proof.
  intros Hfps Hf.
  refine (decide_seqZ
            (fun k => float_value (Primitive.glow k fps)
                      = Some (fmul b64 (lit b64 (1 # 2))
                                (ease b64 (true_div b64 (k + 1) fps))))
            0 fps _ f _); [|lia].
  refine (decide_seqZ
            (fun n => forallb
               (fun k => bool_decide
                  (float_value (Primitive.glow k n)
                   = Some (fmul b64 (lit b64 (1 # 2))
                             (ease b64 (true_div b64 (k + 1) n)))))
               (seqZ 0 n) = true) 1 16 _ fps _); [|lia].
  by vm_compute.
Qed.

(** Integers around 2^53, where every second one is a tie between two
    binary64 numbers. *)
Lemma of_int_b64_primitive (z : Z) :
  2 ^ 53 - 8 <= z < 2 ^ 53 + 40 ->
  float_value (float_of_Z z) = Some (of_int b64 z) /\
  float_value (float_of_Z (- z)) = Some (of_int b64 (- z)).
Proof.
  intros Hz.
  refine (decide_seqZ
            (fun k => float_value (float_of_Z k) = Some (of_int b64 k) /\
                      float_value (float_of_Z (- k)) = Some (of_int b64 (- k)))
            (2 ^ 53 - 8) 48 _ z _); [|lia].
  by vm_compute.
Qed.

Lemma pulse_b64_primitive (p : Z) :
  0 <= p < 6 -> float_value (Primitive.pulse p) = Some (pulse b64 p).
Proof.
  intros Hp.
  refine (decide_seqZ (fun k => float_value (Primitive.pulse k) = Some (pulse b64 k))
            0 6 _ p _); [|lia].
  by vm_compute.
Qed.

(** ** [progress_html] *)

Lemma progress_pct_b64_none (total : Z) : progress_pct b64 0 total = 0.
Proof.
  unfold progress_pct, fmul, true_div, of_int.
  rewrite (b64_ext (inject_Z 0 / inject_Z (Z.max 1 total)) 0).
  - rewrite b64_0, (b64_ext (0 * b64 (inject_Z 100)) 0); [done | ring].
  - unfold Qdiv. ring.
Qed.

Lemma progress_pct_b64_all (total : Z) : 1 <= total -> progress_pct b64 total total = 100.
Proof.
  intros H. unfold progress_pct, fmul, true_div, of_int.
  rewrite Z.max_r by done.
  rewrite (b64_ext (inject_Z total / inject_Z total) 1).
  - rewrite b64_1. change (inject_Z 100) with 100%Q. rewrite b64_100.
    rewrite (b64_ext (1 * 100) 100) by ring. by rewrite b64_100.
  - field. intros E. apply (inject_Z_injective total 0) in E. lia.
Qed.

(** The divisor of [done / max(1, total)] is never zero. *)
Lemma progress_divisor_nonzero (total : Z) : Z.max 1 total <> 0.
Proof. lia. Qed.

(** The percentage does not decrease when [done] grows. *)
Lemma progress_pct_b64_mono (done1 done2 total : Z) :
  done1 <= done2 -> progress_pct b64 done1 total <= progress_pct b64 done2 total.
Proof.
  intros H. unfold progress_pct, fmul, true_div, of_int.
  apply int_of_float_mono, b64_mono.
  change (inject_Z 100) with 100%Q. rewrite b64_100.
  apply Qmult_le_compat_r; [|done].
  apply b64_mono. unfold Qdiv. apply Qmult_le_compat_r; [by rewrite <- Zle_Qle|].
  apply Qinv_le_0_compat. change 0%Q with (inject_Z 0). rewrite <- Zle_Qle. lia.
Qed.

(** The percentage of a part of the whole lies between 0 and 100. *)
Lemma progress_pct_b64_range (done total : Z) :
  0 <= done <= total -> 0 <= progress_pct b64 done total <= 100.
Proof.
  intros [H0 H1]. split.
  - rewrite <- (progress_pct_b64_none total). by apply progress_pct_b64_mono.
  - destruct (decide (total = 0)) as [->|Hne].
    + assert (done = 0) as -> by lia. by rewrite progress_pct_b64_none.
    + rewrite <- (progress_pct_b64_all total) by lia. by apply progress_pct_b64_mono.
Qed.

(** X1. Up to 49 elements, which covers every list size of the slider (5
    to 20), the percentage is the floor of the exact one. *)
Lemma progress_pct_b64_floor_small (done total : Z) :
  0 <= done <= total -> total <= 49 ->
  progress_pct b64 done total = progress_floor done total.
Proof.
  intros Hd Ht.
  refine (decide_seqZ (fun d => progress_pct b64 d total = progress_floor d total)
            0 (total + 1) _ done _); [|lia].
  refine (decide_seqZ
            (fun t => forallb
               (fun d => bool_decide (progress_pct b64 d t = progress_floor d t))
               (seqZ 0 (t + 1)) = true) 0 50 _ total _); [|lia].
  by vm_compute.
Qed.

(** ** The loop, for any rounding *)

Lemma StronglySorted_lookup_lt {A} (R : relation A) (l : list A) :
  StronglySorted R l ->
  forall (j k : nat) x y, (j < k)%nat -> l !! j = Some x -> l !! k = Some y -> R x y.
Proof.
  induction 1 as [|a l Hl IH Ha]; intros j k x y Hjk Hj Hk; [done|].
  destruct k as [|k]; [lia|]. destruct j as [|j]; simpl in *.
  - injection Hj as <-. rewrite Forall_forall in Ha.
    apply Ha. by eapply list_elem_of_lookup_2.
  - eapply IH; [|done..]. lia.
Qed.

Lemma StronglySorted_fmap_any {A B} (R : relation B) (f : A -> B) (l : list A) :
  (forall x y, R (f x) (f y)) -> StronglySorted R (f <$> l).
Proof.
  intros HR. induction l as [|a l IH]; simpl; constructor; [done|].
  apply Forall_fmap, Forall_forall. intros y _. apply HR.
Qed.

Lemma length_filter_all {A} (P : A -> Prop) `{!forall x, Decision (P x)} (l : list A) :
  Forall P l -> length (filter P l) = length l.
Proof.
  induction 1 as [|x l Hx Hl IH]; [done|].
  rewrite filter_cons_True by done. simpl. by rewrite IH.
Qed.

Lemma length_filter_none {A} (P : A -> Prop) `{!forall x, Decision (P x)} (l : list A) :
  Forall (fun x => ~ P x) l -> length (filter P l) = 0%nat.
Proof.
  induction 1 as [|x l Hx Hl IH]; [done|].
  by rewrite filter_cons_False.
Qed.

Section Sequencer.

Variable rnd : Q -> Q.
Variables target n fps : Z.

Abbreviation loop := (search_loop rnd target n fps).

(** Every frame of the loop started at index [i] with the set [checked]
    shows at least [checked], and no index below [i]. *)
Lemma search_loop_from (rest : list Z) : forall checked i,
  Forall (fun f => forall im, image f = Some im ->
            checked ⊆ checked_indices im /\
            (0 <= current_index im -> i <= current_index im))
         (loop checked i rest).
Proof.
  induction rest as [|val rest IH]; intros checked i; cbn [search_loop].
  - constructor; [|done]. intros im [= <-]; simpl. split; [done | lia].
  - apply Forall_app. split.
    { apply Forall_fmap, Forall_forall. intros f _ im [= <-]; simpl. split; [done|lia]. }
    constructor. { intros im [= <-]; simpl. split; [done|lia]. }
    case_bool_decide.
    + apply Forall_fmap, Forall_forall. intros p _ im [= <-]; simpl.
      split; [set_solver | lia].
    + constructor. { intros im [= <-]; simpl. split; [set_solver|lia]. }
      eapply Forall_impl; [apply IH|]. intros f Hf im Him.
      pose proof (Hf im Him) as [Hc Hi]. split; [|lia].
      etrans; [apply union_subseteq_r | exact Hc].
Qed.

(** The frames of the loop are in [frame_le] order. *)
Lemma search_loop_sorted (rest : list Z) : forall checked i,
  StronglySorted frame_le (loop checked i rest).
Proof.
  induction rest as [|val rest IH]; intros checked i; cbn [search_loop].
  - repeat constructor.
  - assert (forall f, f ∈ approach_frame rnd n fps i checked <$> seqZ 0 fps ->
              exists g, image f = Some (draw_frame i (-1) checked g)) as Happ.
    { intros f (x & -> & _)%list_elem_of_fmap. by eexists. }
    assert (forall f, f ∈ found_frame rnd target n i ({[i]} ∪ checked) <$> seqZ 0 6 ->
              exists g, image f = Some (draw_frame i i ({[i]} ∪ checked) g)) as Hfound.
    { intros f (x & -> & _)%list_elem_of_fmap. by eexists. }
    pose proof (search_loop_from rest ({[i]} ∪ checked) (i + 1)) as Hrest.
    rewrite Forall_forall in Hrest.
    assert (forall f c g, image f = Some (draw_frame i (-1) c g) -> c ⊆ {[i]} ∪ checked ->
              Forall (frame_le f)
                (if bool_decide (val = target)
                 then found_frame rnd target n i ({[i]} ∪ checked) <$> seqZ 0 6
                 else advance_frame rnd n i ({[i]} ∪ checked)
                      :: loop ({[i]} ∪ checked) (i + 1) rest)) as Htail.
    { intros f c g Hf Hc. case_bool_decide.
      - apply Forall_forall. intros x (g' & Hx)%Hfound a b Ha Hb.
        rewrite Hf in Ha. rewrite Hx in Hb. simplify_eq; simpl. split; [done|lia].
      - constructor.
        + intros a b Ha [= <-]. rewrite Hf in Ha. simplify_eq; simpl. split; [done|lia].
        + apply Forall_forall. intros x Hx a b Ha Hb. rewrite Hf in Ha.
          simplify_eq; simpl. pose proof (Hrest x Hx b Hb) as [H1 H2].
          split; [by etrans | lia]. }
    apply StronglySorted_app. split_and!.
    + intros f1 f2 (g1 & H1)%Happ Hf2. apply elem_of_cons in Hf2 as [->|Hf2].
      * intros a b Ha [= <-]. rewrite H1 in Ha. simplify_eq; simpl. split; [done|lia].
      * specialize (Htail f1 checked g1 H1 (union_subseteq_r _ _)).
        rewrite Forall_forall in Htail. by apply Htail.
    + apply StronglySorted_fmap_any. intros x y a b [= <-] [= <-]; simpl. split; [done|lia].
    + constructor.
      * case_bool_decide.
        -- apply StronglySorted_fmap_any. intros x y a b [= <-] [= <-]; simpl.
           split; [done|lia].
        -- constructor; [apply IH|].
           apply Forall_forall. intros x Hx a b [= <-] Hb; simpl.
           pose proof (Hrest x Hx b Hb) as [H1 H2]. split; [done | lia].
      * eapply Htail; [reflexivity | apply union_subseteq_r].
Qed.

(** One pass: at most [fps + 2] frames per element, and six at the end. *)
Lemma search_loop_length (rest : list Z) : forall checked i,
  (length (loop checked i rest) <= length rest * (Z.to_nat fps + 2) + 6)%nat.
Proof.
  induction rest as [|val rest IH]; intros checked i; cbn [search_loop length]; [lia|].
  rewrite length_app, length_fmap, length_seqZ. cbn [length].
  case_bool_decide; cbn [length].
  - rewrite length_fmap, length_seqZ. lia.
  - specialize (IH ({[i]} ∪ checked) (i + 1)). lia.
Qed.

(** Membership of the inspected and the found index in the drawn set. *)
Lemma search_loop_membership (rest : list Z) : forall checked i,
  0 <= i -> (forall x, x ∈ checked -> 0 <= x < i) ->
  Forall (fun f => forall im, image f = Some im ->
            (found_index im <> -1 -> found_index im ∈ checked_indices im) /\
            (current_index im ∈ checked_indices im <-> at_step 3 f \/ at_step 4 f))
         (loop checked i rest).
Proof.
  induction rest as [|val rest IH]; intros checked i Hi Hc; cbn [search_loop].
  - constructor; [|done]. intros im [= <-]; simpl. split; [done|]. split.
    + intros Hx%Hc. lia.
    + by intros [?|?].
  - apply Forall_app. split.
    { apply Forall_fmap, Forall_forall. intros f _ im [= <-]; simpl. split; [done|].
      split; [intros Hx%Hc; lia | by intros [?|?]]. }
    constructor.
    { intros im [= <-]; simpl. split; [done|].
      split; [intros Hx%Hc; lia | by intros [?|?]]. }
    case_bool_decide.
    + apply Forall_fmap, Forall_forall. intros p _ im [= <-]; simpl.
      split; [intros _; apply elem_of_union_l, elem_of_singleton_2; done|].
      split; [by left | intros _; apply elem_of_union_l, elem_of_singleton_2; done].
    + constructor.
      { intros im [= <-]; simpl. split; [done|].
        split; [by right | intros _; apply elem_of_union_l, elem_of_singleton_2; done]. }
      apply IH; [lia|]. intros x [->%elem_of_singleton|Hx%Hc]%elem_of_union; lia.
Qed.

(** When the target is in what is left of the array, the loop ends with
    the six pulses of its first occurrence. *)
Lemma search_loop_found (rest : list Z) : forall checked i,
  target ∈ rest ->
  exists (k : nat) (before : list Frame) (checked_k : gset Z),
    rest !! k = Some target /\
    (forall j, (j < k)%nat -> rest !! j <> Some target) /\
    loop checked i rest
      = before ++ (found_frame rnd target n (i + Z.of_nat k) checked_k <$> seqZ 0 6) /\
    (forall x, x ∈ checked_k -> x ∈ checked \/ i <= x <= i + Z.of_nat k) /\
    Forall (fun f => ~ at_step 3 f /\
              forall im, image f = Some im ->
                found_index im = -1 /\ current_index im <= i + Z.of_nat k /\
                forall x, x ∈ checked_indices im -> x ∈ checked \/ i <= x <= i + Z.of_nat k)
           before.
Proof.
  induction rest as [|val rest IH]; intros checked i Hin; [by apply elem_of_nil in Hin|].
  cbn [search_loop]. case_bool_decide as Hval.
  - subst val. exists 0%nat, ((approach_frame rnd n fps i checked <$> seqZ 0 fps)
                 ++ [compare_frame rnd target n i target checked]), ({[i]} ∪ checked).
    split_and!.
    + done.
    + lia.
    + rewrite <- app_assoc. cbn [app]. by replace (i + Z.of_nat 0) with i by lia.
    + intros x [->%elem_of_singleton|Hx]%elem_of_union; [lia | by left].
    + apply Forall_app. split.
      * apply Forall_fmap, Forall_forall. intros f _. split; [done|].
        intros im [= <-]; simpl. split_and!; [done | lia | by left].
      * constructor; [|done]. split; [done|].
        intros im [= <-]; simpl. split_and!; [done | lia | by left].
  - apply elem_of_cons in Hin as [->|Hin]; [done|].
    destruct (IH ({[i]} ∪ checked) (i + 1) Hin)
      as (k & before & checked_k & Hk & Hmin & Heq & Hck & Hbefore).
    exists (S k), ((approach_frame rnd n fps i checked <$> seqZ 0 fps)
                 ++ compare_frame rnd target n i val checked
                 :: advance_frame rnd n i ({[i]} ∪ checked) :: before), checked_k.
    split_and!.
    + done.
    + intros [|j] Hj; simpl; [congruence | apply Hmin; lia].
    + rewrite Heq, <- app_assoc, <- !app_comm_cons.
      by replace (i + 1 + Z.of_nat k) with (i + Z.of_nat (S k)) by lia.
    + intros x [[->%elem_of_singleton|Hx]%elem_of_union|Hx]%Hck; [right|by left|right]; lia.
    + apply Forall_app. split.
      * apply Forall_fmap, Forall_forall. intros f _. split; [done|].
        intros im [= <-]; simpl. split_and!; [done | lia | by left].
      * constructor.
        { split; [done|]. intros im [= <-]; simpl. split_and!; [done | lia | by left]. }
        constructor.
        { split; [done|]. intros im [= <-]; simpl. split_and!; [done | lia |].
          intros x [->%elem_of_singleton|Hx]%elem_of_union; [right; lia | by left]. }
        eapply Forall_impl; [exact Hbefore|]. intros f [Hs Hf]. split; [done|].
        intros im Him. destruct (Hf im Him) as (H1 & H2 & H3). split_and!; [done | lia |].
        intros x [[->%elem_of_singleton|Hx]%elem_of_union|Hx]%H3; [right|by left|right]; lia.
Qed.

(** Every index up to the first occurrence of the target gets exactly
    [fps] approach sub-frames ([range(frames_per_step)]). *)
Lemma search_loop_approach_count (rest : list Z) : forall checked i (k : nat) j,
  0 <= i ->
  rest !! k = Some target ->
  (forall j', (j' < k)%nat -> rest !! j' <> Some target) ->
  i <= j <= i + Z.of_nat k ->
  length (filter (is_approach j) (loop checked i rest)) = Z.to_nat fps.
Proof.
  induction rest as [|val rest IH]; intros checked i k j Hi Hk Hmin Hj; [done|].
  assert (forall c, ~ is_approach j (compare_frame rnd target n i val c)) as Hcmp.
  { intros c (_ & Hd & Hc). simpl in *. simplify_eq. lia. }
  assert (forall c, Forall (is_approach i) (approach_frame rnd n fps i c <$> seqZ 0 fps))
    as Hyes.
  { intros c. apply Forall_fmap, Forall_forall. by intros f _. }
  assert (forall c, j <> i ->
            Forall (fun f => ~ is_approach j f) (approach_frame rnd n fps i c <$> seqZ 0 fps))
    as Hno.
  { intros c Hne. apply Forall_fmap, Forall_forall. intros f _ (_ & Hd & _). by simpl in Hd. }
  cbn [search_loop]. rewrite filter_app, length_app, filter_cons_False by apply Hcmp.
  destruct k as [|k]; simpl in Hk.
  - injection Hk as ->. assert (j = i) as -> by lia.
    rewrite bool_decide_eq_true_2 by done.
    rewrite length_filter_all, length_fmap, length_seqZ by apply Hyes.
    rewrite length_filter_none; [lia|].
    apply Forall_fmap, Forall_forall. by intros p _ [? _].
  - rewrite bool_decide_eq_false_2; [|intros ->; by apply (Hmin 0%nat); [lia|]].
    rewrite filter_cons_False by (by intros [? _]).
    destruct (decide (j = i)) as [->|Hne].
    + rewrite length_filter_all, length_fmap, length_seqZ by apply Hyes.
      rewrite length_filter_none; [lia|].
      eapply Forall_impl; [apply search_loop_from|].
      intros f Hf (_ & _ & Hc). destruct (image f) as [im|] eqn:Him; [|done].
      injection Hc as Hc. destruct (Hf im Him) as [_ Hlo]. lia.
    + rewrite length_filter_none by by apply Hno.
      apply (IH _ (i + 1) k); [lia | done | | lia].
      intros j' Hj'. apply (Hmin (S j')). lia.
Qed.

(** The loop never inspects an index outside the array. *)
Lemma search_loop_in_range (rest : list Z) : forall checked i,
  0 <= i ->
  Forall (fun f => forall im, image f = Some im ->
            -1 <= current_index im < i + Z.of_nat (length rest))
         (loop checked i rest).
Proof.
  induction rest as [|val rest IH]; intros checked i Hi; cbn [search_loop length].
  - constructor; [|done]. intros im [= <-]; simpl. lia.
  - apply Forall_app. split.
    { apply Forall_fmap, Forall_forall. intros f _ im [= <-]; simpl. lia. }
    constructor. { intros im [= <-]; simpl. lia. }
    case_bool_decide.
    + apply Forall_fmap, Forall_forall. intros p _ im [= <-]; simpl. lia.
    + constructor. { intros im [= <-]; simpl. lia. }
      eapply Forall_impl; [apply (IH _ (i + 1)); lia|].
      intros f Hf im Him. specialize (Hf im Him). lia.
Qed.

End Sequencer.

(** ** The generator as CPython runs it *)

Lemma linear_search_animated_text (rnd : Q -> Q) (l : list Z) :
  linear_search_animated rnd (Str (Some l)) = linear_search_animated rnd (Arr l).
Proof. reflexivity. Qed.

Lemma linear_search_animated_present (rnd : Q -> Q) (arr : list Z) (target speed : Z) :
  target ∈ arr ->
  linear_search_animated rnd (Arr arr) (Some target) speed
  = start_frame rnd (Z.of_nat (length arr)) ∅
    :: search_loop rnd target (Z.of_nat (length arr)) (frames_per_step rnd speed) ∅ 0 arr.
Proof.
  intros Hin. unfold linear_search_animated; cbn [arr_value].
  by rewrite bool_decide_eq_true_2.
Qed.

(** Whatever the input, the frames that carry an image are the start frame
    followed by the frames of the loop. *)
Lemma linear_search_animated_cases (rnd : Q -> Q) (a : arr_arg) (target : option Z)
    (speed : Z) :
  (exists f, linear_search_animated rnd a target speed = [f] /\ image f = None) \/
  (exists arr t, arr_value a = Some arr /\ target = Some t /\ t ∈ arr /\
     linear_search_animated rnd a target speed
     = start_frame rnd (Z.of_nat (length arr)) ∅
       :: search_loop rnd t (Z.of_nat (length arr)) (frames_per_step rnd speed) ∅ 0 arr).
Proof.
  unfold linear_search_animated.
  destruct (arr_value a) as [arr|]; [|left; by eexists].
  destruct target as [t|]; [|left; by eexists].
  case_bool_decide; [right | left; by eexists].
  by exists arr, t.
Qed.

(** ** Generator objects on a shared heap *)

Lemma deref_insert (h : heap) (l : loc) (c : gset Z) : deref (<[l := c]> h) l = c.
Proof. unfold deref. by rewrite lookup_insert_eq. Qed.

Lemma seqZ_head (m n : Z) : 0 < n -> seqZ m n = m :: seqZ (m + 1) (n - 1).
Proof. intros Hn. by rewrite seqZ_cons by lia. Qed.

Lemma seqZ_none (m n : Z) : n <= 0 -> seqZ m n = [].
Proof. intros Hn. unfold seqZ. by replace (Z.to_nat n) with 0%nat by lia. Qed.

(** The loop at index [i], unfolded once. *)
Lemma search_loop_at (l : locals) (c : gset Z) (i : nat) :
  search_loop b64 (l_target l) (l_n l) (l_fps l) c (Z.of_nat i) (drop i (l_arr l))
  = match l_arr l !! i with
    | Some val =>
        (approach_frame b64 (l_n l) (l_fps l) (Z.of_nat i) c <$> seqZ 0 (l_fps l))
        ++ compare_frame b64 (l_target l) (l_n l) (Z.of_nat i) val c
        :: after_compare l c i val
    | None => [end_frame b64 (l_n l) c]
    end.
Proof.
  destruct (l_arr l !! i) as [val|] eqn:Hi.
  - rewrite (drop_S _ _ _ Hi). cbn [search_loop]. unfold after_compare. cbv zeta.
    by destruct (bool_decide (val = l_target l)).
  - by rewrite drop_ge by (by apply lookup_ge_None).
Qed.

(** A [next()] returns the head of what was left to yield, and leaves the
    tail to yield. *)
Lemma approach_from_remaining (h : heap) (l : locals) (i : nat) (val f : Z) :
  l_arr l !! i = Some val ->
  exists h' g' x,
    approach_from h l i val f = (h', g', Some x) /\ h' = h /\
    owned g' = Some (l_checked l) /\
    (approach_frame b64 (l_n l) (l_fps l) (Z.of_nat i) (deref h (l_checked l))
       <$> seqZ f (l_fps l - f))
    ++ compare_frame b64 (l_target l) (l_n l) (Z.of_nat i) val (deref h (l_checked l))
    :: after_compare l (deref h (l_checked l)) i val
    = x :: remaining h' g'.
Proof.
  intros Hi. unfold approach_from. case_bool_decide as Hf.
  - eexists _, _, _. split_and!; [done..|].
    rewrite seqZ_head by lia. cbn [fmap list_fmap app remaining]. rewrite Hi.
    by replace (l_fps l - f - 1) with (l_fps l - (f + 1)) by lia.
  - eexists _, _, _. split_and!; [done..|].
    rewrite seqZ_none by lia. cbn [fmap list_fmap app remaining]. by rewrite Hi.
Qed.

Lemma iterate_from_remaining (h : heap) (l : locals) (i : nat) :
  exists h' g' x,
    iterate_from h l i = (h', g', Some x) /\ h' = h /\
    owned g' = Some (l_checked l) /\
    search_loop b64 (l_target l) (l_n l) (l_fps l) (deref h (l_checked l))
      (Z.of_nat i) (drop i (l_arr l))
    = x :: remaining h' g'.
Proof.
  rewrite search_loop_at. unfold iterate_from.
  destruct (l_arr l !! i) as [val|] eqn:Hi.
  - destruct (approach_from_remaining h l i val 0 Hi) as (h' & g' & x & E & Hh & Ho & R).
    exists h', g', x. split_and!; [done..|]. rewrite <- R. by rewrite Z.sub_0_r.
  - by eexists _, _, _.
Qed.

Lemma found_from_remaining (h : heap) (l : locals) (i : nat) (p : Z) :
  exists g' o,
    found_from h l i p = (h, g', o) /\
    (forall l', owned g' = Some l' -> l' = l_checked l) /\
    found_frame b64 (l_target l) (l_n l) (Z.of_nat i) (deref h (l_checked l))
      <$> seqZ p (6 - p)
    = match o with Some x => x :: remaining h g' | None => [] end /\
    (o = None -> remaining h g' = []).
Proof.
  unfold found_from. case_bool_decide as Hp.
  - eexists _, _. split_and!; [done| |..].
    + by intros l' [= <-].
    + rewrite seqZ_head by lia. cbn [fmap list_fmap remaining].
      by replace (6 - p - 1) with (6 - (p + 1)) by lia.
    + done.
  - eexists _, _. split_and!; [done|done| |done].
    by rewrite seqZ_none by lia.
Qed.

(** What one [next()] does to the generator and to the heap: the frame it
    returns is the head of what was left, the tail is left; it writes to
    the generator's own set only, or to a reference that was not in use;
    and the reference the generator holds afterwards is the one it held
    or that new one. *)
Lemma resume_spec (h : heap) (g : gen) :
  exists h' g' o,
    resume h g = (h', g', o) /\
    remaining h g = match o with Some x => x :: remaining h' g' | None => [] end /\
    (o = None -> remaining h' g' = []) /\
    (forall l', is_Some (h !! l') -> owned g <> Some l' -> h' !! l' = h !! l') /\
    (forall l', is_Some (h !! l') -> is_Some (h' !! l')) /\
    (forall l', owned g' = Some l' ->
       owned g = Some l' \/ (h !! l' = None /\ is_Some (h' !! l'))).
Proof.
  destruct g as [a target speed| |l p|]; cbn [resume].
  - destruct (arr_value a) as [arr|] eqn:Ha.
    + destruct target as [target|].
      * case_bool_decide as Hin.
        -- eexists _, _, _. split; [done|]. split_and!.
           ++ cbn [remaining]. unfold linear_search_animated. rewrite Ha.
              rewrite bool_decide_eq_true_2 by done. cbv zeta.
              cbn [l_arr l_target l_n l_fps l_checked]. by rewrite deref_insert.
           ++ done.
           ++ intros l' Hl' _. rewrite lookup_insert_ne; [done|].
              intros <-. apply (is_fresh (dom h)). by apply elem_of_dom.
           ++ intros l' Hl'. destruct (decide (fresh (dom h) = l')) as [<-|?].
              ** by rewrite lookup_insert_eq.
              ** by rewrite lookup_insert_ne.
           ++ intros l' [= <-]. cbn [l_checked]. right.
              split; [|by rewrite lookup_insert_eq].
              apply not_elem_of_dom, is_fresh.
        -- eexists _, _, _. split; [done|]. split_and!; try done.
           cbn [remaining]. unfold linear_search_animated. rewrite Ha.
           by rewrite bool_decide_eq_false_2 by done.
      * eexists _, _, _. split; [done|]. split_and!; try done.
        cbn [remaining]. unfold linear_search_animated. by rewrite Ha.
    + eexists _, _, _. split; [done|]. split_and!; try done.
      cbn [remaining]. unfold linear_search_animated. by rewrite Ha.
  - eexists _, _, _. split; [done|]. by split_and!.
  - destruct p as [|i f|i|i p|i|].
    + destruct (iterate_from_remaining h l 0) as (h' & g' & x & E & -> & Ho & R).
      exists h, g', (Some x). split; [done|]. split_and!.
      * cbv iota. rewrite <- R. cbn [remaining]. by rewrite drop_0.
      * done.
      * done.
      * done.
      * intros l' Hl'. left. by rewrite <- Hl', Ho.
    + destruct (l_arr l !! i) as [val|] eqn:Hi.
      * destruct (approach_from_remaining h l i val (f + 1) Hi)
          as (h' & g' & x & E & -> & Ho & R).
        exists h, g', (Some x). split; [done|]. split_and!.
        -- cbv iota. rewrite <- R. cbn [remaining]. by rewrite Hi.
        -- done.
        -- done.
        -- done.
        -- intros l' Hl'. left. by rewrite <- Hl', Ho.
      * eexists _, _, _. split; [done|]. split_and!; [|done..].
        cbn [remaining]. by rewrite Hi.
    + destruct (l_arr l !! i) as [val|] eqn:Hi.
      * set (h2 := <[l_checked l := {[ Z.of_nat i ]} ∪ deref h (l_checked l)]> h).
        assert (deref h2 (l_checked l) = {[ Z.of_nat i ]} ∪ deref h (l_checked l)) as Hd
          by apply deref_insert.
        assert (forall l', is_Some (h !! l') ->
                  Some (l_checked l) <> Some l' -> h2 !! l' = h !! l') as Hframe.
        { intros l' _ Hne. unfold h2. rewrite lookup_insert_ne; [done|]. by intros <-. }
        assert (forall l', is_Some (h !! l') -> is_Some (h2 !! l')) as Hdom.
        { intros l' Hl'. unfold h2. destruct (decide (l_checked l = l')) as [<-|?].
          - by rewrite lookup_insert_eq.
          - by rewrite lookup_insert_ne. }
        cbv zeta. fold h2. case_bool_decide as Hv.
        -- destruct (found_from_remaining h2 l i 0) as (g' & o & E & Ho & R & Rn).
           exists h2, g', o. split; [done|]. split_and!.
           ++ rewrite <- R, Hd. cbn [remaining]. rewrite Hi. unfold after_compare. cbv zeta.
              rewrite bool_decide_eq_true_2 by done. by rewrite Z.sub_0_r.
           ++ done.
           ++ done.
           ++ done.
           ++ intros l' Hl'. left. cbn [owned]. by rewrite (Ho l' Hl').
        -- exists h2, (Suspended l (AtAdvance i)),
             (Some (advance_frame b64 (l_n l) (Z.of_nat i) (deref h2 (l_checked l)))).
           split; [done|]. split_and!.
           ++ cbn [remaining]. rewrite Hi. unfold after_compare. cbv zeta.
              rewrite bool_decide_eq_false_2 by done. by rewrite Hd.
           ++ done.
           ++ done.
           ++ done.
           ++ intros l' Hl'. by left.
      * eexists _, _, _. split; [done|]. split_and!; [|done..].
        cbn [remaining]. by rewrite Hi.
    + destruct (found_from_remaining h l i (p + 1)) as (g' & o & E & Ho & R & Rn).
      exists h, g', o. split; [done|]. split_and!.
      * by rewrite <- R.
      * done.
      * done.
      * done.
      * intros l' Hl'. left. cbn [owned]. by rewrite (Ho l' Hl').
    + destruct (iterate_from_remaining h l (S i)) as (h' & g' & x & E & -> & Ho & R).
      exists h, g', (Some x). split; [done|]. split_and!.
      * cbv iota. rewrite <- R. cbn [remaining]. by rewrite Nat2Z.inj_succ, <- Z.add_1_r.
      * done.
      * done.
      * done.
      * intros l' Hl'. left. by rewrite <- Hl', Ho.
    + eexists _, _, _. split; [done|]. by split_and!.
  - eexists _, _, _. split; [done|]. by split_and!.
Qed.

(** What is left to yield depends on the heap through the generator's own
    set only. *)
Lemma remaining_agree (h h' : heap) (g : gen) :
  (forall l, owned g = Some l -> h' !! l = h !! l) -> remaining h' g = remaining h g.
Proof.
  intros Hl. destruct g as [| |l p|]; [done|done| |done].
  cbn [remaining]. unfold deref. by rewrite (Hl (l_checked l)).
Qed.

Lemma pulled_cons (k : nat) (x : Frame) (rest : list Frame) :
  pulled (S k) (x :: rest) = Some x :: pulled k rest.
Proof. done. Qed.

Lemma pulled_nil (k : nat) : pulled (S k) [] = None :: pulled k [].
Proof. unfold pulled. rewrite !take_nil. cbn [length]. by rewrite !Nat.sub_0_r. Qed.

Lemma omap_pulled (k : nat) (rest : list Frame) : omap id (pulled k rest) = take k rest.
Proof.
  unfold pulled. rewrite omap_app.
  assert (forall n, omap id (replicate n (@None Frame)) = []) as -> by (by induction n).
  rewrite app_nil_r. induction (take k rest) as [|x l IH]; [done|].
  cbn. by rewrite IH.
Qed.

Lemma pulled_stop (k : nat) (rest : list Frame) : None ∈ pulled k rest -> take k rest = rest.
Proof.
  unfold pulled. intros [H|H]%elem_of_app.
  - apply list_elem_of_fmap in H as (x & Hx & _). discriminate Hx.
  - destruct (k - length rest)%nat eqn:E; [by apply elem_of_nil in H|].
    apply take_ge. lia.
Qed.

Lemma results_cons (g g0 : nat) (o : option Frame) (tr : list (nat * option Frame)) :
  results g ((g0, o) :: tr) = if decide (g0 = g) then o :: results g tr else results g tr.
Proof.
  unfold results. rewrite filter_cons. cbn [fst].
  by destruct (decide (g0 = g)).
Qed.

(** A [next()] keeps the generators apart. *)
Lemma separated_step (w : world) (g : nat) (st st' : gen) (h' : heap) (o : option Frame) :
  separated w -> w_gens w !! g = Some st -> resume (w_heap w) st = (h', st', o) ->
  separated {| w_heap := h'; w_gens := <[g := st']> (w_gens w) |}.
Proof.
  intros Hsep Hg Hres.
  destruct (resume_spec (w_heap w) st) as (h2 & st2 & o2 & E & _ & _ & _ & Hdom & Hown).
  rewrite Hres in E. injection E as <- <- <-.
  assert (g < length (w_gens w))%nat as Hlen by by eapply lookup_lt_Some.
  intros g1 st1 l1 Hg1 Ho1. cbn [w_heap w_gens] in *.
  destruct (decide (g1 = g)) as [->|Hne].
  - rewrite list_lookup_insert_eq in Hg1 by done. injection Hg1 as <-.
    destruct (Hown l1 Ho1) as [Hold|[Hnone Hnew]].
    + destruct (Hsep g st l1 Hg Hold) as [Hin Hothers]. split; [by apply Hdom|].
      intros g' st'' Hg' Hl'. rewrite list_lookup_insert_ne in Hl' by done.
      by apply (Hothers g' st'').
    + split; [done|]. intros g' st'' Hg' Hl' Ho'.
      rewrite list_lookup_insert_ne in Hl' by done.
      destruct (Hsep g' st'' l1 Hl' Ho') as [[c Hc] _]. by rewrite Hnone in Hc.
  - rewrite list_lookup_insert_ne in Hg1 by done.
    destruct (Hsep g1 st1 l1 Hg1 Ho1) as [Hin Hothers]. split; [by apply Hdom|].
    intros g' st'' Hg' Hl'. destruct (decide (g' = g)) as [->|Hne'].
    + rewrite list_lookup_insert_eq in Hl' by done. injection Hl' as <-.
      intros Ho'. destruct (Hown l1 Ho') as [Hold|[Hnone _]].
      * by apply (Hothers g st).
      * destruct Hin as [c Hc]. by rewrite Hnone in Hc.
    + rewrite list_lookup_insert_ne in Hl' by done. by apply (Hothers g' st'').
Qed.

Lemma length_pulled (k : nat) (rest : list Frame) : length (pulled k rest) = k.
Proof. unfold pulled. rewrite length_app, length_fmap, length_take, length_replicate. lia. Qed.

(** Whatever the order of the pulls, each consumer gets the sequence of its
    own generator. *)
Lemma run_schedule_results (sched : list nat) : forall (w : world) (g : nat) (st : gen),
  separated w -> w_gens w !! g = Some st ->
  exists k, results g (run_schedule w sched) = pulled k (remaining (w_heap w) st).
Proof.
  induction sched as [|g0 sched IH]; intros w g st Hsep Hg; [by exists 0%nat|].
  cbn [run_schedule]. destruct (w_gens w !! g0) as [st0|] eqn:Hg0; [|by apply IH].
  destruct (resume_spec (w_heap w) st0) as (h' & st' & o & E & Hrem & Hnone & Hframe & _ & _).
  rewrite E. pose proof (separated_step w g0 st0 st' h' o Hsep Hg0 E) as Hsep'.
  assert (g0 < length (w_gens w))%nat as Hlen by by eapply lookup_lt_Some.
  set (w' := {| w_heap := h'; w_gens := <[g0 := st']> (w_gens w) |}) in *.
  rewrite results_cons. destruct (decide (g0 = g)) as [->|Hne].
  - rewrite Hg in Hg0. injection Hg0 as <-.
    destruct (IH w' g st' Hsep') as [k ->]; [by apply list_lookup_insert_eq|].
    exists (S k). unfold w'. cbn [w_heap]. rewrite Hrem. destruct o as [x|].
    + by rewrite pulled_cons.
    + by rewrite (Hnone eq_refl), pulled_nil.
  - destruct (IH w' g st Hsep') as [k ->];
      [unfold w'; cbn [w_gens]; by rewrite list_lookup_insert_ne|].
    exists k. unfold w'. cbn [w_heap]. f_equal.
    apply remaining_agree. intros l Hl.
    destruct (Hsep g st l Hg Hl) as [Hin Hothers].
    apply Hframe; [done|]. by apply (Hothers g0 st0).
Qed.

Lemma separated_calls (cs : list (arr_arg * option Z * Z)) : separated (calls cs).
Proof.
  intros g st l Hg Ho. cbn [calls w_gens] in Hg.
  apply list_lookup_fmap_Some in Hg as (c & -> & Hc). discriminate Ho.
Qed.

(** The consumer of a generator made by the call [(a, target, speed)] gets
    the sequence of [linear_search_animated] on these arguments, as far as
    it pulls, and [StopIteration] after it, whatever other generators
    there are and however the pulls are interleaved. *)
Lemma run_schedule_calls (cs : list (arr_arg * option Z * Z)) (sched : list nat)
    (g : nat) (a : arr_arg) (target : option Z) (speed : Z) :
  cs !! g = Some (a, target, speed) ->
  results g (run_schedule (calls cs) sched)
  = pulled (length (results g (run_schedule (calls cs) sched)))
      (linear_search_animated b64 a target speed).
Proof.
  intros Hg.
  assert (w_gens (calls cs) !! g = Some (Created a target speed)) as Hgen.
  { cbn [calls w_gens]. by rewrite list_lookup_fmap, Hg. }
  destruct (run_schedule_results sched (calls cs) g _ (separated_calls cs) Hgen) as [k Hk].
  rewrite Hk at 2. by rewrite length_pulled.
Qed.

(** * The claims *)

(** C1. For every array and every target present in it, the sequence ends
    with one Found phase of exactly six frames yielded with
    [format_steps(3)]; no earlier frame is a Found frame; the six frames
    show one index [i] as current and found, [arr[i] == target], their
    progress is 100; and no frame of the run inspects an index after [i]. *)
Theorem found_phase_of_present_target (arr : list Z) (target speed : Z) :
  target ∈ arr ->
  exists (i : nat) (before pulses : list Frame),
    linear_search_animated b64 (Arr arr) (Some target) speed = before ++ pulses /\
    length pulses = 6%nat /\
    arr !! i = Some target /\
    Forall (fun f => ~ at_step 3 f) before /\
    Forall (fun f => at_step 3 f /\ p_pct (progress f) = 100 /\
              exists im, image f = Some im /\
                current_index im = Z.of_nat i /\ found_index im = Z.of_nat i)
           pulses /\
    Forall (fun f => forall im, image f = Some im -> current_index im <= Z.of_nat i)
           (linear_search_animated b64 (Arr arr) (Some target) speed).
Proof.
  intros Hin. rewrite linear_search_animated_present by done.
  set (n := Z.of_nat (length arr)).
  assert (1 <= n) as Hn.
  { destruct arr; [by apply elem_of_nil in Hin | simpl in n; lia]. }
  destruct (search_loop_found b64 target n (frames_per_step b64 speed) arr ∅ 0 Hin)
    as (k & before & checked_k & Hk & _ & Heq & _ & Hbefore).
  rewrite Z.add_0_l in *.
  exists k, (start_frame b64 n ∅ :: before),
    (found_frame b64 target n (Z.of_nat k) checked_k <$> seqZ 0 6).
  rewrite Heq. split_and!.
  - done.
  - by rewrite length_fmap, length_seqZ.
  - done.
  - constructor; [done|]. eapply Forall_impl; [exact Hbefore|]. by intros f [? _].
  - apply Forall_fmap, Forall_forall. intros p _. split_and!; [done | | by eexists].
    by apply progress_pct_b64_all.
  - constructor. { intros im [= <-]; simpl. lia. }
    apply Forall_app. split.
    + eapply Forall_impl; [exact Hbefore|]. intros f [_ Hf] im Him.
      by destruct (Hf im Him) as (_ & ? & _).
    + apply Forall_fmap, Forall_forall. intros p _ im [= <-]; simpl. lia.
Qed.

Lemma found_phase_of_present_target_witness :
  exists (i : nat) (before pulses : list Frame),
    linear_search_animated b64 (Arr [3; 7; 9; 2]) (Some 9) 5 = before ++ pulses /\
    length pulses = 6%nat /\
    [3; 7; 9; 2] !! i = Some 9 /\
    Forall (fun f => ~ at_step 3 f) before /\
    Forall (fun f => at_step 3 f /\ p_pct (progress f) = 100 /\
              exists im, image f = Some im /\
                current_index im = Z.of_nat i /\ found_index im = Z.of_nat i)
           pulses /\
    Forall (fun f => forall im, image f = Some im -> current_index im <= Z.of_nat i)
           (linear_search_animated b64 (Arr [3; 7; 9; 2]) (Some 9) 5).
Proof.
  apply (found_phase_of_present_target [3; 7; 9; 2] 9 5).
  repeat constructor.
Defined.

(** ** The number of approach sub-frames *)

Lemma frames_per_step_b64_truncated (speed : Z) :
  1 <= speed <= 10 -> frames_per_step b64 speed = frames_per_step_truncated speed.
Proof.
  intros Hs.
  refine (decide_seqZ (fun s => frames_per_step b64 s = frames_per_step_truncated s)
            1 10 _ speed _); [|lia].
  by vm_compute.
Qed.

(** C2, as the code has it. For every speed in [1, 10] the frame count is
    [max(1, int(12 - (speed - 1) * 1.1))], the fraction being dropped, not
    rounded; and in a run that finds its target at index [k], every index
    [j <= k] gets exactly that many approach sub-frames. *)
Theorem approach_frames_per_index (arr : list Z) (target speed : Z) (k : nat) (j : Z) :
  1 <= speed <= 10 ->
  arr !! k = Some target ->
  (forall k', (k' < k)%nat -> arr !! k' <> Some target) ->
  0 <= j <= Z.of_nat k ->
  frames_per_step b64 speed = frames_per_step_truncated speed /\
  length (filter (is_approach j)
            (linear_search_animated b64 (Arr arr) (Some target) speed))
  = Z.to_nat (frames_per_step_truncated speed).
Proof.
  intros Hs Hk Hmin Hj. split; [by apply frames_per_step_b64_truncated|].
  rewrite linear_search_animated_present by by eapply list_elem_of_lookup_2.
  rewrite filter_cons_False by (by intros [? _]).
  rewrite <- frames_per_step_b64_truncated by done.
  apply (search_loop_approach_count b64 target _ _ arr ∅ 0 k j); [lia | done | done | lia].
Qed.

Lemma approach_frames_per_index_witness :
  frames_per_step b64 2 = frames_per_step_truncated 2 /\
  length (filter (is_approach 1)
            (linear_search_animated b64 (Arr [3; 7; 9; 2]) (Some 9) 2))
  = Z.to_nat (frames_per_step_truncated 2).
Proof.
  apply (approach_frames_per_index [3; 7; 9; 2] 9 2 2 1).
  - lia.
  - reflexivity.
  - intros [|[|k']] Hk'; [discriminate | discriminate | lia].
  - lia.
Defined.

(** C2, as the spec words it, fails at [speed = 2]: [12 - 1.1] is 10.9,
    which rounds to 11, and the run emits 10 approach sub-frames. *)
Lemma approach_frames_rounded_counterexample :
  ~ (forall speed, 1 <= speed <= 10 ->
       length (filter (is_approach 0)
                 (linear_search_animated b64 (Arr [5]) (Some 5) speed))
       = Z.to_nat (frames_per_step_rounded speed)).
Proof.
  intros H. specialize (H 2 ltac:(lia)). vm_compute in H. discriminate H.
Qed.

(** C3, as the code has it. In every frame of every run, a found index
    that is set is a member of the drawn checked set; the index under
    inspection is a member of the drawn checked set exactly in the Found
    and the Advance frames, which are drawn after [checked.add(i)], and is
    not a member in the Start, approach, comparison and End frames. *)
Theorem checked_membership_by_step (a : arr_arg) (target : option Z) (speed : Z)
    (f : Frame) (im : Image) :
  f ∈ linear_search_animated b64 a target speed ->
  image f = Some im ->
  (found_index im <> -1 -> found_index im ∈ checked_indices im) /\
  (current_index im ∈ checked_indices im <-> at_step 3 f \/ at_step 4 f).
Proof.
  intros Hf Him.
  destruct (linear_search_animated_cases b64 a target speed)
    as [(f0 & Heq & Hnone)|(arr & t & _ & _ & _ & Heq)]; rewrite Heq in Hf.
  - apply list_elem_of_singleton in Hf as ->. congruence.
  - apply elem_of_cons in Hf as [->|Hf].
    + injection Him as <-; simpl. split; [done|].
      split; [set_solver | by intros [?|?]].
    + pose proof (search_loop_membership b64 t (Z.of_nat (length arr))
                    (frames_per_step b64 speed) arr ∅ 0) as Hall.
      rewrite Forall_forall in Hall. apply Hall; [lia | set_solver | done | done].
Qed.

Lemma checked_membership_by_step_witness :
  (found_index (draw_frame 0 (-1) ∅ (lit b64 (8 # 10))) <> -1 ->
   found_index (draw_frame 0 (-1) ∅ (lit b64 (8 # 10)))
     ∈ checked_indices (draw_frame 0 (-1) ∅ (lit b64 (8 # 10)))) /\
  (current_index (draw_frame 0 (-1) ∅ (lit b64 (8 # 10)))
     ∈ checked_indices (draw_frame 0 (-1) ∅ (lit b64 (8 # 10)))
   <-> at_step 3 (compare_frame b64 5 1 0 5 ∅) \/ at_step 4 (compare_frame b64 5 1 0 5 ∅)).
Proof.
  apply (checked_membership_by_step (Arr [5]) (Some 5) 10
           (compare_frame b64 5 1 0 5 ∅) (draw_frame 0 (-1) ∅ (lit b64 (8 # 10)))).
  - apply (list_elem_of_lookup_2 _ 3%nat). vm_compute. reflexivity.
  - reflexivity.
Defined.

(** C3, as the spec words it, fails: with [arr = [5]], [target = 5] and
    [speed = 10] the fifth frame is a Found pulse drawn with
    [current_index = 0] and [checked = {0}]. *)
Lemma current_index_in_checked_counterexample :
  ~ (forall f im,
       f ∈ linear_search_animated b64 (Arr [5]) (Some 5) 10 ->
       image f = Some im ->
       (found_index im <> -1 -> found_index im ∈ checked_indices im) /\
       current_index im ∉ checked_indices im).
Proof.
  intros H.
  destruct (H (found_frame b64 5 1 0 {[0]} 0) (draw_frame 0 0 {[0]} (pulse b64 0)))
    as [_ Hnot].
  - apply (list_elem_of_lookup_2 _ 4%nat). vm_compute. reflexivity.
  - reflexivity.
  - apply Hnot. simpl. set_solver.
Qed.

(** C4. For every array and every target that is not in it, the generator
    yields one frame and stops: status "<target> is NOT in the list.", no
    image, [format_steps(0)] (no line of the panel active) and progress 0. *)
Theorem absent_target_single_frame (arr : list Z) (target speed : Z) :
  target ∉ arr ->
  linear_search_animated b64 (Arr arr) (Some target) speed
  = [ {| status := pretty target +:+ " is NOT in the list.";
         image := None;
         steps := {| s1 := false; s2 := false; s3 := false; s4 := false; s5 := false |};
         progress := {| p_pct := 0; p_done := 0; p_total := Z.of_nat (length arr) |} |} ].
Proof.
  intros Hnot. unfold linear_search_animated; cbn [arr_value].
  rewrite bool_decide_eq_false_2 by done.
  unfold progress_html. by rewrite progress_pct_b64_none.
Qed.

Lemma absent_target_single_frame_witness :
  linear_search_animated b64 (Arr [1; 2; 3]) (Some 99) 5
  = [ {| status := "99 is NOT in the list.";
         image := None;
         steps := {| s1 := false; s2 := false; s3 := false; s4 := false; s5 := false |};
         progress := {| p_pct := 0; p_done := 0; p_total := 3 |} |} ].
Proof.
  apply (absent_target_single_frame [1; 2; 3] 99 5).
  intros H. repeat (apply elem_of_cons in H as [H|H]; [discriminate H|]).
  by apply elem_of_nil in H.
Defined.

(** ** The percentage *)

(** C5 at [done = 29], [total = 50]: the quotient 0.58 is rounded down to
    the nearest binary64 number, its product with 100 rounds to
    57.99999999999999, and [int] drops the fraction; [floor(100 * 29 / 50)]
    is 58.  The primitive floats give 57 as well. *)
Theorem progress_pct_below_floor :
  progress_pct b64 29 50 = 57 /\
  progress_floor 29 50 = 58 /\
  Primitive.progress_pct 29 50 = Some 57.
Proof. by vm_compute. Qed.

(** The sequencer reaches that input: the comparison frame of index 28 in
    an array of 50 elements. *)
Lemma progress_pct_below_floor_in_run :
  exists f,
    linear_search_animated b64 (Arr (seqZ 1 50)) (Some 50) 10 !! 115%nat = Some f /\
    progress f = {| p_pct := 57; p_done := 29; p_total := 50 |}.
Proof. eexists. split; [by vm_compute | done]. Qed.

(** ** The easing expression *)

Lemma ease_exact_unfold (t : Q) : (ease exact t == t * t * (3 - 2 * t))%Q.
Proof. unfold ease, fmul, fsub, of_int, exact. reflexivity. Qed.

Lemma smoothstep_monotone (s t : Q) :
  (0 <= s -> s <= t -> t <= 1 -> s * s * (3 - 2 * s) <= t * t * (3 - 2 * t))%Q.
Proof.
  intros H0 Hst H1.
  assert (0 <= s * (1 - s))%Q as A1 by (apply Qmult_le_0_compat; lra).
  assert (0 <= t * (1 - t))%Q as A2 by (apply Qmult_le_0_compat; lra).
  assert (0 <= s * (1 - t))%Q as A3 by (apply Qmult_le_0_compat; lra).
  assert (0 <= t * (1 - s))%Q as A4 by (apply Qmult_le_0_compat; lra).
  apply Qle_minus_iff.
  assert (t * t * (3 - 2 * t) + - (s * s * (3 - 2 * s))
          == (t - s) * (2 * (s * (1 - s)) + 2 * (t * (1 - t)) + s * (1 - t) + t * (1 - s)))%Q
    as -> by ring.
  apply Qmult_le_0_compat; lra.
Qed.

Lemma ease_grid_ok_spec (rnd : Q -> Q) (fps f : Z) :
  ease_grid_ok rnd fps = true -> 0 <= f < fps ->
  (0 <= true_div rnd (f + 1) fps <= 1)%Q /\
  (0 <= ease rnd (true_div rnd (f + 1) fps) <= 1)%Q /\
  (f + 1 < fps ->
   (ease rnd (true_div rnd (f + 1) fps) <= ease rnd (true_div rnd (f + 2) fps))%Q).
Proof.
  intros Hgrid Hf. unfold ease_grid_ok in Hgrid.
  pose proof (forallb_seqZ _ 0 fps Hgrid f ltac:(lia)) as Hpoint.
  cbv beta zeta in Hpoint.
  apply andb_prop in Hpoint as [Hpoint Hnext].
  apply andb_prop in Hpoint as [Hpoint He1].
  apply andb_prop in Hpoint as [Hpoint He0].
  apply andb_prop in Hpoint as [Ht0 Ht1].
  apply Qle_bool_iff in Ht0, Ht1, He0, He1.
  split_and!; [exact Ht0 | exact Ht1 | exact He0 | exact He1 |].
  intros Hlt. apply orb_prop in Hnext as [Hlast|Hle].
  - apply bool_decide_eq_true_1 in Hlast. lia.
  - apply Qle_bool_iff in Hle. exact Hle.
Qed.

Lemma ease_grid_b64 (speed : Z) :
  1 <= speed <= 10 -> ease_grid_ok b64 (frames_per_step b64 speed) = true.
Proof.
  intros Hs.
  refine (decide_seqZ (fun s => ease_grid_ok b64 (frames_per_step b64 s) = true)
            1 10 _ speed _); [|lia].
  by vm_compute.
Qed.

Lemma ease_b64_bounds (t : Q) : (0 <= t <= 1)%Q -> (0 <= ease b64 t <= 3)%Q.
Proof.
  intros [H0 H1]. unfold ease.
  assert (of_int b64 3 = 3%Q) as -> by by vm_compute.
  assert (of_int b64 2 = 2%Q) as -> by by vm_compute.
  assert (0 <= fmul b64 t t <= 1)%Q as [A0 A1].
  { pose proof (fmul_b64_mono t 1 t 1 ltac:(lra) ltac:(lra)) as [? ?].
    assert (fmul b64 1 1 = 1%Q) as E by by vm_compute. rewrite E in *. by split. }
  assert (0 <= fmul b64 2 t <= 2)%Q as [B0 B1].
  { pose proof (fmul_b64_mono 2 2 t 1 ltac:(lra) ltac:(lra)) as [? ?].
    assert (fmul b64 2 1 = 2%Q) as E by by vm_compute. rewrite E in *. by split. }
  assert (1 <= fsub b64 3 (fmul b64 2 t) <= 3)%Q as [C0 C1].
  { pose proof (fsub_b64_mono 3 3 2 (fmul b64 2 t) ltac:(lra) ltac:(lra)) as L.
    pose proof (fsub_b64_mono 3 3 (fmul b64 2 t) 0 ltac:(lra) ltac:(lra)) as U.
    assert (fsub b64 3 2 = 1%Q) as E1 by by vm_compute.
    assert (fsub b64 3 0 = 3%Q) as E2 by by vm_compute.
    rewrite E1 in L. rewrite E2 in U. by split. }
  pose proof (fmul_b64_mono (fmul b64 t t) 1 (fsub b64 3 (fmul b64 2 t)) 3
                ltac:(lra) ltac:(lra)) as [? ?].
  assert (fmul b64 1 3 = 3%Q) as E by by vm_compute. rewrite E in *. by split.
Qed.

(** The easing value in binary64 stays in [0, 1].  Up to 1/2 the factors
    are small; above it [2 * t] and [3 - 2 * t] are computed without
    error, the square is off by at most 2^-54 and the second factor is at
    most 2, so the product is at most 1 + 2^-53, which rounds to 1. *)
Lemma ease_b64_le_1 (t : Q) :
  b64 t = t -> (0 <= t <= 1)%Q -> (ease b64 t <= 1)%Q.
Proof.
  intros Hfix [H0 H1].
  destruct (Qlt_le_dec (1 # 2) t) as [Hhalf|Hhalf].
  - destruct (Qlt_le_dec t 1) as [Hlt|Hge].
    + unfold ease, fmul, fsub.
      assert (of_int b64 3 = 3%Q) as -> by by vm_compute.
      assert (of_int b64 2 = 2%Q) as -> by by vm_compute.
      destruct (b64_fixed_grid t (-1) ltac:(lia) Hfix) as [z Hz].
      { change (pow2 (-1)) with (1 # 2)%Q. lra. }
      { change (pow2 (-1 + 1)) with 1%Q. lra. }
      change (pow2 (-1 - 52)) with (1 # 9007199254740992)%Q in Hz.
      assert (b64 (2 * t) == 2 * t)%Q as E2.
      { apply (b64_on_grid _ z 0); [lia| | |].
        - change (pow2 0) with 1%Q. lra.
        - change (pow2 (0 + 1)) with 2%Q. lra.
        - change (pow2 (0 - 52)) with (1 # 4503599627370496)%Q. rewrite Hz. ring. }
      assert (b64 (3 - b64 (2 * t)) == 3 - 2 * t)%Q as E3.
      { rewrite (b64_ext _ (3 - 2 * t)) by (by rewrite E2).
        apply (b64_on_grid _ (3 * 2 ^ 52 - z) 0); [lia| | |].
        - change (pow2 0) with 1%Q. lra.
        - change (pow2 (0 + 1)) with 2%Q. lra.
        - change (pow2 (0 - 52)) with (1 # 4503599627370496)%Q.
          unfold Zminus. rewrite inject_Z_plus, inject_Z_opp, Hz.
          change (inject_Z (3 * 2 ^ 52)) with (13510798882111488 # 1)%Q. ring. }
      assert (0 <= t * t <= 1)%Q as [Hs0 Hs1].
      { split; [apply Qmult_le_0_compat; lra|].
        assert (t * t <= 1 * 1)%Q by (apply Qmult_le_compat_nonneg; lra). lra. }
      destruct (b64_abs_error_unit (t * t) ltac:(lra)) as [_ HA].
      pose proof (b64_nonneg (t * t) Hs0) as HA0.
      change (1 # 2 ^ 54)%Q with (1 # 18014398509481984)%Q in HA.
      pose proof (smoothstep_monotone t 1 H0 H1 ltac:(lra)) as HS.
      rewrite (b64_ext _ (b64 (t * t) * (3 - 2 * t))) by (by rewrite E3).
      assert (b64 (1 + (1 # 9007199254740992)) = 1%Q) as <- by by vm_compute.
      apply b64_mono.
      assert (b64 (t * t) * (3 - 2 * t)
              <= (t * t + (1 # 18014398509481984)) * (3 - 2 * t))%Q as Hprod.
      { apply Qmult_le_compat_r; lra. }
      assert ((t * t + (1 # 18014398509481984)) * (3 - 2 * t)
              == t * t * (3 - 2 * t) + (1 # 18014398509481984) * (3 - 2 * t))%Q as R by ring.
      set (S := (t * t * (3 - 2 * t))%Q) in *. set (A := b64 (t * t)) in *.
      clearbody S A. lra.
    + assert (t == 1)%Q as E by lra.
      rewrite <- Hfix, (b64_ext t 1 E), b64_1. by vm_compute.
  - unfold ease.
    assert (of_int b64 3 = 3%Q) as -> by by vm_compute.
    assert (of_int b64 2 = 2%Q) as -> by by vm_compute.
    pose proof (fmul_b64_mono t (1 # 2) t (1 # 2) ltac:(lra) ltac:(lra)) as [A0 A1].
    assert (fmul b64 (1 # 2) (1 # 2) = (1 # 4)%Q) as E by by vm_compute.
    rewrite E in A1. clear E.
    pose proof (fmul_b64_mono 2 2 t 1 ltac:(lra) ltac:(lra)) as [B0 B1].
    assert (fmul b64 2 1 = 2%Q) as E by by vm_compute. rewrite E in B1. clear E.
    pose proof (fsub_b64_mono 3 3 2 (fmul b64 2 t) ltac:(lra) ltac:(lra)) as L.
    pose proof (fsub_b64_mono 3 3 (fmul b64 2 t) 0 ltac:(lra) ltac:(lra)) as U.
    assert (fsub b64 3 2 = 1%Q) as E1 by by vm_compute.
    assert (fsub b64 3 0 = 3%Q) as E2 by by vm_compute.
    rewrite E1 in L. rewrite E2 in U.
    pose proof (fmul_b64_mono (fmul b64 t t) (1 # 4) (fsub b64 3 (fmul b64 2 t)) 3
                  ltac:(lra) ltac:(lra)) as [_ H].
    assert (fmul b64 (1 # 4) 3 = (3 # 4)%Q) as E by by vm_compute. rewrite E in H.
    set (r := fmul b64 (fmul b64 t t) (fsub b64 3 (fmul b64 2 t))) in *. clearbody r. lra.
Qed.

Lemma Qmult_between (x y a b : Q) :
  (- a <= x <= a)%Q -> (0 <= y <= b)%Q -> (- (a * b) <= x * y <= a * b)%Q.
Proof.
  intros [Hx1 Hx2] [Hy1 Hy2].
  assert (0 <= (a - x) * y)%Q as P1 by (apply Qmult_le_0_compat; lra).
  assert (0 <= (a + x) * y)%Q as P2 by (apply Qmult_le_0_compat; lra).
  assert (0 <= a * (b - y))%Q as P3 by (apply Qmult_le_0_compat; lra).
  assert ((a - x) * y == a * y - x * y)%Q as R1 by ring.
  assert ((a + x) * y == a * y + x * y)%Q as R2 by ring.
  assert (a * (b - y) == a * b - a * y)%Q as R3 by ring.
  set (xy := (x * y)%Q) in *. set (ay := (a * y)%Q) in *. set (ab := (a * b)%Q) in *.
  clearbody xy ay ab. split; lra.
Qed.

(** The four roundings of the easing expression on [0, 1]: the square is
    off by at most 2^-54, [2 * t] by at most 2^-53, the difference and the
    product, both below 4, by at most 2^-52 each. *)
Lemma ease_b64_near (t : Q) :
  (0 <= t <= 1)%Q ->
  (t * t * (3 - 2 * t) - (1 # 2 ^ 50) <= ease b64 t)%Q /\
  (ease b64 t <= t * t * (3 - 2 * t) + (1 # 2 ^ 50))%Q.
Proof.
  intros [H0 H1]. unfold ease, fmul, fsub.
  assert (of_int b64 3 = 3%Q) as -> by by vm_compute.
  assert (of_int b64 2 = 2%Q) as -> by by vm_compute.
  change (1 # 2 ^ 50)%Q with (1 # 1125899906842624)%Q.
  assert (0 <= t * t <= 1)%Q as [Hs0 Hs1].
  { split; [apply Qmult_le_0_compat; lra|].
    assert (t * t <= 1 * 1)%Q by (apply Qmult_le_compat_nonneg; lra). lra. }
  destruct (b64_abs_error_unit (t * t) ltac:(lra)) as [A1 A2].
  change (1 # 2 ^ 54)%Q with (1 # 18014398509481984)%Q in A1, A2.
  pose proof (b64_nonneg (t * t) Hs0) as A0.
  set (A := b64 (t * t)) in *. clearbody A.
  destruct (b64_abs_error (2 * t) 2 ltac:(lia) ltac:(lra)) as [B1 B2].
  { change (pow2 2) with 4%Q. lra. }
  change (pow2 (2 - 54)) with (1 # 4503599627370496)%Q in B1, B2.
  set (B := b64 (2 * t)) in *. clearbody B.
  destruct (b64_abs_error (3 - B) 2 ltac:(lia) ltac:(lra)) as [C1 C2].
  { change (pow2 2) with 4%Q. lra. }
  change (pow2 (2 - 54)) with (1 # 4503599627370496)%Q in C1, C2.
  set (C := b64 (3 - B)) in *. clearbody C.
  (* the product of the rounded factors against the exact one *)
  pose proof (Qmult_between (A - t * t) C (1 # 18014398509481984) 4
                ltac:(lra) ltac:(lra)) as Ha.
  pose proof (Qmult_between (C - (3 - 2 * t)) (t * t) (1 # 2251799813685248) 1
                ltac:(lra) ltac:(lra)) as Hc.
  assert (A * C - t * t * (3 - 2 * t)
          == (A - t * t) * C + (C - (3 - 2 * t)) * (t * t))%Q as R by ring.
  assert (0 <= A * C)%Q as Hpos by (apply Qmult_le_0_compat; lra).
  pose proof (smoothstep_monotone 0 t ltac:(lra) H0 H1) as HS0.
  pose proof (smoothstep_monotone t 1 H0 H1 ltac:(lra)) as HS1.
  set (S := (t * t * (3 - 2 * t))%Q) in *.
  set (AC := (A * C)%Q) in *.
  set (e1 := ((A - t * t) * C)%Q) in *. set (e2 := ((C - (3 - 2 * t)) * (t * t))%Q) in *.
  clearbody S AC e1 e2.
  destruct (b64_abs_error AC 2 ltac:(lia) ltac:(lra)) as [E1 E2].
  { change (pow2 2) with 4%Q. lra. }
  change (pow2 (2 - 54)) with (1 # 4503599627370496)%Q in E1, E2.
  set (E := b64 AC) in *. clearbody E.
  split; lra.
Qed.

(** C6, as the code has it.  The easing expression [t * t * (3 - 2 * t)]
    is evaluated in binary64.  For binary64 numbers [s <= t] of [0, 1]:
    the value at [t] lies within 2^-50 of the real smoothstep polynomial,
    which is what the expression is in real arithmetic; it lies in
    [0, 1]; the value at [s] exceeds the value at [t] by at most 2^-49,
    while in real arithmetic it does not exceed it at all; 0, 1 and 0.5
    are taken to 0, 1 and 0.5 exactly; and on the arguments
    [(f + 1) / frames_per_step] that the approach sub-frames use, for
    every speed from 1 to 10, the values lie in [0, 1] and do not
    decrease with [f]. *)
Theorem ease_is_smoothstep_up_to_rounding (s t : Q) :
  b64 s = s -> b64 t = t ->
  (0 <= s)%Q -> (s <= t)%Q -> (t <= 1)%Q ->
  (ease exact t == t * t * (3 - 2 * t))%Q /\
  (Qabs (ease b64 t - t * t * (3 - 2 * t)) <= 1 # 2 ^ 50)%Q /\
  (0 <= ease b64 t <= 1)%Q /\
  (ease b64 s <= ease b64 t + (1 # 2 ^ 49))%Q /\
  (0 <= ease exact t <= 1)%Q /\
  (ease exact s <= ease exact t)%Q /\
  ease b64 0 = 0%Q /\ ease b64 1 = 1%Q /\ ease b64 (1 # 2) = (1 # 2)%Q /\
  (forall speed f,
     1 <= speed <= 10 -> 0 <= f < frames_per_step b64 speed ->
     (0 <= true_div b64 (f + 1) (frames_per_step b64 speed) <= 1)%Q /\
     (0 <= ease b64 (true_div b64 (f + 1) (frames_per_step b64 speed)) <= 1)%Q /\
     (f + 1 < frames_per_step b64 speed ->
      (ease b64 (true_div b64 (f + 1) (frames_per_step b64 speed))
       <= ease b64 (true_div b64 (f + 2) (frames_per_step b64 speed)))%Q)).
Proof.
  intros Fs Ft H0 Hst H1.
  destruct (ease_b64_near t ltac:(lra)) as [Nt1 Nt2].
  destruct (ease_b64_near s ltac:(lra)) as [Ns1 Ns2].
  pose proof (smoothstep_monotone s t H0 Hst H1) as Hmono.
  change (1 # 2 ^ 50)%Q with (1 # 1125899906842624)%Q in *.
  change (1 # 2 ^ 49)%Q with (1 # 562949953421312)%Q.
  split_and!.
  - apply ease_exact_unfold.
  - apply Qabs_Qle_condition. split; lra.
  - apply ease_b64_bounds. lra.
  - apply ease_b64_le_1; [exact Ft | lra].
  - lra.
  - rewrite ease_exact_unfold. pose proof (smoothstep_monotone 0 t). lra.
  - rewrite ease_exact_unfold. pose proof (smoothstep_monotone t 1). lra.
  - rewrite !ease_exact_unfold. exact Hmono.
  - by vm_compute.
  - by vm_compute.
  - by vm_compute.
  - intros speed f Hs Hf. apply ease_grid_ok_spec; [by apply ease_grid_b64 | exact Hf].
Qed.

Lemma ease_is_smoothstep_up_to_rounding_witness :
  (ease b64 (1 # 4) <= ease b64 (3 # 4) + (1 # 2 ^ 49))%Q.
Proof.
  refine (proj1 (proj2 (proj2 (proj2
            (ease_is_smoothstep_up_to_rounding (1 # 4) (3 # 4) _ _ _ _ _)))));
    by vm_compute.
Defined.

(** C6, as the spec words it, fails in binary64.  The neighbouring
    binary64 numbers 536191471860941 / 2^49 and 8579063549775057 / 2^53
    (0.95246738826826949 and 0.9524673882682696) lie in [0, 1], and the
    easing value of the larger one, 4474041323074645 / 2^52, is below
    that of the smaller one, 8948082646149291 / 2^53. *)
Lemma ease_b64_monotone_counterexample :
  ~ (forall s t : Q,
       b64 s = s -> b64 t = t -> (0 <= s)%Q -> (s <= t)%Q -> (t <= 1)%Q ->
       (ease b64 s <= ease b64 t)%Q).
Proof.
  intros H.
  specialize (H (536191471860941 # 562949953421312)%Q
                (8579063549775057 # 9007199254740992)%Q
                ltac:(by vm_compute) ltac:(by vm_compute)
                ltac:(by vm_compute) ltac:(by vm_compute) ltac:(by vm_compute)).
  vm_compute in H. by apply H.
Qed.

(** The primitive floats compute the same two values. *)
Lemma ease_primitive_at_counterexample :
  float_value (Primitive.ease (Primitive.true_div 536191471860941 562949953421312))
  = Some (ease b64 (536191471860941 # 562949953421312)) /\
  float_value (Primitive.ease (Primitive.true_div 8579063549775057 9007199254740992))
  = Some (ease b64 (8579063549775057 # 9007199254740992)) /\
  ease b64 (536191471860941 # 562949953421312) = (8948082646149291 # 9007199254740992)%Q /\
  ease b64 (8579063549775057 # 9007199254740992) = (4474041323074645 # 4503599627370496)%Q.
Proof. split_and!; by vm_compute. Qed.

(** C7. The checked set is empty in the first drawn frame of every run, and
    the checked set drawn in a frame is a subset of the set drawn in every
    later frame of the same run. *)
Theorem checked_set_grows (a : arr_arg) (target : option Z) (speed : Z) :
  (forall f im,
     head (linear_search_animated b64 a target speed) = Some f ->
     image f = Some im -> checked_indices im = ∅) /\
  (forall (j k : nat) fj fk imj imk,
     (j < k)%nat ->
     linear_search_animated b64 a target speed !! j = Some fj ->
     linear_search_animated b64 a target speed !! k = Some fk ->
     image fj = Some imj -> image fk = Some imk ->
     checked_indices imj ⊆ checked_indices imk).
Proof.
  destruct (linear_search_animated_cases b64 a target speed)
    as [(f0 & -> & Hnone)|(arr & t & _ & _ & _ & ->)].
  - split.
    + intros f im [= <-]. congruence.
    + intros [|j] [|k] fj fk imj imk Hjk; simpl; try done. lia.
  - split.
    + by intros f im [= <-] [= <-].
    + intros j k fj fk imj imk Hjk Hj Hk Himj Himk.
      assert (StronglySorted frame_le
                (start_frame b64 (Z.of_nat (length arr)) ∅
                 :: search_loop b64 t (Z.of_nat (length arr))
                      (frames_per_step b64 speed) ∅ 0 arr)) as Hsorted.
      { constructor; [apply search_loop_sorted|].
        eapply Forall_impl; [apply search_loop_from|].
        intros f Hf x y [= <-] Hy; simpl. destruct (Hf y Hy). split; [done|lia]. }
      by destruct (StronglySorted_lookup_lt _ _ Hsorted j k fj fk Hjk Hj Hk imj imk).
Qed.

Lemma checked_set_grows_witness :
  checked_indices (draw_frame 0 (-1) ∅ (lit b64 (8 # 10)))
    ⊆ checked_indices (draw_frame 0 0 {[0]} (pulse b64 0)).
Proof.
  apply (proj2 (checked_set_grows (Arr [5]) (Some 5) 10) 3%nat 4%nat
           (compare_frame b64 5 1 0 5 ∅) (found_frame b64 5 1 0 {[0]} 0)).
  - lia.
  - vm_compute. reflexivity.
  - vm_compute. reflexivity.
  - reflexivity.
  - reflexivity.
Defined.

(** C8. For every input the sequence is finite: one start frame, at most
    [frames_per_step + 2] frames for each element of the array and at most
    six pulses; every inspected index lies in the array; and the inspected
    index never goes back, so no index is visited twice.  The statement
    covers the empty array, the one-element array, a target that is absent
    and a target that is missing. *)
Theorem sequence_is_finite (a : arr_arg) (target : option Z) (speed : Z) :
  (length (linear_search_animated b64 a target speed)
   <= 1 + arr_length a * (Z.to_nat (frames_per_step b64 speed) + 2) + 6)%nat /\
  (forall f im,
     f ∈ linear_search_animated b64 a target speed -> image f = Some im ->
     -1 <= current_index im < Z.of_nat (arr_length a)) /\
  (forall (j k : nat) fj fk imj imk,
     (j < k)%nat ->
     linear_search_animated b64 a target speed !! j = Some fj ->
     linear_search_animated b64 a target speed !! k = Some fk ->
     image fj = Some imj -> image fk = Some imk ->
     0 <= current_index imk -> current_index imj <= current_index imk).
Proof.
  destruct (linear_search_animated_cases b64 a target speed)
    as [(f0 & -> & Hnone)|(arr & t & Ha & _ & _ & ->)].
  - split_and!.
    + cbn [length]. lia.
    + intros f im ->%list_elem_of_singleton. congruence.
    + intros [|j] [|k] fj fk imj imk Hjk; simpl; try done. lia.
  - unfold arr_length. rewrite Ha. cbn [from_option length]. split_and!.
    + pose proof (search_loop_length b64 t (Z.of_nat (length arr))
                    (frames_per_step b64 speed) arr ∅ 0). lia.
    + intros f im [->|Hf]%elem_of_cons Him.
      * injection Him as <-; simpl. lia.
      * pose proof (search_loop_in_range b64 t (Z.of_nat (length arr))
                      (frames_per_step b64 speed) arr ∅ 0 ltac:(lia)) as Hall.
        rewrite Forall_forall in Hall. specialize (Hall f Hf im Him). lia.
    + intros j k fj fk imj imk Hjk Hj Hk Himj Himk.
      assert (StronglySorted frame_le
                (start_frame b64 (Z.of_nat (length arr)) ∅
                 :: search_loop b64 t (Z.of_nat (length arr))
                      (frames_per_step b64 speed) ∅ 0 arr)) as Hsorted.
      { constructor; [apply search_loop_sorted|].
        eapply Forall_impl; [apply search_loop_from|].
        intros f Hf x y [= <-] Hy; simpl. destruct (Hf y Hy). split; [done|lia]. }
      by destruct (StronglySorted_lookup_lt _ _ Hsorted j k fj fk Hjk Hj Hk imj imk).
Qed.

Lemma sequence_is_finite_witness :
  -1 <= current_index (draw_frame 0 0 {[0]} (pulse b64 0)) < Z.of_nat (arr_length (Arr [5])).
Proof.
  apply (proj1 (proj2 (sequence_is_finite (Arr [5]) (Some 5) 10))
           (found_frame b64 5 1 0 {[0]} 0)).
  - apply (list_elem_of_lookup_2 _ 4%nat). vm_compute. reflexivity.
  - reflexivity.
Defined.

(** C9. Generator objects made by calls of [linear_search_animated] live
    on one heap and are pulled in any order.  Two of them that were made
    with the same array, target and speed yield the same tuples: each
    consumer gets the sequence of [linear_search_animated] on these
    arguments as far as it pulls, whatever the other generators are and
    however the pulls are interleaved; after equally many pulls the two
    have got the same tuples, and once both have seen [StopIteration]
    both have got the whole sequence.  No pull changes what another
    generator yields: the one mutable object of a call, the set
    [checked], is made by the call itself. *)
Theorem runs_are_reproducible (cs : list (arr_arg * option Z * Z)) (sched : list nat)
    (g1 g2 : nat) (a : arr_arg) (target : option Z) (speed : Z) :
  cs !! g1 = Some (a, target, speed) ->
  cs !! g2 = Some (a, target, speed) ->
  let tr := run_schedule (calls cs) sched in
  let full := linear_search_animated b64 a target speed in
  yields g1 tr = take (length (results g1 tr)) full /\
  yields g2 tr = take (length (results g2 tr)) full /\
  (length (results g1 tr) = length (results g2 tr) -> yields g1 tr = yields g2 tr) /\
  (None ∈ results g1 tr -> None ∈ results g2 tr ->
   yields g1 tr = full /\ yields g2 tr = full).
Proof.
  intros H1 H2 tr full.
  pose proof (run_schedule_calls cs sched g1 a target speed H1) as R1.
  pose proof (run_schedule_calls cs sched g2 a target speed H2) as R2.
  fold tr in R1, R2. fold full in R1, R2.
  assert (forall g, results g tr = pulled (length (results g tr)) full ->
            yields g tr = take (length (results g tr)) full) as Hy.
  { intros g R. unfold yields. rewrite R at 1. apply omap_pulled. }
  assert (forall g, results g tr = pulled (length (results g tr)) full ->
            None ∈ results g tr -> yields g tr = full) as Hstop.
  { intros g R Hn. rewrite (Hy g R). apply pulled_stop. by rewrite <- R. }
  split_and!.
  - by apply Hy.
  - by apply Hy.
  - intros Hlen. by rewrite (Hy g1 R1), (Hy g2 R2), Hlen.
  - intros S1 S2. split; by apply Hstop.
Qed.

Lemma runs_are_reproducible_witness :
  yields 0 (run_schedule
              (calls [(Arr [3; 7; 9; 2], Some 9, 5); (Arr [1; 2], Some 2, 10);
                      (Arr [3; 7; 9; 2], Some 9, 5)])
              [0; 1; 2; 2; 1; 0; 0; 1; 2; 0]%nat)
  = take (length (results 0
                    (run_schedule
                       (calls [(Arr [3; 7; 9; 2], Some 9, 5); (Arr [1; 2], Some 2, 10);
                               (Arr [3; 7; 9; 2], Some 9, 5)])
                       [0; 1; 2; 2; 1; 0; 0; 1; 2; 0]%nat)))
      (linear_search_animated b64 (Arr [3; 7; 9; 2]) (Some 9) 5).
Proof.
  exact (proj1 (runs_are_reproducible
                  [(Arr [3; 7; 9; 2], Some 9, 5); (Arr [1; 2], Some 2, 10);
                   (Arr [3; 7; 9; 2], Some 9, 5)]
                  [0; 1; 2; 2; 1; 0; 0; 1; 2; 0]%nat 0 2
                  (Arr [3; 7; 9; 2]) (Some 9) 5 eq_refl eq_refl)).
Defined.

(** The proof above rests on [set()] taking a reference that nobody
    holds.  Were one set shared by two generators, a pull on the first
    would show in the frames of the second: here the first generator has
    added index 0 by its third pull, and the first frame the second gets
    is drawn with index 0 checked. *)
Lemma shared_set_is_seen :
  let l := {| l_arr := [1; 2]; l_target := 2; l_n := 2;
              l_checked := 1%positive; l_fps := 1 |} in
  let w := {| w_heap := {[ 1%positive := ∅ ]};
              w_gens := [Suspended l AtStart; Suspended l AtStart] |} in
  (checked_indices <$> (head (yields 1 (run_schedule w [0; 0; 0; 1]%nat)) ≫= image)
   = Some {[ 0 ]}) /\
  (checked_indices <$> (head (yields 1 (run_schedule w [1%nat])) ≫= image)
   = Some ∅).
Proof. split; by vm_compute. Qed.

(** C10. When the target occurs at several indices and [i] is the smallest
    of them, the run has Found frames, every Found frame shows [i] as the
    found and the current index, and a later occurrence [j] is neither
    inspected nor put in the checked set in any frame. *)
Theorem first_occurrence_only (arr : list Z) (target speed : Z) (i j : nat) :
  arr !! i = Some target ->
  (forall k, (k < i)%nat -> arr !! k <> Some target) ->
  arr !! j = Some target ->
  i <> j ->
  (exists f, f ∈ linear_search_animated b64 (Arr arr) (Some target) speed /\ at_step 3 f) /\
  (forall f im,
     f ∈ linear_search_animated b64 (Arr arr) (Some target) speed ->
     image f = Some im ->
     (at_step 3 f -> found_index im = Z.of_nat i /\ current_index im = Z.of_nat i) /\
     current_index im <> Z.of_nat j /\
     Z.of_nat j ∉ checked_indices im).
Proof.
  intros Hi Hmin Hj Hij.
  assert (target ∈ arr) as Hin by by eapply list_elem_of_lookup_2.
  assert (i < j)%nat as Hlt.
  { destruct (decide (j < i)%nat) as [Hlt|?]; [by destruct (Hmin j Hlt) | lia]. }
  rewrite linear_search_animated_present by done.
  set (n := Z.of_nat (length arr)). set (fps := frames_per_step b64 speed).
  destruct (search_loop_found b64 target n fps arr ∅ 0 Hin)
    as (k & before & checked_k & Hk & Hmink & -> & Hck & Hbefore).
  assert (k = i) as ->.
  { destruct (decide (k < i)%nat) as [H|?]; [by destruct (Hmin k H)|].
    destruct (decide (i < k)%nat) as [H|?]; [by destruct (Hmink i H) | lia]. }
  rewrite Z.add_0_l in *. rewrite Forall_forall in Hbefore. split.
  - exists (found_frame b64 target n (Z.of_nat i) checked_k 0). split; [|done].
    apply elem_of_cons; right. apply elem_of_app; right.
    apply list_elem_of_fmap. exists 0. split; [done|]. apply elem_of_seqZ. lia.
  - intros f im [->|[Hf|Hf]%elem_of_app]%elem_of_cons Him.
    + injection Him as <-; simpl. split_and!; [done | lia | set_solver].
    + destruct (Hbefore f Hf) as [Hstep Hshape].
      destruct (Hshape im Him) as (_ & Hcur & Hchk). split_and!; [done | lia |].
      intros [?|?]%Hchk; [set_solver | lia].
    + apply list_elem_of_fmap in Hf as (p & -> & _). injection Him as <-; simpl.
      split_and!; [done | lia |]. intros [?|?]%Hck; [set_solver | lia].
Qed.

Lemma first_occurrence_only_witness :
  (exists f, f ∈ linear_search_animated b64 (Arr [4; 8; 6; 8]) (Some 8) 5 /\ at_step 3 f) /\
  (forall f im,
     f ∈ linear_search_animated b64 (Arr [4; 8; 6; 8]) (Some 8) 5 ->
     image f = Some im ->
     (at_step 3 f -> found_index im = 1 /\ current_index im = 1) /\
     current_index im <> 3 /\
     3 ∉ checked_indices im).
Proof.
  apply (first_occurrence_only [4; 8; 6; 8] 8 5 1 3).
  - reflexivity.
  - intros [|k] Hk; [discriminate | lia].
  - reflexivity.
  - lia.
Defined.

(** * Further properties *)

Lemma checked_below_succ (i : Z) : 0 <= i -> {[ i ]} ∪ checked_below i = checked_below (i + 1).
Proof.
  intros Hi. unfold checked_below. apply set_eq. intros x.
  rewrite elem_of_union, elem_of_singleton, !elem_of_list_to_set, !elem_of_seqZ. lia.
Qed.

Lemma elem_of_checked_below (i x : Z) : x ∈ checked_below i <-> 0 <= x < i.
Proof. unfold checked_below. rewrite elem_of_list_to_set, elem_of_seqZ. lia. Qed.

Lemma checked_below_0 : checked_below 0 = ∅.
Proof. reflexivity. Qed.

Lemma search_loop_hit (rnd : Q -> Q) (target n fps : Z) (pre post : list Z) : forall i,
  0 <= i -> target ∉ pre ->
  search_loop rnd target n fps (checked_below i) i (pre ++ target :: post)
  = concat (imap (fun j val => miss_frames rnd target n fps (i + Z.of_nat j) val) pre)
    ++ hit_frames rnd target n fps (i + Z.of_nat (length pre)).
Proof.
  induction pre as [|val pre IH]; intros i Hi Hnot.
  - cbn [app search_loop imap concat length]. rewrite bool_decide_eq_true_2 by done.
    rewrite checked_below_succ by done. replace (i + Z.of_nat 0) with i by lia. done.
  - apply not_elem_of_cons in Hnot as [Hne Hnot].
    cbn [app search_loop imap concat]. rewrite bool_decide_eq_false_2 by done.
    rewrite checked_below_succ by done. rewrite IH by (done || lia).
    unfold miss_frames at 2. replace (i + Z.of_nat 0) with i by lia.
    rewrite <- !app_assoc. cbn [app]. do 4 f_equal.
    + f_equal. apply imap_ext. intros j x _. simpl. f_equal. lia.
    + f_equal. cbn [length]. lia.
Qed.

Lemma search_loop_miss (rnd : Q -> Q) (target n fps : Z) (rest : list Z) : forall i,
  0 <= i -> target ∉ rest ->
  search_loop rnd target n fps (checked_below i) i rest
  = concat (imap (fun j val => miss_frames rnd target n fps (i + Z.of_nat j) val) rest)
    ++ [end_frame rnd n (checked_below (i + Z.of_nat (length rest)))].
Proof.
  induction rest as [|val rest IH]; intros i Hi Hnot.
  - cbn [search_loop imap concat length app]. by replace (i + Z.of_nat 0) with i by lia.
  - apply not_elem_of_cons in Hnot as [Hne Hnot].
    cbn [app search_loop imap concat]. rewrite bool_decide_eq_false_2 by done.
    rewrite checked_below_succ by done. rewrite IH by (done || lia).
    unfold miss_frames at 2. replace (i + Z.of_nat 0) with i by lia.
    rewrite <- !app_assoc. cbn [app]. do 4 f_equal.
    + f_equal. apply imap_ext. intros j x _. simpl. f_equal. lia.
    + do 3 f_equal. cbn [length]. lia.
Qed.

Lemma length_concat_imap_const {A B} (f : nat -> A -> list B) (l : list A) (c : nat) :
  (forall j x, length (f j x) = c) -> length (concat (imap f l)) = (length l * c)%nat.
Proof.
  intros Hc. revert f Hc. induction l as [|x l IH]; intros f Hc; [done|].
  cbn [imap concat length]. rewrite length_app, Hc, IH by (intros; apply Hc). lia.
Qed.

Lemma length_miss_frames rnd target n fps i val :
  length (miss_frames rnd target n fps i val) = (Z.to_nat fps + 2)%nat.
Proof. unfold miss_frames. rewrite length_app, length_fmap, length_seqZ. done. Qed.

Lemma length_hit_frames rnd target n fps i :
  length (hit_frames rnd target n fps i) = (Z.to_nat fps + 7)%nat.
Proof.
  unfold hit_frames. rewrite length_app, length_fmap, length_seqZ. cbn [length].
  rewrite length_fmap, length_seqZ. lia.
Qed.

Lemma frames_per_step_pos rnd speed : 1 <= frames_per_step rnd speed.
Proof. unfold frames_per_step. lia. Qed.

Lemma linear_search_animated_closed (rnd : Q -> Q) (pre post : list Z) (target speed : Z) :
  target ∉ pre ->
  linear_search_animated rnd (Arr (pre ++ target :: post)) (Some target) speed
  = start_frame rnd (Z.of_nat (length (pre ++ target :: post))) ∅
    :: concat (imap (fun j val =>
                       miss_frames rnd target (Z.of_nat (length (pre ++ target :: post)))
                         (frames_per_step rnd speed) (Z.of_nat j) val) pre)
    ++ hit_frames rnd target (Z.of_nat (length (pre ++ target :: post)))
         (frames_per_step rnd speed) (Z.of_nat (length pre)).
Proof.
  intros Hnot.
  rewrite linear_search_animated_present
    by (apply elem_of_app; right; apply elem_of_cons; left; reflexivity).
  f_equal. rewrite <- checked_below_0.
  rewrite (search_loop_hit rnd _ _ _ pre post 0) by done.
  by rewrite Z.add_0_l.
Qed.

(** The array cut at the first occurrence of the target. *)
Lemma first_occurrence_split (arr : list Z) (target : Z) (k : nat) :
  arr !! k = Some target ->
  (forall j, (j < k)%nat -> arr !! j <> Some target) ->
  arr = take k arr ++ target :: drop (S k) arr /\ (target ∉ take k arr) /\
  length (take k arr) = k.
Proof.
  intros Hk Hmin. split_and!.
  - by rewrite take_drop_middle.
  - intros Hin. apply list_elem_of_lookup_1 in Hin as (j & Hj).
    apply lookup_take_Some in Hj as [Hj Hlt]. by apply (Hmin j).
  - apply length_take_le. apply lookup_lt_Some in Hk. lia.
Qed.

(** X2. The whole run in closed form.  When the target first occurs at index
    [k], the generator yields the Start frame, then for each index before
    [k] its approach frames, its Compare frame and its Advance frame, then
    for [k] its approach frames, its Compare frame and the six Found
    frames, and nothing else; the checked set drawn at index [i] is
    [{0, ..., i - 1}] up to the Compare frame and [{0, ..., i}] after it. *)
Theorem run_closed_form (arr : list Z) (target speed : Z) (k : nat) :
  arr !! k = Some target ->
  (forall j, (j < k)%nat -> arr !! j <> Some target) ->
  linear_search_animated b64 (Arr arr) (Some target) speed
  = start_frame b64 (Z.of_nat (length arr)) ∅
    :: concat (imap (fun j val =>
                       miss_frames b64 target (Z.of_nat (length arr))
                         (frames_per_step b64 speed) (Z.of_nat j) val) (take k arr))
    ++ hit_frames b64 target (Z.of_nat (length arr)) (frames_per_step b64 speed) (Z.of_nat k).
Proof.
  intros Hk Hmin.
  destruct (first_occurrence_split arr target k Hk Hmin) as (Harr & Hnot & Hlen).
  rewrite Harr at 1. rewrite linear_search_animated_closed by done.
  by rewrite <- Harr, Hlen.
Qed.

Lemma run_closed_form_witness :
  linear_search_animated b64 (Arr [3; 7; 9; 2]) (Some 9) 5
  = start_frame b64 4 ∅
    :: concat (imap (fun j val => miss_frames b64 9 4 (frames_per_step b64 5) (Z.of_nat j) val)
                 [3; 7])
    ++ hit_frames b64 9 4 (frames_per_step b64 5) 2.
Proof.
  apply (run_closed_form [3; 7; 9; 2] 9 5 2).
  - reflexivity.
  - intros [|[|j]] Hj; [discriminate | discriminate | lia].
Defined.

(** X3. The number of frames of a run: with [fps] approach frames per index
    and the target first at index [k] it is
    [1 + k * (fps + 2) + (fps + 1) + 6]. *)
Theorem run_length_exact (arr : list Z) (target speed : Z) (k : nat) :
  arr !! k = Some target ->
  (forall j, (j < k)%nat -> arr !! j <> Some target) ->
  Z.of_nat (length (linear_search_animated b64 (Arr arr) (Some target) speed))
  = 1 + Z.of_nat k * (frames_per_step b64 speed + 2) + (frames_per_step b64 speed + 1) + 6.
Proof.
  intros Hk Hmin.
  destruct (first_occurrence_split arr target k Hk Hmin) as (Harr & Hnot & Hlen).
  rewrite Harr at 1. rewrite linear_search_animated_closed by done.
  cbn [length]. rewrite length_app, length_hit_frames.
  rewrite (length_concat_imap_const _ _ (Z.to_nat (frames_per_step b64 speed) + 2))
    by (intros; apply length_miss_frames).
  rewrite Hlen. pose proof (frames_per_step_pos b64 speed). lia.
Qed.

Lemma run_length_exact_witness :
  Z.of_nat (length (linear_search_animated b64 (Arr [3; 7; 9; 2]) (Some 9) 5))
  = 1 + 2 * (frames_per_step b64 5 + 2) + (frames_per_step b64 5 + 1) + 6.
Proof.
  apply (run_length_exact [3; 7; 9; 2] 9 5 2).
  - reflexivity.
  - intros [|[|j]] Hj; [discriminate | discriminate | lia].
Defined.

Lemma first_occurrence_exists (arr : list Z) (target : Z) :
  target ∈ arr ->
  exists k : nat, arr !! k = Some target /\ forall j, (j < k)%nat -> arr !! j <> Some target.
Proof.
  induction arr as [|v arr IH]; intros Hin; [by apply elem_of_nil in Hin|].
  destruct (decide (v = target)) as [->|Hne].
  - exists 0%nat. split; [done | lia].
  - apply elem_of_cons in Hin as [->|Hin]; [done|].
    destruct (IH Hin) as (k & Hk & Hmin). exists (S k). split; [done|].
    intros [|j] Hj; simpl; [congruence | apply Hmin; lia].
Qed.

Lemma elem_of_concat_imap {A B} (f : nat -> A -> list B) (l : list A) (y : B) :
  y ∈ concat (imap f l) -> exists j x, l !! j = Some x /\ y ∈ f j x.
Proof.
  revert f. induction l as [|x l IH]; intros f Hy; [by apply elem_of_nil in Hy|].
  cbn [imap concat] in Hy. apply elem_of_app in Hy as [Hy|Hy].
  - by exists 0%nat, x.
  - destruct (IH _ Hy) as (j & x' & Hj & Hin). by exists (S j), x'.
Qed.

(** The frames of one index, by kind. *)
Lemma elem_of_miss_frames rnd target n fps i val f :
  f ∈ miss_frames rnd target n fps i val ->
  (exists k, f = approach_frame rnd n fps i (checked_below i) k /\ 0 <= k < fps) \/
  f = compare_frame rnd target n i val (checked_below i) \/
  f = advance_frame rnd n i (checked_below (i + 1)).
Proof.
  unfold miss_frames. intros [Hf|Hf]%elem_of_app.
  - apply list_elem_of_fmap in Hf as (k & -> & Hk). apply elem_of_seqZ in Hk.
    left. exists k. split; [done | lia].
  - apply elem_of_cons in Hf as [->|Hf]; [by right; left|].
    apply list_elem_of_singleton in Hf as ->. by right; right.
Qed.

Lemma elem_of_hit_frames rnd target n fps i f :
  f ∈ hit_frames rnd target n fps i ->
  (exists k, f = approach_frame rnd n fps i (checked_below i) k /\ 0 <= k < fps) \/
  f = compare_frame rnd target n i target (checked_below i) \/
  (exists p, f = found_frame rnd target n i (checked_below (i + 1)) p /\ 0 <= p < 6).
Proof.
  unfold hit_frames. intros [Hf|Hf]%elem_of_app.
  - apply list_elem_of_fmap in Hf as (k & -> & Hk). apply elem_of_seqZ in Hk.
    left. exists k. split; [done | lia].
  - apply elem_of_cons in Hf as [->|Hf]; [by right; left|].
    apply list_elem_of_fmap in Hf as (p & -> & Hp). apply elem_of_seqZ in Hp.
    right; right. exists p. split; [done | lia].
Qed.

Lemma run_frame_kind (rnd : Q -> Q) (arr : list Z) (target speed : Z) (f : Frame) :
  target ∈ arr ->
  f ∈ linear_search_animated rnd (Arr arr) (Some target) speed ->
  frame_kind rnd arr target speed f.
Proof.
  intros Hin Hf.
  destruct (first_occurrence_exists arr target Hin) as (k & Hk & Hmin).
  destruct (first_occurrence_split arr target k Hk Hmin) as (Harr & Hnot & Hlen).
  rewrite Harr in Hf at 1. rewrite linear_search_animated_closed in Hf by done.
  rewrite <- Harr, Hlen in Hf.
  apply elem_of_cons in Hf as [->|Hf]; [constructor|].
  apply elem_of_app in Hf as [Hf|Hf].
  - apply elem_of_concat_imap in Hf as (j & val & Hj & Hf).
    apply lookup_take_Some in Hj as [Hj Hlt].
    apply elem_of_miss_frames in Hf as [(x & -> & Hx)|[->| ->]].
    + constructor; [by eapply lookup_lt_Some | done].
    + by constructor.
    + apply (kind_advance _ _ _ _ j val); [done|]. intros ->. by apply (Hmin j).
  - apply elem_of_hit_frames in Hf as [(x & -> & Hx)|[->|(p & -> & Hp)]].
    + constructor; [by eapply lookup_lt_Some | done].
    + by constructor.
    + by constructor.
Qed.

Section Progress.

Variable rnd : Q -> Q.
Variables target n fps : Z.

Lemma search_loop_progress_from (rest : list Z) : forall checked i,
  0 <= i -> n = i + Z.of_nat (length rest) ->
  Forall (fun f => progress_ok rnd n f /\ i <= p_done (progress f))
         (search_loop rnd target n fps checked i rest).
Proof.
  induction rest as [|val rest IH]; intros checked i Hi Hn; cbn [search_loop length] in *.
  - constructor; [|done]. repeat split; simpl; lia.
  - apply Forall_app. split.
    { apply Forall_fmap, Forall_forall. intros f _. repeat split; simpl; lia. }
    constructor. { repeat split; simpl; lia. }
    case_bool_decide.
    + apply Forall_fmap, Forall_forall. intros p _. repeat split; simpl; lia.
    + constructor. { repeat split; simpl; lia. }
      eapply Forall_impl; [apply (IH _ (i + 1)); lia|].
      intros f [Hok Hlo]. split; [done | lia].
Qed.

Lemma search_loop_progress_sorted (rest : list Z) : forall checked i,
  0 <= i -> n = i + Z.of_nat (length rest) ->
  StronglySorted progress_le (search_loop rnd target n fps checked i rest).
Proof.
  induction rest as [|val rest IH]; intros checked i Hi Hn; cbn [search_loop length] in *.
  - repeat constructor.
  - apply StronglySorted_app. split_and!.
    + intros f1 f2 (x & -> & _)%list_elem_of_fmap Hf2. unfold progress_le. simpl.
      apply elem_of_cons in Hf2 as [->|Hf2]; [simpl; lia|].
      case_bool_decide.
      * apply list_elem_of_fmap in Hf2 as (p & -> & _). simpl. lia.
      * apply elem_of_cons in Hf2 as [->|Hf2]; [simpl; lia|].
        pose proof (search_loop_progress_from rest ({[i]} ∪ checked) (i + 1)
                      ltac:(lia) ltac:(lia)) as Hall.
        rewrite Forall_forall in Hall. destruct (Hall f2 Hf2) as [_ Hlo]. lia.
    + apply StronglySorted_fmap_any. intros x y. unfold progress_le. simpl. lia.
    + constructor.
      * case_bool_decide.
        -- apply StronglySorted_fmap_any. intros x y. unfold progress_le. simpl. lia.
        -- constructor; [apply IH; lia|].
           pose proof (search_loop_progress_from rest ({[i]} ∪ checked) (i + 1)
                         ltac:(lia) ltac:(lia)) as Hall.
           eapply Forall_impl; [exact Hall|]. intros f [_ Hlo].
           unfold progress_le. simpl. lia.
      * case_bool_decide.
        -- apply Forall_fmap, Forall_forall. intros p _. unfold progress_le. simpl. lia.
        -- constructor; [unfold progress_le; simpl; lia|].
           pose proof (search_loop_progress_from rest ({[i]} ∪ checked) (i + 1)
                         ltac:(lia) ltac:(lia)) as Hall.
           eapply Forall_impl; [exact Hall|]. intros f [_ Hlo].
           unfold progress_le. simpl. lia.
Qed.

End Progress.

(** X4. Along a run the progress panel never moves back: of two frames the
    later one shows the same total, a [done] count and a percentage that
    are at least those of the earlier one, and the percentage stays
    between 0 and 100. *)
Theorem progress_never_goes_back (a : arr_arg) (target : option Z) (speed : Z)
    (j k : nat) (fj fk : Frame) :
  (j < k)%nat ->
  linear_search_animated b64 a target speed !! j = Some fj ->
  linear_search_animated b64 a target speed !! k = Some fk ->
  p_total (progress fj) = p_total (progress fk) /\
  p_done (progress fj) <= p_done (progress fk) /\
  0 <= p_pct (progress fj) <= p_pct (progress fk) /\
  p_pct (progress fk) <= 100.
Proof.
  intros Hjk Hj Hk.
  destruct (linear_search_animated_cases b64 a target speed)
    as [(f0 & Heq & _)|(arr & t & _ & _ & _ & Heq)]; rewrite Heq in Hj, Hk.
  - destruct k as [|k]; [lia|]. by destruct k.
  - set (n := Z.of_nat (length arr)) in *.
    set (run := start_frame b64 n ∅ :: _) in *.
    assert (Forall (progress_ok b64 n) run) as Hok.
    { constructor; [repeat split; simpl; lia|].
      eapply Forall_impl; [apply search_loop_progress_from; lia|]. by intros f [? _]. }
    assert (StronglySorted progress_le run) as Hsorted.
    { constructor; [apply search_loop_progress_sorted; lia|].
      eapply Forall_impl; [apply (search_loop_progress_from b64 t n _ arr ∅ 0); lia|].
      intros f [_ Hlo]. unfold progress_le. simpl. lia. }
    rewrite Forall_forall in Hok.
    destruct (Hok fj) as [Ej Rj]; [by eapply list_elem_of_lookup_2|].
    destruct (Hok fk) as [Ek Rk]; [by eapply list_elem_of_lookup_2|].
    pose proof (StronglySorted_lookup_lt _ _ Hsorted j k fj fk Hjk Hj Hk) as Hle.
    unfold progress_le in Hle. rewrite Ej, Ek. simpl. split_and!.
    + done.
    + done.
    + apply progress_pct_b64_range. lia.
    + by apply progress_pct_b64_mono.
    + apply progress_pct_b64_range. lia.
Qed.

Lemma progress_never_goes_back_witness :
  p_total (progress (compare_frame b64 5 1 0 5 ∅))
  = p_total (progress (found_frame b64 5 1 0 {[0]} 0)) /\
  p_done (progress (compare_frame b64 5 1 0 5 ∅))
  <= p_done (progress (found_frame b64 5 1 0 {[0]} 0)) /\
  0 <= p_pct (progress (compare_frame b64 5 1 0 5 ∅))
    <= p_pct (progress (found_frame b64 5 1 0 {[0]} 0)) /\
  p_pct (progress (found_frame b64 5 1 0 {[0]} 0)) <= 100.
Proof.
  apply (progress_never_goes_back (Arr [5]) (Some 5) 10 3 4).
  - lia.
  - vm_compute. reflexivity.
  - vm_compute. reflexivity.
Defined.

Lemma Qfloor_lt_Z (y : Q) (z : Z) : (y < inject_Z z)%Q -> Qfloor y < z.
Proof. intros H. pose proof (Qfloor_le y). rewrite Zlt_Qlt. lra. Qed.

Lemma Qfloor_ge_Z (y : Q) (z : Z) : (inject_Z z <= y)%Q -> z <= Qfloor y.
Proof. intros H. rewrite <- (Qfloor_Z z). by apply Qfloor_resp_le. Qed.

(** X5. The percentage of [progress_html] is the floor of
    [100 * done / total] or one less than it, never more and never less
    by more than one, for every list of at most 2^45 elements. *)
Theorem progress_pct_floor_or_below (done total : Z) :
  0 <= done <= total -> total <= 2 ^ 45 ->
  progress_floor done total - 1 <= progress_pct b64 done total <= progress_floor done total.
Proof.
  intros [Hd0 Hdt] Ht.
  destruct (decide (done = 0)) as [->|Hne].
  { rewrite progress_pct_b64_none. unfold progress_floor. rewrite Z.div_0_l by lia. lia. }
  unfold progress_floor, progress_pct, fmul, true_div, of_int.
  rewrite Z.max_r by lia.
  change (inject_Z 100) with 100%Q. rewrite b64_100.
  set (N := (100 * done) / total).
  assert (N * total <= 100 * done <= N * total + total - 1) as HN.
  { pose proof (Z.div_mod (100 * done) total ltac:(lia)) as Hdm.
    pose proof (Z.mod_pos_bound (100 * done) total ltac:(lia)). fold N in Hdm. lia. }
  assert (0 <= N <= 100) as HN100.
  { split; [apply Z.div_pos; lia|]. apply Z.div_le_upper_bound; lia. }
  set (q := (inject_Z done / inject_Z total)%Q).
  set (M := inject_Z total). set (D := inject_Z done).
  assert (1 <= M)%Q as HM1.
  { unfold M. change 1%Q with (inject_Z 1). rewrite <- Zle_Qle. lia. }
  assert (M <= 35184372088832)%Q as HM2.
  { unfold M. change (35184372088832)%Q with (inject_Z (2 ^ 45)). by rewrite <- Zle_Qle. }
  assert (1 <= D)%Q as HD1.
  { unfold D. change 1%Q with (inject_Z 1). rewrite <- Zle_Qle. lia. }
  assert (q * M == D)%Q as HqM by (unfold q; fold M D; field; lra).
  assert (D <= M)%Q as HDM by (unfold D, M; by rewrite <- Zle_Qle).
  assert (inject_Z N * M <= 100 * D)%Q as HND1.
  { unfold M, D. change 100%Q with (inject_Z 100). rewrite <- !inject_Z_mult, <- Zle_Qle. lia. }
  assert (100 * D <= inject_Z (N + 1) * M - 1)%Q as HND2.
  { unfold M, D. change 100%Q with (inject_Z 100). change 1%Q with (inject_Z 1).
    rewrite <- !inject_Z_mult. unfold Qminus. rewrite <- inject_Z_opp, <- inject_Z_plus, <- Zle_Qle.
    lia. }
  assert (0 < q)%Q as Hq0.
  { unfold q. apply Qlt_shift_div_l; [fold M; lra|]. fold D. lra. }
  assert (q <= 1)%Q as Hq1.
  { unfold q. apply Qle_shift_div_r; [fold M; lra|]. fold D M. lra. }
  assert (1 <= q * 35184372088832)%Q as Hqlow.
  { assert (q * M <= q * 35184372088832)%Q by (apply Qmult_le_l; lra). lra. }
  assert (pow2 (-1022) <= 1 # 281474976710656)%Q as Hsmall.
  { change (1 # 281474976710656)%Q with (pow2 (-48)). by apply pow2_le. }
  destruct (b64_rel_error q) as [A1 A2]; [lra|].
  set (a := b64 q) in *.
  unfold half_ulp in *. change (1 # 2 ^ 53)%Q with (1 # 9007199254740992)%Q in *.
  destruct (b64_rel_error (a * 100)) as [Y1 Y2]; [lra|].
  unfold half_ulp in *. change (1 # 2 ^ 53)%Q with (1 # 9007199254740992)%Q in *.
  set (y := b64 (a * 100)) in *.
  assert (0 <= y)%Q as Hy0 by lra.
  unfold int_of_float. apply Qle_bool_iff in Hy0 as Hy0'. rewrite Hy0'.
  (* scale the bounds on [y] by the divisor *)
  set (up := ((1 + (1 # 9007199254740992)) * (1 + (1 # 9007199254740992)) * 100)%Q).
  set (dn := ((1 - (1 # 9007199254740992)) * (1 - (1 # 9007199254740992)) * 100)%Q).
  assert (y <= q * up)%Q as Yup by (unfold up; lra).
  assert (q * dn <= y)%Q as Ydn by (unfold dn; lra).
  assert (y * M <= D * up)%Q as YMup.
  { apply (Qmult_le_compat_r _ _ M) in Yup; [|lra].
    assert (q * up * M == D * up)%Q as <- by (rewrite <- HqM; ring). done. }
  assert (D * dn <= y * M)%Q as YMdn.
  { apply (Qmult_le_compat_r _ _ M) in Ydn; [|lra].
    assert (q * dn * M == D * dn)%Q as <- by (rewrite <- HqM; ring). done. }
  assert (inject_Z N <= 100)%Q as HNq.
  { change 100%Q with (inject_Z 100). rewrite <- Zle_Qle. lia. }
  assert (0 <= inject_Z N)%Q as HNq0.
  { change 0%Q with (inject_Z 0). rewrite <- Zle_Qle. lia. }
  split.
  - apply Qfloor_ge_Z.
    apply (Qmult_le_r _ _ M); [lra|].
    unfold Z.sub. rewrite inject_Z_plus. change (inject_Z (-1)) with (-1 # 1)%Q.
    unfold dn in YMdn.
    set (NM := (inject_Z N * M)%Q) in *.
    assert ((inject_Z N + (-1 # 1)) * M == NM - M)%Q as -> by (unfold NM; ring).
    assert (NM <= 100 * M)%Q by (unfold NM; apply Qmult_le_compat_r; lra).
    lra.
  - assert (Qfloor y < N + 1); [|lia]. apply Qfloor_lt_Z.
    apply (Qmult_lt_r _ _ M); [lra|].
    unfold up in YMup.
    set (W := (inject_Z (N + 1) * M)%Q) in *.
    assert (W <= 101 * M)%Q.
    { unfold W. apply Qmult_le_compat_r; [|lra].
      change 101%Q with (inject_Z 101). rewrite <- Zle_Qle. lia. }
    lra.
Qed.

Lemma progress_pct_floor_or_below_witness :
  progress_floor 29 50 - 1 <= progress_pct b64 29 50 <= progress_floor 29 50.
Proof. apply (progress_pct_floor_or_below 29 50); lia. Defined.

Lemma of_int_b64_mono (x y : Z) : x <= y -> (of_int b64 x <= of_int b64 y)%Q.
Proof. intros H. unfold of_int. apply b64_mono. by rewrite <- Zle_Qle. Qed.

Lemma of_int_b64_small (z : Z) : 0 <= z < 10 -> of_int b64 z = inject_Z z.
Proof.
  intros Hz.
  refine (decide_seqZ (fun k => of_int b64 k = inject_Z k) 0 10 _ z _); [|lia].
  by vm_compute.
Qed.

(** X6. For speeds between -2^1000 and 2^1000 (within that range line
    258 raises no [OverflowError]: the speed converts to a finite float
    and the product with 1.1 stays finite), the number of approach frames
    per index never grows with the speed and never falls below 1; it is 1
    exactly from speed 11 on, so every speed of the slider (1 to 10) gives
    at least two. *)
Theorem frames_per_step_decreases_to_one (speed1 speed2 : Z) :
  - 2 ^ 1000 <= speed1 -> speed1 <= speed2 -> speed2 <= 2 ^ 1000 ->
  1 <= frames_per_step b64 speed2 <= frames_per_step b64 speed1 /\
  (frames_per_step b64 speed1 = 1 <-> 11 <= speed1).
Proof.
  intros _ Hs _.
  assert (forall s1 s2, s1 <= s2 -> frames_per_step b64 s2 <= frames_per_step b64 s1) as Hmono.
  { intros s1 s2 H12. unfold frames_per_step.
    apply Z.max_le_compat_l, int_of_float_mono, fsub_b64_mono; [lra|].
    assert (0 <= lit b64 (11 # 10))%Q as Hlit by by vm_compute.
    unfold fmul. apply b64_mono, Qmult_le_compat_r; [|done].
    apply of_int_b64_mono. lia. }
  split; [split; [unfold frames_per_step; lia | by apply Hmono]|].
  assert (frames_per_step b64 10 = 2) as H10 by by vm_compute.
  assert (frames_per_step b64 11 = 1) as H11 by by vm_compute.
  split.
  - intros H1. destruct (decide (11 <= speed1)) as [|Hlt]; [done|].
    pose proof (Hmono speed1 10 ltac:(lia)). lia.
  - intros H. pose proof (Hmono 11 speed1 H). unfold frames_per_step in *. lia.
Qed.

Lemma frames_per_step_decreases_to_one_witness :
  1 <= frames_per_step b64 10 <= frames_per_step b64 1 /\
  (frames_per_step b64 1 = 1 <-> 11 <= 1).
Proof. apply (frames_per_step_decreases_to_one 1 10); by vm_compute. Defined.

Lemma true_div_b64_unit (f fps : Z) :
  0 <= f -> f + 1 <= fps -> (0 <= true_div b64 (f + 1) fps <= 1)%Q.
Proof.
  intros Hf Hfps. unfold true_div.
  assert (0 < inject_Z fps)%Q as Hpos.
  { change 0%Q with (inject_Z 0). rewrite <- Zlt_Qlt. lia. }
  split.
  - apply b64_nonneg. apply Qle_shift_div_l; [done|].
    rewrite Qmult_0_l. change 0%Q with (inject_Z 0). rewrite <- Zle_Qle. lia.
  - rewrite <- b64_1. apply b64_mono. apply Qle_shift_div_r; [done|].
    rewrite Qmult_1_l, <- Zle_Qle. lia.
Qed.

Lemma approach_glow_bounds (f fps : Z) :
  0 <= f < fps ->
  (0 <= fmul b64 (lit b64 (1 # 2)) (ease b64 (true_div b64 (f + 1) fps)) <= 3 # 2)%Q.
Proof.
  intros Hf.
  pose proof (ease_b64_bounds _ (true_div_b64_unit f fps ltac:(lia) ltac:(lia))) as He.
  assert (lit b64 (1 # 2) = (1 # 2)%Q) as -> by by vm_compute.
  pose proof (fmul_b64_mono (1 # 2) (1 # 2) _ 3 ltac:(lra) He) as [? ?].
  assert (fmul b64 (1 # 2) 3 = (3 # 2)%Q) as E by by vm_compute. rewrite E in *. by split.
Qed.

Lemma pulse_b64_bounds (p : Z) : 0 <= p < 6 -> (0 <= pulse b64 p <= 3 # 2)%Q.
Proof.
  intros Hp.
  pose proof (forallb_seqZ
                (fun k => Qle_bool 0 (pulse b64 k) && Qle_bool (pulse b64 k) (3 # 2))
                0 6 ltac:(by vm_compute) p ltac:(lia)) as H.
  apply andb_prop in H as [H1 H2]. by split; apply Qle_bool_iff.
Qed.

(** Every frame with an image belongs to a run that passed the validation. *)
Lemma drawn_frame_kind (rnd : Q -> Q) (a : arr_arg) (target : option Z) (speed : Z)
    (f : Frame) (im : Image) :
  f ∈ linear_search_animated rnd a target speed -> image f = Some im ->
  exists arr t, arr_value a = Some arr /\ target = Some t /\ t ∈ arr /\
                frame_kind rnd arr t speed f.
Proof.
  intros Hf Him.
  destruct (linear_search_animated_cases rnd a target speed)
    as [(f0 & Heq & Hnone)|(arr & t & Ha & Ht & Hin & Heq)].
  - rewrite Heq in Hf. apply list_elem_of_singleton in Hf as ->. congruence.
  - exists arr, t. split_and!; [done..|].
    apply run_frame_kind; [done|]. subst target.
    unfold linear_search_animated in *. by rewrite Ha in *.
Qed.

(** X7. Every image of a run is drawn with a glow strength between 0 and
    1.5. *)
Theorem glow_strength_bounded (a : arr_arg) (target : option Z) (speed : Z)
    (f : Frame) (im : Image) :
  f ∈ linear_search_animated b64 a target speed -> image f = Some im ->
  (0 <= glow_strength im <= 3 # 2)%Q.
Proof.
  intros Hf Him.
  destruct (drawn_frame_kind b64 a target speed f im Hf Him) as (arr & t & _ & _ & _ & Hk).
  destruct Hk as [|i k Hi Hk|i val Hi|i val Hi Hne|i p Hi Hp];
    injection Him as <-; cbn [draw_frame glow_strength].
  - lra.
  - by apply approach_glow_bounds.
  - by vm_compute.
  - by vm_compute.
  - by apply pulse_b64_bounds.
Qed.

Lemma glow_strength_bounded_witness :
  (0 <= glow_strength (draw_frame 0 0 {[0%Z]} (pulse b64 0)) <= 3 # 2)%Q.
Proof.
  apply (glow_strength_bounded (Arr [5]) (Some 5) 10 (found_frame b64 5 1 0 {[0]} 0)).
  - apply (list_elem_of_lookup_2 _ 4%nat). vm_compute. reflexivity.
  - reflexivity.
Defined.

Lemma string_length_app (s1 s2 : string) :
  String.length (s1 +:+ s2) = (String.length s1 + String.length s2)%nat.
Proof. induction s1 as [|c s1 IH]; simpl; [done | by rewrite IH]. Qed.

(** X8. No run yields the End frame: whatever the inputs, no frame is at
    step 5 and none has the status text of the End frame.  The [yield]
    after the loop is not reached, because the validation lets through
    only targets that the loop finds. *)
Theorem end_of_search_is_never_yielded (a : arr_arg) (target : option Z) (speed : Z)
    (f : Frame) :
  f ∈ linear_search_animated b64 a target speed ->
  ~ at_step 5 f /\ status f <> "End of search.".
Proof.
  intros Hf.
  destruct (linear_search_animated_cases b64 a target speed)
    as [(f0 & Heq & Hnone)|(arr & t & Ha & Ht & Hin & Heq)].
  - rewrite Heq in Hf. apply list_elem_of_singleton in Hf as ->.
    unfold linear_search_animated in Heq.
    destruct (arr_value a) as [arr|]; [|injection Heq as <-; by split].
    destruct target as [t|]; [|injection Heq as <-; by split].
    case_bool_decide; [injection Heq as <- _; discriminate Hnone|].
    injection Heq as <-. split; [done|].
    cbn [status]. intros E. apply (f_equal String.length) in E.
    rewrite string_length_app in E. simpl in E. lia.
  - assert (frame_kind b64 arr t speed f) as Hk.
    { apply run_frame_kind; [done|]. subst target.
      unfold linear_search_animated in *. by rewrite Ha in *. }
    destruct Hk; by split.
Qed.

Lemma end_of_search_is_never_yielded_witness :
  ~ at_step 5 (found_frame b64 5 1 0 {[0]} 0) /\
  status (found_frame b64 5 1 0 {[0]} 0) <> "End of search.".
Proof.
  apply (end_of_search_is_never_yielded (Arr [5]) (Some 5) 10).
  apply (list_elem_of_lookup_2 _ 4%nat). vm_compute. reflexivity.
Defined.

(** X9. The colours of the bars in a frame of a run are decided by the
    position relative to the current index alone: the bars before it are
    CHECKED, the bars after it UNCHECKED, the bar at it CURRENT, or FOUND
    in the frames of step 3; and the bar at the current index is the one
    bar with glow layers. *)
Theorem bar_colours_follow_the_index (a : arr_arg) (target : option Z) (speed : Z)
    (f : Frame) (im : Image) (j : Z) :
  f ∈ linear_search_animated b64 a target speed -> image f = Some im ->
  0 <= j ->
  (base im j = CHECKED <-> j < current_index im) /\
  (base im j = CURRENT <-> j = current_index im /\ ~ at_step 3 f) /\
  (base im j = FOUND <-> j = current_index im /\ at_step 3 f) /\
  (base im j = UNCHECKED <-> current_index im < j) /\
  (has_glow im j = true <-> j = current_index im).
Proof.
  intros Hf Him Hj.
  destruct (drawn_frame_kind b64 a target speed f im Hf Him) as (arr & t & _ & _ & _ & Hk).
  unfold base, has_glow.
  destruct Hk as [|i k Hi Hk|i val Hi|i val Hi Hne|i p Hi Hp];
    injection Him as <-; cbn [draw_frame current_index found_index checked_indices];
    repeat case_bool_decide;
    repeat match goal with
           | H : _ ∈ checked_below _ |- _ => apply elem_of_checked_below in H
           | H : _ ∉ checked_below _ |- _ => rewrite elem_of_checked_below in H
           | H : _ ∈ ∅ |- _ => by apply not_elem_of_empty in H
           end;
    cbn [orb]; split_and!; split; try done; try lia;
    try (intros [? ?]; done || lia); try (intros _; split; [lia | done]).
Qed.

Lemma bar_colours_follow_the_index_witness :
  base (draw_frame 0 0 {[0]} (pulse b64 0)) 0 = FOUND
  <-> 0 = current_index (draw_frame 0 0 {[0]} (pulse b64 0))
      /\ at_step 3 (found_frame b64 5 1 0 {[0]} 0).
Proof.
  refine (proj1 (proj2 (proj2
            (bar_colours_follow_the_index (Arr [5]) (Some 5) 10
               (found_frame b64 5 1 0 {[0]} 0) (draw_frame 0 0 {[0]} (pulse b64 0)) 0
               _ _ _)))).
  - apply (list_elem_of_lookup_2 _ 4%nat). vm_compute. reflexivity.
  - reflexivity.
  - lia.
Defined.

(** X10. The glow layers of a bar, from the inside out: the alpha of each
    layer is between 0 and 1 and no larger than that of the layer before
    it, the width added is positive and no smaller than that of the
    layer before it. *)
Theorem glow_layers_fade_outwards (glow_strength : Q) (g : Z) :
  (0 <= glow_strength <= 22)%Q -> 0 <= g < glow_layers ->
  (0 <= glow_alpha b64 glow_strength g <= 1)%Q /\
  (g + 1 < glow_layers ->
   (glow_alpha b64 glow_strength (g + 1) <= glow_alpha b64 glow_strength g)%Q) /\
  (0 < glow_expand b64 glow_strength g)%Q /\
  (glow_expand b64 glow_strength g <= glow_expand b64 glow_strength (g + 1))%Q.
Proof.
  intros Hglow Hg. unfold glow_alpha, glow_expand, glow_layers in *.
  set (c := fun k => fmul b64 (lit b64 (5 # 100)) (fsub b64 (of_int b64 1) (true_div b64 k 5))).
  set (F := fadd b64 (fmul b64 (lit b64 (9 # 10)) glow_strength) (lit b64 (1 # 10))).
  change (fmul b64 (lit b64 (5 # 100)) (fsub b64 (of_int b64 1) (true_div b64 g 5)))
    with (c g).
  change (fmul b64 (lit b64 (5 # 100)) (fsub b64 (of_int b64 1) (true_div b64 (g + 1) 5)))
    with (c (g + 1)).
  pose proof (forallb_seqZ
                (fun k => Qle_bool 0 (c (k + 1)) && Qle_bool (c (k + 1)) (c k)
                          && Qle_bool (c k) (c 0))
                0 5 ltac:(by vm_compute) g ltac:(lia)) as Hc.
  cbv beta in Hc. apply andb_prop in Hc as [Hc Hc0]. apply andb_prop in Hc as [Hc1 Hc2].
  apply Qle_bool_iff in Hc0, Hc1, Hc2.
  assert (0 <= lit b64 (9 # 10))%Q as H9 by by vm_compute.
  assert (0 <= F <= fadd b64 (fmul b64 (lit b64 (9 # 10)) 22) (lit b64 (1 # 10)))%Q
    as [HF0 HF1].
  { unfold F. split.
    - assert (fadd b64 0 0 = 0%Q) as <- by by vm_compute.
      apply fadd_b64_mono; [|by vm_compute].
      apply (fmul_b64_mono (lit b64 (9 # 10)) (lit b64 (9 # 10)) glow_strength 22); lra.
    - apply fadd_b64_mono; [|lra].
      apply (fmul_b64_mono (lit b64 (9 # 10)) (lit b64 (9 # 10)) glow_strength 22); lra. }
  set (Fmax := fadd b64 (fmul b64 (lit b64 (9 # 10)) 22) (lit b64 (1 # 10))) in *.
  assert (fmul b64 (c 0%Z) Fmax <= 1)%Q as Htop by by vm_compute.
  assert (0 < lit b64 (1 # 100))%Q as H1 by by vm_compute.
  assert (0 <= lit b64 (2 # 100))%Q as H2 by by vm_compute.
  assert (0 <= lit b64 (5 # 100))%Q as H5 by by vm_compute.
  assert (b64 (lit b64 (1 # 100)) = lit b64 (1 # 100)) as Hfix by by vm_compute.
  assert (0 <= of_int b64 g <= of_int b64 (g + 1))%Q as [Hg0 Hg1].
  { split; [|apply of_int_b64_mono; lia].
    assert (of_int b64 0 = 0%Q) as <- by by vm_compute. apply of_int_b64_mono. lia. }
  split_and!.
  - apply (fmul_b64_mono (c g) (c g) F F); lra.
  - pose proof (fmul_b64_mono (c g) (c 0%Z) F Fmax) as [_ H]; lra.
  - intros Hlt. apply (fmul_b64_mono (c (g + 1)) (c g) F F); lra.
  - apply Qlt_le_trans with (lit b64 (1 # 100)); [done|].
    rewrite <- Hfix at 1. unfold fadd at 1. apply b64_mono.
    assert (lit b64 (1 # 100) <= fadd b64 (lit b64 (1 # 100))
                                   (fmul b64 (of_int b64 g) (lit b64 (2 # 100))))%Q as Hin.
    { rewrite <- Hfix at 1. unfold fadd. apply b64_mono.
      pose proof (fmul_b64_mono (of_int b64 g) (of_int b64 g) (lit b64 (2 # 100))
                    (lit b64 (2 # 100)) ltac:(lra) ltac:(lra)) as [? _]. lra. }
    pose proof (fmul_b64_mono glow_strength glow_strength (lit b64 (5 # 100))
                  (lit b64 (5 # 100)) ltac:(lra) ltac:(lra)) as [? _]. lra.
  - apply fadd_b64_mono; [|lra]. apply fadd_b64_mono; [lra|].
    apply (fmul_b64_mono (of_int b64 g) (of_int b64 (g + 1)) (lit b64 (2 # 100))
             (lit b64 (2 # 100))); lra.
Qed.

Lemma glow_layers_fade_outwards_witness :
  (0 <= glow_alpha b64 (8 # 10) 2 <= 1)%Q.
Proof.
  apply (glow_layers_fade_outwards (8 # 10) 2).
  - split; by vm_compute.
  - unfold glow_layers. lia.
Defined.

(** X11. The pulse of the six Found frames is a triangle wave: frame [p]
    and frame [5 - p] get the same glow, the glow grows strictly over the
    first three frames, stays between 0.6 and the value of the third
    frame, and in real arithmetic it is
    [0.6 + 0.9 * (1 - 2 * |p / 5 - 0.5|)]. *)
Theorem pulse_is_symmetric_triangle (p : Z) :
  0 <= p < 6 ->
  pulse b64 p = pulse b64 (5 - p) /\
  (lit b64 (6 # 10) <= pulse b64 p <= pulse b64 2)%Q /\
  (p < 2 -> (pulse b64 p < pulse b64 (p + 1))%Q) /\
  (pulse exact p == (6 # 10) + (9 # 10) * (1 - Qabs (inject_Z p / 5 - (1 # 2)) * 2))%Q.
Proof.
  intros Hp.
  pose proof (forallb_seqZ
                (fun k => bool_decide (pulse b64 k = pulse b64 (5 - k))
                          && Qle_bool (lit b64 (6 # 10)) (pulse b64 k)
                          && Qle_bool (pulse b64 k) (pulse b64 2)
                          && (bool_decide (2 <= k)
                              || negb (Qle_bool (pulse b64 (k + 1)) (pulse b64 k))))
                0 6 ltac:(by vm_compute) p ltac:(lia)) as H.
  cbv beta in H.
  apply andb_prop in H as [H H4]. apply andb_prop in H as [H H3].
  apply andb_prop in H as [H1 H2].
  apply bool_decide_eq_true_1 in H1. apply Qle_bool_iff in H2, H3.
  split_and!; [done | done | done | | reflexivity].
  intros Hlt. apply orb_prop in H4 as [H4|H4].
  - apply bool_decide_eq_true_1 in H4. lia.
  - apply Qnot_le_lt. intros Hle%Qle_bool_iff. rewrite Hle in H4. discriminate H4.
Qed.

Lemma pulse_is_symmetric_triangle_witness :
  pulse b64 1 = pulse b64 (5 - 1).
Proof. apply (pulse_is_symmetric_triangle 1). lia. Defined.

(** X12. What the loop does on a list without the target (a case the
    validation keeps away from it): every index gets its approach
    frames, its Compare frame and its Advance frame, and the End frame
    closes the sequence, with no current index, all indices checked and
    progress 100, or 0 for the empty list. *)
Theorem exhausted_loop_ends_with_end_frame (arr : list Z) (target fps : Z) :
  target ∉ arr ->
  search_loop b64 target (Z.of_nat (length arr)) fps ∅ 0 arr
  = concat (imap (fun j val =>
                    miss_frames b64 target (Z.of_nat (length arr)) fps (Z.of_nat j) val) arr)
    ++ [ {| status := "End of search.";
            image := Some (draw_frame (-1) (-1) (checked_below (Z.of_nat (length arr))) 0);
            steps := format_steps 5;
            progress := {| p_pct := if decide (arr = []) then 0 else 100;
                           p_done := Z.of_nat (length arr);
                           p_total := Z.of_nat (length arr) |} |} ].
Proof.
  intros Hnot. rewrite <- checked_below_0.
  rewrite (search_loop_miss b64 target _ fps arr 0) by done.
  rewrite Z.add_0_l. do 2 f_equal. unfold end_frame, progress_html. do 2 f_equal.
  destruct arr as [|v arr]; [by vm_compute|].
  rewrite decide_False by done. apply progress_pct_b64_all. simpl. lia.
Qed.

Lemma exhausted_loop_ends_with_end_frame_witness :
  search_loop b64 99 3 2 ∅ 0 [1; 2; 3]
  = concat (imap (fun j val => miss_frames b64 99 3 2 (Z.of_nat j) val) [1; 2; 3])
    ++ [ {| status := "End of search.";
            image := Some (draw_frame (-1) (-1) (checked_below 3) 0);
            steps := format_steps 5;
            progress := {| p_pct := 100; p_done := 3; p_total := 3 |} |} ].
Proof.
  apply (exhausted_loop_ends_with_end_frame [1; 2; 3] 99 2).
  intros H. repeat (apply elem_of_cons in H as [H|H]; [discriminate H|]).
  by apply elem_of_nil in H.
Defined.

(** What is left of the loop when the approach sub-frames are taken out
    does not depend on the number of sub-frames. *)
Lemma search_loop_without_approach (rnd : Q -> Q) (target n fps1 fps2 : Z) (rest : list Z) :
  forall checked i,
  filter (fun f => ~ approach_like f) (search_loop rnd target n fps1 checked i rest)
  = filter (fun f => ~ approach_like f) (search_loop rnd target n fps2 checked i rest).
Proof.
  assert (forall fps checked i,
            filter (fun f => ~ approach_like f)
              (approach_frame rnd n fps i checked <$> seqZ 0 fps) = []) as Hnone.
  { intros fps checked i. induction (seqZ 0 fps) as [|k l IH]; [done|].
    rewrite fmap_cons, filter_cons_False; [done|]. intros Hn. apply Hn. by split. }
  induction rest as [|val rest IH]; intros checked i; [done|].
  cbn [search_loop]. rewrite !filter_app, !Hnone. cbn [app].
  rewrite !(filter_cons_True _ (compare_frame rnd target n i val checked))
    by (intros [_ Hc]; simpl in Hc; injection Hc; lia).
  f_equal. case_bool_decide; [done|].
  rewrite !(filter_cons_True _ (advance_frame rnd n i ({[i]} ∪ checked)))
    by (by intros [Hs _]).
  f_equal. apply IH.
Qed.

(** X13. The speed decides nothing but the approach frames: two runs on
    the same list and target, at any two speeds, are the same frame for
    frame once the approach frames are taken out. *)
Theorem speed_changes_only_the_approach_frames (a : arr_arg) (target : option Z)
    (speed1 speed2 : Z) :
  filter (fun f => ~ approach_like f) (linear_search_animated b64 a target speed1)
  = filter (fun f => ~ approach_like f) (linear_search_animated b64 a target speed2).
Proof.
  unfold linear_search_animated.
  destruct (arr_value a) as [arr|]; [|done].
  destruct target as [t|]; [|done].
  case_bool_decide; [|done].
  rewrite !filter_cons. case_decide.
  - f_equal. apply search_loop_without_approach.
  - apply search_loop_without_approach.
Qed.

(** *** Neighbours in a list *)

Lemma Adjacent_cons {A} (R : A -> A -> Prop) (x : A) (l : list A) :
  (forall y, head l = Some y -> R x y) -> Adjacent R l -> Adjacent R (x :: l).
Proof.
  intros Hx Hl [|j] a b Ha Hb; simpl in *.
  - injection Ha as <-. apply Hx. by destruct l.
  - by apply (Hl j).
Qed.

Lemma Adjacent_app {A} (R : A -> A -> Prop) (l1 l2 : list A) :
  Adjacent R l1 -> Adjacent R l2 ->
  (forall x y, last l1 = Some x -> head l2 = Some y -> R x y) ->
  Adjacent R (l1 ++ l2).
Proof.
  intros H1 H2 H12. induction l1 as [|a l1 IH]; [done|].
  cbn [app]. apply Adjacent_cons.
  - intros y Hy. destruct l1 as [|b l1].
    + apply H12; [done|]. by destruct l2.
    + injection Hy as <-. by apply (H1 0%nat).
  - apply IH.
    + intros j x y Hx Hy. by apply (H1 (S j)).
    + intros x y Hx Hy. apply H12; [|done]. destruct l1; [done|]. by rewrite last_cons_cons.
Qed.

Lemma Adjacent_Forall {A} (R : A -> A -> Prop) (P : A -> Prop) (l : list A) :
  Forall P l -> (forall x y, P x -> P y -> R x y) -> Adjacent R l.
Proof.
  intros Hall HR j x y Hx Hy. rewrite Forall_forall in Hall.
  apply HR; apply Hall; by eapply list_elem_of_lookup_2.
Qed.

Lemma Forall_last {A} (P : A -> Prop) (l : list A) (x : A) :
  Forall P l -> last l = Some x -> P x.
Proof.
  intros Hall Hx. rewrite Forall_forall in Hall. apply Hall.
  rewrite last_lookup in Hx. by eapply list_elem_of_lookup_2.
Qed.

Lemma Forall_head {A} (P : A -> Prop) (l : list A) (x : A) :
  Forall P l -> head l = Some x -> P x.
Proof. intros Hall Hx. destruct l; [done|]. injection Hx as <-. by inversion Hall. Qed.

Lemma search_loop_steps (rnd : Q -> Q) (target n fps : Z) (rest : list Z) :
  forall checked i, target ∈ rest ->
  Adjacent step_follows (search_loop rnd target n fps checked i rest) /\
  exists y, head (search_loop rnd target n fps checked i rest) = Some y /\ at_step 2 y.
Proof.
  induction rest as [|val rest IH]; intros checked i Hin; [by apply elem_of_nil in Hin|].
  cbn [search_loop].
  set (A := approach_frame rnd n fps i checked <$> seqZ 0 fps).
  set (c := compare_frame rnd target n i val checked).
  assert (Forall (at_step 2) A) as HA.
  { apply Forall_fmap, Forall_forall. by intros k _. }
  assert (at_step 2 c) as Hc by done.
  split.
  - apply Adjacent_app.
    + apply (Adjacent_Forall _ _ _ HA). intros x y Hx Hy. right; left. by split; [|left].
    + apply Adjacent_cons.
      * intros y Hy. right; left. split; [done|].
        case_bool_decide.
        -- right; left. eapply (Forall_head (at_step 3)); [|exact Hy].
           apply Forall_fmap, Forall_forall. by intros k _.
        -- injection Hy as <-. by right; right.
      * case_bool_decide as Hval.
        -- eapply (Adjacent_Forall _ (at_step 3)).
           ++ apply Forall_fmap, Forall_forall. by intros k _.
           ++ intros x y Hx Hy. right; right; left. by split.
        -- apply elem_of_cons in Hin as [->|Hin]; [done|].
           destruct (IH ({[i]} ∪ checked) (i + 1) Hin) as (Hadj & y & Hy & Hy2).
           apply Adjacent_cons; [|done].
           intros y' Hy'. rewrite Hy in Hy'. injection Hy' as <-.
           right; right; right. by split.
    + intros x y Hx Hy. injection Hy as <-. right; left. split; [|by left].
      by apply (Forall_last _ _ _ HA).
  - destruct A as [|a0 A0] eqn:EA.
    + by exists c.
    + exists a0. split; [done|]. by inversion HA.
Qed.

(** X14. The step numbers of neighbouring frames of a run follow the
    transitions 1 to 2; 2 to 2, 3 or 4; 3 to 3; 4 to 2; and a run of more
    than one frame starts at step 1. *)
Theorem steps_follow_the_state_machine (a : arr_arg) (target : option Z) (speed : Z)
    (j : nat) (f g : Frame) :
  linear_search_animated b64 a target speed !! j = Some f ->
  linear_search_animated b64 a target speed !! S j = Some g ->
  step_follows f g /\ (j = 0%nat -> at_step 1 f).
Proof.
  destruct (linear_search_animated_cases b64 a target speed)
    as [(f0 & -> & _)|(arr & t & _ & _ & Hin & ->)]; intros Hf Hg; [done|].
  destruct (search_loop_steps b64 t (Z.of_nat (length arr)) (frames_per_step b64 speed)
              arr ∅ 0 Hin) as (Hadj & y & Hy & Hy2).
  split.
  - refine (Adjacent_cons step_follows _ _ _ Hadj j f g Hf Hg).
    intros y' Hy'. rewrite Hy in Hy'. injection Hy' as <-. left. by split.
  - intros ->. by injection Hf as <-.
Qed.

Lemma steps_follow_the_state_machine_witness :
  step_follows (compare_frame b64 5 1 0 5 ∅) (found_frame b64 5 1 0 {[0]} 0) /\
  (3%nat = 0%nat -> at_step 1 (compare_frame b64 5 1 0 5 ∅)).
Proof.
  apply (steps_follow_the_state_machine (Arr [5]) (Some 5) 10 3).
  - vm_compute. reflexivity.
  - vm_compute. reflexivity.
Defined.

(** X15. Every frame with an image highlights exactly one line of the step
    panel, the message frames of the validation highlight none; and
    [format_steps k] highlights one line for [k] from 1 to 5 and none
    for any other [k]. *)
Theorem one_step_is_highlighted (a : arr_arg) (target : option Z) (speed : Z) (f : Frame) :
  f ∈ linear_search_animated b64 a target speed ->
  highlighted (steps f) = match image f with Some _ => 1%nat | None => 0%nat end /\
  forall k, highlighted (format_steps k) = if decide (1 <= k <= 5) then 1%nat else 0%nat.
Proof.
  intros Hf. split.
  - destruct (image f) as [im|] eqn:Him.
    + destruct (drawn_frame_kind b64 a target speed f im Hf Him)
        as (arr & t & _ & _ & _ & Hk).
      by destruct Hk.
    + destruct (linear_search_animated_cases b64 a target speed)
        as [(f0 & Heq & _)|(arr & t & Ha & Ht & Hin & Heq)].
      * rewrite Heq in Hf. apply list_elem_of_singleton in Hf as ->.
        unfold linear_search_animated in Heq.
        destruct (arr_value a) as [arr|]; [|by injection Heq as <-].
        destruct target as [t|]; [|by injection Heq as <-].
        case_bool_decide; [injection Heq as <- _; discriminate Him|].
        by injection Heq as <-.
      * assert (frame_kind b64 arr t speed f) as Hk.
        { apply run_frame_kind; [done|]. subst target.
          unfold linear_search_animated in *. by rewrite Ha in *. }
        destruct Hk; discriminate Him.
  - intros k. unfold highlighted, format_steps. cbn [s1 s2 s3 s4 s5].
    repeat case_bool_decide; case_decide; simpl; lia.
Qed.

Lemma one_step_is_highlighted_witness :
  highlighted (steps (found_frame b64 5 1 0 {[0]} 0)) = 1%nat.
Proof.
  refine (proj1 (one_step_is_highlighted (Arr [5]) (Some 5) 10
                   (found_frame b64 5 1 0 {[0]} 0) _)).
  apply (list_elem_of_lookup_2 _ 4%nat). vm_compute. reflexivity.
Defined.

Lemma last_hit_frames (rnd : Q -> Q) (target n fps i : Z) :
  last (hit_frames rnd target n fps i)
  = Some (found_frame rnd target n i (checked_below (i + 1)) 5).
Proof. unfold hit_frames. by rewrite last_app_cons. Qed.

Lemma linear_search_animated_value (rnd : Q -> Q) (a : arr_arg) (arr : list Z)
    (target : option Z) (speed : Z) :
  arr_value a = Some arr ->
  linear_search_animated rnd a target speed = linear_search_animated rnd (Arr arr) target speed.
Proof. intros Ha. unfold linear_search_animated. by rewrite Ha. Qed.

(** X16. Picking a random target and searching for it.  On text that does
    not evaluate and on the empty list [pick_random_from_list] returns its
    message; otherwise it returns the element at the drawn position, and
    the search for that element ends in a Found frame at an index that
    holds it, which is the drawn position when the list has no
    repetition. *)
Theorem picked_target_is_found (randrange : nat -> nat) (a : arr_arg) (speed : Z) :
  (forall n, (0 < n)%nat -> (randrange n < n)%nat) ->
  match arr_value a with
  | None => pick_random_from_list randrange a = PickText "Invalid list!"
  | Some [] => pick_random_from_list randrange a = PickText "List empty!"
  | Some arr =>
      exists v f im,
        pick_random_from_list randrange a = PickValue v /\
        arr !! randrange (length arr) = Some v /\
        last (linear_search_animated b64 a (Some v) speed) = Some f /\
        at_step 3 f /\ image f = Some im /\
        arr !! Z.to_nat (found_index im) = Some v /\
        (NoDup arr -> found_index im = Z.of_nat (randrange (length arr)))
  end.
Proof.
  intros Hrand. unfold pick_random_from_list.
  destruct (arr_value a) as [arr|] eqn:Ha; [|done].
  destruct arr as [|x arr]; [done|].
  set (l := x :: arr) in *.
  destruct (lookup_lt_is_Some_2 l (randrange (length l))) as [v Hv].
  { apply Hrand. simpl. lia. }
  rewrite Hv.
  assert (v ∈ l) as Hin by by eapply list_elem_of_lookup_2.
  destruct (first_occurrence_exists l v Hin) as (k & Hk & Hmin).
  destruct (first_occurrence_split l v k Hk Hmin) as (Hl & Hnot & Hlen).
  exists v, (found_frame b64 v (Z.of_nat (length l)) (Z.of_nat k) (checked_below (Z.of_nat k + 1)) 5),
    (draw_frame (Z.of_nat k) (Z.of_nat k) (checked_below (Z.of_nat k + 1)) (pulse b64 5)).
  split_and!; try done.
  - rewrite (linear_search_animated_value b64 a l) by done.
    rewrite Hl at 1. rewrite linear_search_animated_closed by done.
    rewrite <- Hl, Hlen. rewrite last_cons, last_app, last_hit_frames. done.
  - cbn [draw_frame found_index]. by rewrite Nat2Z.id.
  - intros Hnd. cbn [draw_frame found_index]. f_equal.
    by apply (NoDup_lookup l k (randrange (length l)) v).
Qed.

Lemma picked_target_is_found_witness :
  exists v f im,
    pick_random_from_list (fun _ => 0%nat) (Arr [3; 7; 9; 2]) = PickValue v /\
    [3; 7; 9; 2] !! 0%nat = Some v /\
    last (linear_search_animated b64 (Arr [3; 7; 9; 2]) (Some v) 5) = Some f /\
    at_step 3 f /\ image f = Some im /\
    [3; 7; 9; 2] !! Z.to_nat (found_index im) = Some v /\
    (NoDup [3; 7; 9; 2] -> found_index im = Z.of_nat 0).
Proof.
  apply (picked_target_is_found (fun _ => 0%nat) (Arr [3; 7; 9; 2]) 5).
  intros n Hn. exact Hn.
Defined.

(** X17. The percentage of [progress_html], as computed in binary64, is
    between 0 and 100 and never decreases as [done] grows; it is 0 for
    [done = 0] and 100 for [done = total] with a list that is not
    empty. *)
Theorem progress_is_a_monotone_percentage (done1 done2 total : Z) :
  0 <= done1 <= done2 -> done2 <= total ->
  0 <= progress_pct b64 done1 total <= progress_pct b64 done2 total /\
  progress_pct b64 done2 total <= 100 /\
  progress_pct b64 0 total = 0 /\
  (1 <= total -> progress_pct b64 total total = 100).
Proof.
  intros [H0 H12] Ht. split_and!.
  - apply progress_pct_b64_range. lia.
  - by apply progress_pct_b64_mono.
  - apply progress_pct_b64_range. lia.
  - apply progress_pct_b64_none.
  - apply progress_pct_b64_all.
Qed.

Lemma progress_is_a_monotone_percentage_witness :
  0 <= progress_pct b64 3 20 <= progress_pct b64 7 20 /\
  progress_pct b64 7 20 <= 100 /\
  progress_pct b64 0 20 = 0 /\
  (1 <= 20 -> progress_pct b64 20 20 = 100).
Proof. apply (progress_is_a_monotone_percentage 3 7 20); lia. Defined.

(** X18. A run whose input does not pass the validation is one frame with
    no image, no highlighted step and progress 0, also for the empty list
    (there [max(1, total)] is the divisor); text that does not evaluate is
    reported before a missing target, and a missing target before an
    absent one.  A run that passes starts with the Start frame and goes
    on. *)
Theorem invalid_input_yields_one_message (a : arr_arg) (target : option Z) (speed : Z) :
  let message (s : string) (total : Z) :=
    {| status := s; image := None; steps := format_steps 0;
       progress := {| p_pct := 0; p_done := 0; p_total := total |} |} in
  match arr_value a, target with
  | None, _ =>
      linear_search_animated b64 a target speed = [message "Invalid list!" 1]
  | Some arr, None =>
      linear_search_animated b64 a target speed
      = [message "Pick a target number." (Z.of_nat (length arr))]
  | Some arr, Some t =>
      if decide (t ∈ arr) then
        head (linear_search_animated b64 a target speed)
        = Some (start_frame b64 (Z.of_nat (length arr)) ∅) /\
        (1 < length (linear_search_animated b64 a target speed))%nat
      else
        linear_search_animated b64 a target speed
        = [message (pretty t +:+ " is NOT in the list.") (Z.of_nat (length arr))]
  end.
Proof.
  intros message. unfold linear_search_animated, message, progress_html.
  destruct (arr_value a) as [arr|]; [|by rewrite progress_pct_b64_none].
  destruct target as [t|]; [|by rewrite progress_pct_b64_none].
  case_decide as Hin.
  - rewrite bool_decide_eq_true_2 by done. split; [done|].
    destruct arr as [|v arr]; [by apply elem_of_nil in Hin|].
    cbn [search_loop length]. rewrite length_app. cbn [length]. lia.
  - rewrite bool_decide_eq_false_2 by done. by rewrite progress_pct_b64_none.
Qed.

Lemma length_filter_concat_imap {A B} (P : B -> Prop) `{!forall y, Decision (P y)}
    (f : nat -> A -> list B) (l : list A) (c : nat) :
  (forall j x, length (filter P (f j x)) = c) ->
  length (filter P (concat (imap f l))) = (length l * c)%nat.
Proof.
  intros Hc. revert f Hc. induction l as [|x l IH]; intros f Hc; [done|].
  cbn [imap concat length]. rewrite filter_app, length_app, Hc, IH by (intros; apply Hc). lia.
Qed.

Lemma length_filter_fmap_all {A B} (P : B -> Prop) `{!forall y, Decision (P y)}
    (f : A -> B) (l : list A) :
  (forall x, P (f x)) -> length (filter P (f <$> l)) = length l.
Proof.
  intros HP. rewrite length_filter_all, length_fmap; [done|].
  apply Forall_fmap, Forall_forall. intros x _. apply HP.
Qed.

Lemma length_filter_fmap_none {A B} (P : B -> Prop) `{!forall y, Decision (P y)}
    (f : A -> B) (l : list A) :
  (forall x, ~ P (f x)) -> length (filter P (f <$> l)) = 0%nat.
Proof.
  intros HP. apply length_filter_none, Forall_fmap, Forall_forall. intros x _. apply HP.
Qed.

(** X19. How often each line of the step panel is shown.  With the target
    first at index [k]: step 1 in one frame, step 2 in
    [(k + 1) * (fps + 1)] frames (the approach frames and the Compare
    frame of every visited index), step 3 in six frames, step 4 in [k]
    frames, step 5 in none. *)
Theorem frame_counts_by_step (arr : list Z) (target speed : Z) (k : nat) :
  arr !! k = Some target ->
  (forall j, (j < k)%nat -> arr !! j <> Some target) ->
  let run := linear_search_animated b64 (Arr arr) (Some target) speed in
  length (filter (at_step 1) run) = 1%nat /\
  Z.of_nat (length (filter (at_step 2) run))
  = (Z.of_nat k + 1) * (frames_per_step b64 speed + 1) /\
  length (filter (at_step 3) run) = 6%nat /\
  length (filter (at_step 4) run) = k /\
  length (filter (at_step 5) run) = 0%nat.
Proof.
  intros Hk Hmin run. unfold run.
  destruct (first_occurrence_split arr target k Hk Hmin) as (Harr & Hnot & Hlen).
  rewrite Harr at 1 2 3 4 5. rewrite linear_search_animated_closed by done.
  rewrite <- Harr, Hlen.
  set (n := Z.of_nat (length arr)). set (fps := frames_per_step b64 speed).
  pose proof (frames_per_step_pos b64 speed) as Hfps. fold fps in Hfps.
  clearbody fps n.
  assert (forall (s : Z) j val,
            length (filter (at_step s) (miss_frames b64 target n fps (Z.of_nat j) val))
            = (if decide (s = 2%Z) then Z.to_nat fps + 1
               else if decide (s = 4%Z) then 1 else 0)%nat) as Hmiss.
  { intros s j val. unfold miss_frames. rewrite filter_app, length_app.
    repeat case_decide; subst.
    - rewrite length_filter_fmap_all, length_seqZ by done.
      rewrite filter_cons_True, filter_cons_False by done. simpl. lia.
    - rewrite length_filter_fmap_none by done.
      by rewrite filter_cons_False, filter_cons_True by done.
    - rewrite length_filter_fmap_none
        by (intros x Hx; unfold at_step in Hx; simpl in Hx;
            apply (f_equal s2) in Hx; simpl in Hx; by case_bool_decide).
      rewrite !filter_cons_False; [done| |].
      + intros Hx. unfold at_step in Hx. simpl in Hx.
        apply (f_equal s4) in Hx. simpl in Hx. by case_bool_decide.
      + intros Hx. unfold at_step in Hx. simpl in Hx.
        apply (f_equal s2) in Hx. simpl in Hx. by case_bool_decide. }
  assert (forall (s : Z),
            length (filter (at_step s) (hit_frames b64 target n fps (Z.of_nat k)))
            = (if decide (s = 2%Z) then Z.to_nat fps + 1
               else if decide (s = 3%Z) then 6 else 0)%nat) as Hhit.
  { intros s. unfold hit_frames. rewrite filter_app, length_app.
    repeat case_decide; subst.
    - rewrite length_filter_fmap_all, length_seqZ by done.
      rewrite filter_cons_True by done. cbn [length].
      rewrite length_filter_fmap_none by done. lia.
    - rewrite length_filter_fmap_none by done.
      rewrite filter_cons_False by done.
      by rewrite length_filter_fmap_all, length_seqZ by done.
    - rewrite length_filter_fmap_none
        by (intros x Hx; unfold at_step in Hx; simpl in Hx;
            apply (f_equal s2) in Hx; simpl in Hx; by case_bool_decide).
      rewrite filter_cons_False.
      + rewrite length_filter_fmap_none; [done|].
        intros x Hx. unfold at_step in Hx. simpl in Hx.
        apply (f_equal s3) in Hx. simpl in Hx. by case_bool_decide.
      + intros Hx. unfold at_step in Hx. simpl in Hx.
        apply (f_equal s2) in Hx. simpl in Hx. by case_bool_decide. }
  assert (forall s c,
            (forall j val, length (filter (at_step s)
                                     (miss_frames b64 target n fps (Z.of_nat j) val)) = c) ->
            length (filter (at_step s)
                      (concat (imap (fun j val => miss_frames b64 target n fps (Z.of_nat j) val)
                                 (take k arr)))) = (k * c)%nat) as Hall.
  { intros s c Hc. rewrite (length_filter_concat_imap _ _ _ c) by done. by rewrite Hlen. }
  split_and!.
  - rewrite filter_cons_True by done. cbn [length]. rewrite filter_app, length_app.
    rewrite (Hall 1 0%nat) by (intros; by rewrite Hmiss). rewrite Hhit. simpl. lia.
  - rewrite filter_cons_False by done. rewrite filter_app, length_app.
    rewrite (Hall 2 (Z.to_nat fps + 1)%nat) by (intros; by rewrite Hmiss).
    rewrite Hhit. simpl. lia.
  - rewrite filter_cons_False by done. rewrite filter_app, length_app.
    rewrite (Hall 3 0%nat) by (intros; by rewrite Hmiss). rewrite Hhit. simpl. lia.
  - rewrite filter_cons_False by done. rewrite filter_app, length_app.
    rewrite (Hall 4 1%nat) by (intros; by rewrite Hmiss). rewrite Hhit. simpl. lia.
  - rewrite filter_cons_False by done. rewrite filter_app, length_app.
    rewrite (Hall 5 0%nat) by (intros; by rewrite Hmiss). rewrite Hhit. simpl. lia.
Qed.

Lemma frame_counts_by_step_witness :
  length (filter (at_step 1) (linear_search_animated b64 (Arr [3; 7; 9; 2]) (Some 9) 5))
  = 1%nat /\
  Z.of_nat (length (filter (at_step 2)
                      (linear_search_animated b64 (Arr [3; 7; 9; 2]) (Some 9) 5)))
  = (Z.of_nat 2 + 1) * (frames_per_step b64 5 + 1) /\
  length (filter (at_step 3) (linear_search_animated b64 (Arr [3; 7; 9; 2]) (Some 9) 5))
  = 6%nat /\
  length (filter (at_step 4) (linear_search_animated b64 (Arr [3; 7; 9; 2]) (Some 9) 5))
  = 2%nat /\
  length (filter (at_step 5) (linear_search_animated b64 (Arr [3; 7; 9; 2]) (Some 9) 5))
  = 0%nat.
Proof.
  apply (frame_counts_by_step [3; 7; 9; 2] 9 5 2).
  - reflexivity.
  - intros [|[|j]] Hj; [discriminate | discriminate | lia].
Defined.

Lemma search_loop_advance (rnd : Q -> Q) (target n fps : Z) (rest : list Z) :
  forall checked i, target ∈ rest ->
  Adjacent advance_leads_to (search_loop rnd target n fps checked i rest) /\
  exists y im, head (search_loop rnd target n fps checked i rest) = Some y /\
               image y = Some im /\ current_index im = i.
Proof.
  induction rest as [|val rest IH]; intros checked i Hin; [by apply elem_of_nil in Hin|].
  cbn [search_loop].
  set (A := approach_frame rnd n fps i checked <$> seqZ 0 fps).
  set (c := compare_frame rnd target n i val checked).
  assert (Forall (at_step 2) A) as HA.
  { apply Forall_fmap, Forall_forall. by intros k _. }
  assert (forall f g, at_step 2 f -> advance_leads_to f g) as H2.
  { intros f g Hf Hf4. unfold at_step in *. rewrite Hf in Hf4. discriminate Hf4. }
  assert (forall f g, at_step 3 f -> advance_leads_to f g) as H3.
  { intros f g Hf Hf4. unfold at_step in *. rewrite Hf in Hf4. discriminate Hf4. }
  split.
  - apply Adjacent_app.
    + apply (Adjacent_Forall _ _ _ HA). intros x y Hx _. by apply H2.
    + apply Adjacent_cons; [intros y _; by apply H2|].
      case_bool_decide as Hval.
      * eapply (Adjacent_Forall _ (at_step 3)).
        -- apply Forall_fmap, Forall_forall. by intros k _.
        -- intros x y Hx _. by apply H3.
      * apply elem_of_cons in Hin as [->|Hin]; [done|].
        destruct (IH ({[i]} ∪ checked) (i + 1) Hin) as (Hadj & y & im & Hy & Him & Hcur).
        apply Adjacent_cons; [|done].
        intros y' Hy' _. rewrite Hy in Hy'. injection Hy' as <-.
        eexists _, im. split_and!; [reflexivity | done | by rewrite Hcur |].
        by rewrite Hcur.
    + intros x y Hx _. apply H2. by apply (Forall_last _ _ _ HA).
  - destruct A as [|a0 A0] eqn:EA.
    + by exists c, (draw_frame i (-1) checked (lit rnd (8 # 10))).
    + assert (a0 ∈ A) as Ha0 by (rewrite EA; by left).
      apply list_elem_of_fmap in Ha0 as (k & -> & _). by eexists _, _.
Qed.

Lemma run_current_in_range (rnd : Q -> Q) (a : arr_arg) (target : option Z) (speed : Z)
    (f : Frame) (im : Image) :
  f ∈ linear_search_animated rnd a target speed -> image f = Some im ->
  -1 <= current_index im < Z.of_nat (arr_length a).
Proof.
  intros Hf Him.
  destruct (linear_search_animated_cases rnd a target speed)
    as [(f0 & Heq & Hnone)|(arr & t & Ha & _ & _ & Heq)]; rewrite Heq in Hf.
  - apply list_elem_of_singleton in Hf as ->. congruence.
  - unfold arr_length. rewrite Ha. cbn [from_option].
    apply elem_of_cons in Hf as [->|Hf].
    + injection Him as <-; simpl. lia.
    + pose proof (search_loop_in_range rnd t (Z.of_nat (length arr))
                    (frames_per_step rnd speed) arr ∅ 0 ltac:(lia)) as Hall.
      rewrite Forall_forall in Hall. specialize (Hall f Hf im Him). lia.
Qed.

(** X20. An Advance frame is never the last frame: the frame after it
    exists, is drawn at the next index, that index is within the list,
    and it is the index the status text of the Advance frame names. *)
Theorem advance_moves_to_the_index_it_names (a : arr_arg) (target : option Z) (speed : Z)
    (j : nat) (f : Frame) :
  linear_search_animated b64 a target speed !! j = Some f ->
  at_step 4 f ->
  exists g imf img,
    linear_search_animated b64 a target speed !! S j = Some g /\
    image f = Some imf /\ image g = Some img /\
    current_index img = current_index imf + 1 /\
    current_index img < Z.of_nat (arr_length a) /\
    status f = "No match, moving to index " +:+ pretty (current_index img).
Proof.
  intros Hf Hf4.
  destruct (linear_search_animated_cases b64 a target speed)
    as [(f0 & Heq & _)|(arr & t & Ha & Ht & Hin & Heq)].
  { rewrite Heq in Hf. destruct j; [|done]. injection Hf as <-.
    unfold linear_search_animated in Heq.
    destruct (arr_value a) as [arr|]; [|by injection Heq as <-].
    destruct target as [t|]; [|by injection Heq as <-].
    case_bool_decide; by injection Heq as <-. }
  set (run := linear_search_animated b64 a target speed) in *.
  assert (exists g, run !! S j = Some g) as [g Hg].
  { apply lookup_lt_is_Some_2.
    assert (j < length run)%nat as Hlt by by eapply lookup_lt_Some.
    destruct (decide (S j = length run)) as [Hlast|?]; [|lia].
    exfalso.
    destruct (first_occurrence_exists arr t Hin) as (k & Hk & Hmin).
    destruct (first_occurrence_split arr t k Hk Hmin) as (Harr & Hnot & Hlen).
    assert (last run = Some f) as Hl.
    { rewrite last_lookup. by replace (pred (length run)) with j by lia. }
    unfold run in Hl. subst target.
    rewrite (linear_search_animated_value b64 a arr) in Hl by done.
    rewrite Harr in Hl at 1. rewrite linear_search_animated_closed in Hl by done.
    rewrite last_cons, last_app, last_hit_frames in Hl. injection Hl as <-. done. }
  destruct (search_loop_advance b64 t (Z.of_nat (length arr)) (frames_per_step b64 speed)
              arr ∅ 0 Hin) as (Hadj & y & im & Hy & Him & Hcur).
  assert (Adjacent advance_leads_to run) as Hrun.
  { rewrite Heq. apply Adjacent_cons; [|done]. by intros y' _ Hy'. }
  destruct (Hrun j f g Hf Hg Hf4) as (imf & img & Himf & Himg & Hnext & Hst).
  exists g, imf, img. split_and!; try done.
  assert (g ∈ run) as Hgin by by eapply list_elem_of_lookup_2.
  pose proof (run_current_in_range b64 a target speed g img Hgin Himg). lia.
Qed.

Lemma advance_moves_to_the_index_it_names_witness :
  exists g imf img,
    linear_search_animated b64 (Arr [3; 5]) (Some 5) 10 !! 5%nat = Some g /\
    image (advance_frame b64 2 0 {[0]}) = Some imf /\ image g = Some img /\
    current_index img = current_index imf + 1 /\
    current_index img < Z.of_nat (arr_length (Arr [3; 5])) /\
    status (advance_frame b64 2 0 {[0]})
    = "No match, moving to index " +:+ pretty (current_index img).
Proof.
  apply (advance_moves_to_the_index_it_names (Arr [3; 5]) (Some 5) 10 4).
  - vm_compute. reflexivity.
  - vm_compute. reflexivity.
Defined.

(** One rounding of a number that is at least 2^-1022 keeps it within the
    relative error 2^-53. *)
Lemma b64_near (q : Q) :
  (pow2 (-1022) <= q)%Q ->
  (q * (1 - (1 # 9007199254740992)) <= b64 q <= q * (1 + (1 # 9007199254740992)))%Q.
Proof. intros H. exact (b64_rel_error q H). Qed.

(** X21. The easing value the sequencer computes in binary64 lies within
    2^-50 of the real smoothstep polynomial [t * t * (3 - 2 * t)], for
    every argument between 2^-500 and 1. *)
Theorem ease_b64_is_close_to_smoothstep (t : Q) :
  (pow2 (-500) <= t <= 1)%Q ->
  (Qabs (ease b64 t - ease exact t) <= 1 # 2 ^ 50)%Q.
Proof.
  intros [Hlo Hhi].
  pose proof (pow2_pos (-500)) as Hp500.
  assert (pow2 (-1022) <= pow2 (-1002))%Q as Hp3 by (by apply pow2_le).
  assert (pow2 (-1002) == pow2 (-500) * pow2 (-500) * (1 # 4))%Q as Hp4.
  { change (1 # 4)%Q with (pow2 (-2)). by rewrite <- !pow2_add. }
  assert (pow2 (-1022) <= 1 # 2)%Q as Hp5.
  { change (1 # 2)%Q with (pow2 (-1)). by apply pow2_le. }
  pose proof (pow2_pos (-1022)) as Hp8.
  assert (pow2 (-500) * pow2 (-500) <= t * t)%Q as Htt.
  { apply Qmult_le_compat_nonneg; lra. }
  assert (0 < pow2 (-500) * pow2 (-500))%Q as Hpp by (apply Qmult_lt_0_compat; lra).
  assert (t * t <= 1)%Q as Htt1.
  { assert (t * t <= 1 * 1)%Q by (apply Qmult_le_compat_nonneg; lra). lra. }
  assert (t * t <= t)%Q as Htt2.
  { assert (t * t <= t * 1)%Q by (apply Qmult_le_compat_nonneg; lra). lra. }
  assert (0 <= t * t * t <= 1)%Q as [HT0 HT1].
  { split; [apply Qmult_le_0_compat; lra|].
    assert (t * t * t <= 1 * 1)%Q by (apply Qmult_le_compat_nonneg; lra). lra. }
  pose proof (smoothstep_monotone 0 t ltac:(lra) ltac:(lra) Hhi) as HS0.
  pose proof (smoothstep_monotone t 1 ltac:(lra) Hhi ltac:(lra)) as HS1.
  rewrite ease_exact_unfold. unfold ease, fmul, fsub.
  assert (of_int b64 3 = 3%Q) as -> by by vm_compute.
  assert (of_int b64 2 = 2%Q) as -> by by vm_compute.
  change (1 # 2 ^ 50)%Q with (1 # 1125899906842624)%Q.
  set (P := (pow2 (-500) * pow2 (-500))%Q) in *.
  set (L := pow2 (-1022)) in *. set (M := pow2 (-1002)) in *.
  pose proof b64_near as Hnear. fold L in Hnear.
  clearbody P L M. clear Hlo Hp500.
  pose proof (Hnear (t * t)%Q ltac:(lra)) as HA.
  set (A := b64 (t * t)) in *. clearbody A.
  pose proof (Hnear (2 * t)%Q ltac:(lra)) as HB.
  set (B := b64 (2 * t)) in *. clearbody B.
  pose proof (Hnear (3 - B)%Q ltac:(lra)) as HC.
  set (C := b64 (3 - B)) in *. clearbody C.
  assert (P * (1 # 2) * (1 # 2) <= A * C)%Q as HAClo.
  { apply Qmult_le_compat_nonneg; lra. }
  assert (A * C <= (t * t * (1 + (1 # 9007199254740992)))
                   * ((3 - 2 * t * (1 - (1 # 9007199254740992)))
                      * (1 + (1 # 9007199254740992))))%Q as Hup.
  { apply Qmult_le_compat_nonneg; lra. }
  assert ((t * t * (1 - (1 # 9007199254740992)))
          * ((3 - 2 * t * (1 + (1 # 9007199254740992)))
             * (1 - (1 # 9007199254740992))) <= A * C)%Q as Hdn.
  { apply Qmult_le_compat_nonneg; lra. }
  pose proof (Hnear (A * C)%Q ltac:(lra)) as HE.
  set (E := b64 (A * C)) in *. clearbody E.
  assert ((t * t * (1 + (1 # 9007199254740992)))
          * ((3 - 2 * t * (1 - (1 # 9007199254740992)))
             * (1 + (1 # 9007199254740992)))
          == (1 + (1 # 9007199254740992)) * (1 + (1 # 9007199254740992))
             * (t * t * (3 - 2 * t))
             + (1 + (1 # 9007199254740992)) * (1 + (1 # 9007199254740992))
               * 2 * (1 # 9007199254740992) * (t * t * t))%Q as Rup by ring.
  assert ((t * t * (1 - (1 # 9007199254740992)))
          * ((3 - 2 * t * (1 + (1 # 9007199254740992)))
             * (1 - (1 # 9007199254740992)))
          == (1 - (1 # 9007199254740992)) * (1 - (1 # 9007199254740992))
             * (t * t * (3 - 2 * t))
             - (1 - (1 # 9007199254740992)) * (1 - (1 # 9007199254740992))
               * 2 * (1 # 9007199254740992) * (t * t * t))%Q as Rdn by ring.
  set (S := (t * t * (3 - 2 * t))%Q) in *. set (T := (t * t * t)%Q) in *.
  set (AC := (A * C)%Q) in *.
  clearbody S T AC.
  apply Qabs_Qle_condition. split; lra.
Qed.

Lemma ease_b64_is_close_to_smoothstep_witness :
  (Qabs (ease b64 (1 # 2) - ease exact (1 # 2)) <= 1 # 2 ^ 50)%Q.
Proof.
  apply (ease_b64_is_close_to_smoothstep (1 # 2)).
  split; by vm_compute.
Defined.

Lemma progress_pct_b64_floor_small_witness :
  progress_pct b64 7 20 = progress_floor 7 20.
Proof. apply (progress_pct_b64_floor_small 7 20); lia. Defined.
